(** * Crossword CSP solver (Crossword/generate.py): model and properties

    A shallow embedding of [CrosswordCreator]: node consistency, [revise],
    AC-3, the consistency checker, the two search heuristics, the
    backtracking search and the letter grid, followed by the properties of
    the specification and by further properties of the code.

    Modelling conventions.
    - A Python [set] of words is a list without repetition, iterated in list
      order; a Python [dict] that is iterated is an association list in
      insertion order; [self.domains], which is only indexed, is a [gmap].
    - A [set] object is mutable and shared by reference: [self.domains] maps
      a slot to a location of [heap], and [revise] updates the heap cell in
      place, as [self.domains[x].remove(word)] does.
    - A Python exception is a [Raise]; loops bounded by fuel raise
      [OutOfFuel], which is shown unreachable for the fuel the model gives. *)

From stdpp Require Import base decidable option list strings gmap sorting.

(** ** Exceptions *)

Inductive exn : Type :=
  | KeyError | IndexError | ValueError | TypeError
  | OutOfFuel   (* not a Python exception: a loop cut by its fuel *)
  | Dangling.   (* not a Python exception: a location outside the heap *)

Inductive result (A : Type) : Type :=
  | Ok (a : A)
  | Raise (e : exn).
Arguments Ok {A} a.
Arguments Raise {A} e.

Definition bind {A B : Type} (m : result A) (f : A → result B) : result B :=
  match m with
  | Ok a => f a
  | Raise e => Raise e
  end.

Notation "x <- m ;; k" := (bind m (λ x, k))
  (at level 20, m at level 99, k at level 200, only parsing).
Notation "' p <- m ;; k" := (bind m (λ x, match x with p => k end))
  (at level 20, p pattern, m at level 99, k at level 200, only parsing).

(** ** Python dictionaries that are iterated: insertion-ordered *)

Section dict.
Context {K V : Type} `{EqDecision K}.

(** [d[k]], [None] where Python raises [KeyError] *)
Fixpoint dict_get (d : list (K * V)) (k : K) : option V :=
  match d with
  | [] => None
  | (k', v) :: d => if decide (k' = k) then Some v else dict_get d k
  end.

(** [d[k] = v] *)
Fixpoint dict_set (d : list (K * V)) (k : K) (v : V) : list (K * V) :=
  match d with
  | [] => [(k, v)]
  | (k', v') :: d =>
      if decide (k' = k) then (k, v) :: d else (k', v') :: dict_set d k v
  end.

(** [k in d.keys()] *)
Definition dict_mem (d : list (K * V)) (k : K) : bool :=
  bool_decide (is_Some (dict_get d k)).
End dict.

(** ** Python sets of words and string indexing *)

(** [s.add(w)] *)
Definition set_add (w : string) (s : list string) : list string :=
  if decide (w ∈ s) then s else s ++ [w].

(** [s.remove(w)] *)
Definition set_remove (w : string) (s : list string) : result (list string) :=
  if decide (w ∈ s) then Ok (filter (λ v, v ≠ w) s) else Raise KeyError.

(** [word[k]] for a non-negative [k] *)
Definition str_index (word : string) (k : nat) : result Ascii.ascii :=
  match String.get k word with
  | Some c => Ok c
  | None => Raise IndexError
  end.

(** ** The puzzle structure *)

Inductive Direction : Type := ACROSS | DOWN.

(** Modelled from the spec: the class [Variable] of crossword.py is missing;
    a slot has an orientation, a starting row and column and a length, and
    its identity is by value. *)
Record Var : Type := mkVar {
  var_i : nat;
  var_j : nat;
  var_direction : Direction;
  var_length : nat
}.

Global Instance Direction_eq_dec : EqDecision Direction.
Proof. solve_decision. Defined.
Global Instance Var_eq_dec : EqDecision Var.
Proof. solve_decision. Defined.
Global Instance Direction_countable : Countable Direction.
Proof.
  refine (inj_countable' (λ d, match d with ACROSS => true | DOWN => false end)
            (λ b : bool, if b then ACROSS else DOWN) _).
  by intros [].
Defined.
Global Instance Var_countable : Countable Var.
Proof.
  refine (inj_countable'
            (λ v, (var_i v, var_j v, var_direction v, var_length v))
            (λ '(a, b, c, d), mkVar a b c d) _).
  by intros [].
Defined.

(** Modelled from the spec: the class [Crossword] of crossword.py is missing;
    generate.py reads its set of slots ([variables], here in iteration
    order), its vocabulary ([words]) and the dictionary [overlaps], keyed by
    pairs of slots, whose value is [None] or a pair of character indices. *)
Record Crossword : Type := mkCrossword {
  variables : list Var;
  words : list string;
  overlaps : list ((Var * Var) * option (nat * nat))
}.

Abbreviation loc := nat (only parsing).
Abbreviation arc := (Var * Var)%type (only parsing).
Abbreviation Assignment := (list (Var * string)) (only parsing).

(** The mutable part of a [CrosswordCreator]: [self.domains] binds a slot to
    a set OBJECT, here a location of [heap]. *)
Record CrosswordCreator : Type := mkCreator {
  domains : gmap Var loc;
  heap : list (list string)
}.

(** [sorted] on the pairs [(n, word)]: Python orders tuples by their first
    component and then by their second, strings by code point. *)
Definition pair_le (p q : nat * string) : Prop :=
  p.1 < q.1 ∨ (p.1 = q.1 ∧ String.leb p.2 q.2 = true).

Global Instance pair_le_dec : RelDecision pair_le.
Proof. intros p q. unfold pair_le. apply _. Defined.

(** [min(l)], [max(l)] and [l.index(v)] raise [ValueError] where Python does. *)
Definition list_min (l : list nat) : result nat :=
  match l with
  | [] => Raise ValueError
  | a :: l => Ok (foldl Nat.min a l)
  end.

Definition list_max (l : list nat) : result nat :=
  match l with
  | [] => Raise ValueError
  | a :: l => Ok (foldl Nat.max a l)
  end.

Fixpoint list_index (l : list nat) (v : nat) : result nat :=
  match l with
  | [] => Raise ValueError
  | a :: l => if decide (a = v) then Ok 0 else k <- list_index l v;; Ok (S k)
  end.

(** [l.count(v)] *)
Definition list_count (v : nat) (l : list nat) : nat :=
  length (filter (λ a, a = v) l).

(** [l[k]] for a non-negative [k] *)
Definition list_nth {A} (l : list A) (k : nat) : result A :=
  match l !! k with
  | Some a => Ok a
  | None => Raise IndexError
  end.

(** [[f(a) for a in l]], where [f] may raise *)
Fixpoint result_map {A B} (f : A → result B) (l : list A) : result (list B) :=
  match l with
  | [] => Ok []
  | a :: l => b <- f a;; bs <- result_map f l;; Ok (b :: bs)
  end.

(** [if res:] on the value returned by [backtrack]: [None] and the empty
    dictionary are false. *)
Definition truthy (res : option Assignment) : bool :=
  match res with
  | Some (_ :: _) => true
  | _ => false
  end.

Section Creator.
Variable cw : Crossword.

(** [self.crossword.overlaps[x, y]] *)
Definition overlap_of (x y : Var) : result (option (nat * nat)) :=
  match dict_get (overlaps cw) (x, y) with
  | Some o => Ok o
  | None => Raise KeyError
  end.

(** the dictionary [overlaps] relates [v] to [var] *)
Definition related (v var : Var) : bool :=
  match dict_get (overlaps cw) (v, var) with
  | Some (Some _) => true
  | _ => false
  end.

(** Modelled from the spec: the method [neighbors] of the missing class
    [Crossword]: given a slot, the other slots with which it has an
    overlap relation, in the iteration order of the slots. *)
Definition neighbors (var : Var) : list Var :=
  filter (λ v, v ≠ var ∧ related v var) (variables cw).

(** *** The domain store *)

(** the set object [self.domains[var]] *)
Definition domains_get (self : CrosswordCreator) (var : Var) : result loc :=
  match domains self !! var with
  | Some l => Ok l
  | None => Raise KeyError
  end.

(** the words of the set object at [l] *)
Definition deref (self : CrosswordCreator) (l : loc) : result (list string) :=
  match heap self !! l with
  | Some s => Ok s
  | None => Raise Dangling
  end.

(** the words of [self.domains[var]] *)
Definition domain (self : CrosswordCreator) (var : Var) : result (list string) :=
  l <- domains_get self var;; deref self l.

(** a new set object *)
Definition alloc (self : CrosswordCreator) (s : list string)
  : loc * CrosswordCreator :=
  (length (heap self), mkCreator (domains self) (heap self ++ [s])).

(** [self.domains[var] = <object at l>] *)
Definition domains_set (self : CrosswordCreator) (var : Var) (l : loc)
  : CrosswordCreator :=
  mkCreator (<[var := l]> (domains self)) (heap self).

(** [__init__]: every slot gets its own copy of the vocabulary. *)
Definition init : CrosswordCreator :=
  foldl (λ self var,
           let '(l, self) := alloc self (words cw) in domains_set self var l)
        (mkCreator ∅ []) (variables cw).

(** *** enforce_node_consistency *)

Definition domain_consistent_of (var : Var) (d : list string) : list string :=
  foldl (λ domain_consistent word,
           if decide (var_length var = String.length word)
           then set_add word domain_consistent
           else domain_consistent)
        [] d.

Fixpoint enforce_loop (vars : list Var) (self : CrosswordCreator)
  : result CrosswordCreator :=
  match vars with
  | [] => Ok self
  | var :: vars =>
      d <- domain self var;;
      let '(l, self) := alloc self (domain_consistent_of var d) in
      enforce_loop vars (domains_set self var l)
  end.

Definition enforce_node_consistency (self : CrosswordCreator)
  : result CrosswordCreator :=
  enforce_loop (variables cw) self.

(** *** revise *)

(** [all(word[i] != other[j] for other in others)], left to right, stopping
    at the first pair that agrees. *)
Fixpoint all_differ (word : string) (i j : nat) (others : list string)
  : result bool :=
  match others with
  | [] => Ok true
  | other :: others =>
      a <- str_index word i;;
      b <- str_index other j;;
      if decide (a ≠ b) then all_differ word i j others else Ok false
  end.

(** the first loop of [revise], over the words of [self.domains[x]] *)
Fixpoint revise_scan (self : CrosswordCreator) (y : Var) (i j : nat)
    (ws : list string) (change : bool) (to_remove : list string)
  : result (bool * list string) :=
  match ws with
  | [] => Ok (change, to_remove)
  | word :: ws =>
      dy <- domain self y;;
      b <- all_differ word i j dy;;
      if b then revise_scan self y i j ws true (set_add word to_remove)
      else revise_scan self y i j ws change to_remove
  end.

(** [self.domains[x].remove(word)]: the set object is updated in place. *)
Definition domain_remove (self : CrosswordCreator) (x : Var) (word : string)
  : result CrosswordCreator :=
  l <- domains_get self x;;
  s <- deref self l;;
  s' <- set_remove word s;;
  Ok (mkCreator (domains self) (<[l := s']> (heap self))).

Fixpoint remove_loop (self : CrosswordCreator) (x : Var) (ws : list string)
  : result CrosswordCreator :=
  match ws with
  | [] => Ok self
  | word :: ws => self <- domain_remove self x word;; remove_loop self x ws
  end.

Definition revise (self : CrosswordCreator) (x y : Var)
  : result (bool * CrosswordCreator) :=
  overlap <- overlap_of x y;;
  match overlap with
  | Some (i, j) =>
      dx <- domain self x;;
      '(change, to_remove) <- revise_scan self y i j dx false [];;
      self <- remove_loop self x to_remove;;
      Ok (change, self)
  | None => Ok (false, self)
  end.

(** *** ac3 *)

(** the default worklist: the keys of [overlaps] whose value is not [None] *)
Fixpoint all_arcs_loop (keys : list arc) : result (list arc) :=
  match keys with
  | [] => Ok []
  | key :: keys =>
      o <- overlap_of key.1 key.2;;
      arcs <- all_arcs_loop keys;;
      Ok (match o with Some _ => key :: arcs | None => arcs end)
  end.

Definition all_arcs : result (list arc) :=
  all_arcs_loop (map fst (overlaps cw)).

(** the arcs queued after a revision of [x] against [y] *)
Definition requeue (x y : Var) : list arc :=
  let neighbors := filter (λ z, z ≠ y) (neighbors x) in
  if decide (1 ≤ length neighbors)
  then map (λ neighbor, (neighbor, x)) neighbors
  else [].

Fixpoint ac3_loop (fuel : nat) (self : CrosswordCreator) (arcs : list arc)
  : result (bool * CrosswordCreator) :=
  match fuel with
  | 0 => Raise OutOfFuel
  | S fuel =>
      match arcs with
      | [] => Ok (true, self)
      | (x, y) :: arcs =>
          '(changed, self) <- revise self x y;;
          if changed then
            dx <- domain self x;;
            if decide (length dx = 0) then Ok (false, self)
            else ac3_loop fuel self (arcs ++ requeue x y)
          else ac3_loop fuel self arcs
      end
  end.

(** Every revision that changes a domain removes a word from the heap and
    queues at most one arc per slot, so this many iterations are enough
    (lemma [ac3_loop_fuel]). *)
Definition heap_size (self : CrosswordCreator) : nat :=
  sum_list (length <$> heap self).

Definition ac3_fuel (self : CrosswordCreator) (arcs : list arc) : nat :=
  S (length arcs + length (variables cw) * heap_size self).

Definition ac3 (self : CrosswordCreator) (arcs : option (list arc))
  : result (bool * CrosswordCreator) :=
  arcs <- match arcs with
          | None => all_arcs
          | Some arcs => Ok arcs
          end;;
  ac3_loop (ac3_fuel self arcs) self arcs.

(** *** assignment_complete and consistent *)

Fixpoint complete_loop (vars : list Var) (assignment : Assignment) : bool :=
  match vars with
  | [] => true
  | var :: vars =>
      if dict_mem assignment var then complete_loop vars assignment else false
  end.

Definition assignment_complete (assignment : Assignment) : bool :=
  complete_loop (variables cw) assignment.

(** the loop over the neighbours of one assigned slot; [Ok false] is the
    [return False] of the checker, [Ok true] lets the outer loop go on *)
Fixpoint consistent_neighbors (assignment : Assignment) (var : Var)
    (word : string) (nbs : list Var) : result bool :=
  match nbs with
  | [] => Ok true
  | neighbor :: nbs =>
      match dict_get assignment neighbor with
      | Some neighbor_word =>
          overlap <- overlap_of var neighbor;;
          match overlap with
          | Some (oi, oj) =>
              a <- str_index word oi;;
              b <- str_index neighbor_word oj;;
              if decide (a ≠ b) then Ok false
              else consistent_neighbors assignment var word nbs
          | None => Raise TypeError
          end
      | None => consistent_neighbors assignment var word nbs
      end
  end.

Fixpoint consistent_items (assignment : Assignment) (items : list (Var * string))
  : result bool :=
  match items with
  | [] => Ok true
  | (var, word) :: items =>
      if decide (var_length var ≠ String.length word) then Ok false
      else
        ok <- consistent_neighbors assignment var word (neighbors var);;
        if ok then consistent_items assignment items else Ok false
  end.

Definition consistent (assignment : Assignment) : result bool :=
  ok <- consistent_items assignment assignment;;
  if ok then
    if decide (length (assignment.*2) ≠ length (remove_dups (assignment.*2)))
    then Ok false
    else Ok true
  else Ok false.

(** *** order_domain_values *)

Fixpoint count_conflicts (value : string) (overlap : option (nat * nat))
    (neighbor_values : list string) (n : nat) : result nat :=
  match neighbor_values with
  | [] => Ok n
  | neighbor_value :: neighbor_values =>
      match overlap with
      | Some (oi, oj) =>
          a <- str_index value oi;;
          b <- str_index neighbor_value oj;;
          count_conflicts value overlap neighbor_values
                          (if decide (a ≠ b) then S n else n)
      | None => Raise TypeError
      end
  end.

Fixpoint count_neighbors (self : CrosswordCreator) (var : Var)
    (assignment : Assignment) (value : string) (nbs : list Var) (n : nat)
  : result nat :=
  match nbs with
  | [] => Ok n
  | neighbor :: nbs =>
      if dict_mem assignment neighbor
      then count_neighbors self var assignment value nbs n
      else
        overlap <- overlap_of var neighbor;;
        dn <- domain self neighbor;;
        n <- count_conflicts value overlap dn n;;
        count_neighbors self var assignment value nbs n
  end.

Definition order_domain_values (self : CrosswordCreator) (var : Var)
    (assignment : Assignment) : result (list string) :=
  d <- domain self var;;
  domain_values <-
    result_map (λ value,
                  count_neighbors self var assignment value (neighbors var) 0)
               d;;
  Ok ((merge_sort pair_le (zip domain_values d)).*2).

(** *** select_unassigned_variable *)

Fixpoint unassigned_stats (self : CrosswordCreator) (assignment : Assignment)
    (vs : list Var) : result (list Var * list nat * list nat) :=
  match vs with
  | [] => Ok ([], [], [])
  | var :: vs =>
      if dict_mem assignment var then unassigned_stats self assignment vs
      else
        d <- domain self var;;
        '(vars, MRV, degree) <- unassigned_stats self assignment vs;;
        Ok (var :: vars, length d :: MRV, length (neighbors var) :: degree)
  end.

Definition select_unassigned_variable (self : CrosswordCreator)
    (assignment : Assignment) : result Var :=
  '(vars, MRV, degree) <- unassigned_stats self assignment (variables cw);;
  min_val <- list_min MRV;;
  if decide (1 < list_count min_val MRV) then
    let degree_index :=
      (filter (λ ix : nat * nat, ix.2 = min_val) (imap pair MRV)).*1 in
    min_degree <- result_map (list_nth degree) degree_index;;
    m <- list_max min_degree;;
    idx <- list_index degree m;;
    list_nth vars idx
  else
    idx <- list_index MRV min_val;;
    list_nth vars idx.

(** *** backtrack and solve *)

(** [domain_old[var2] = self.domains[var2]]: the set objects themselves
    are recorded, not copies of them. *)
Fixpoint snapshot (self : CrosswordCreator) (vars : list Var)
    (domain_old : gmap Var loc) : result (gmap Var loc) :=
  match vars with
  | [] => Ok domain_old
  | var2 :: vars =>
      l <- domains_get self var2;;
      snapshot self vars (<[var2 := l]> domain_old)
  end.

(** [self.domains[var2] = domain_old[var2]] *)
Fixpoint restore (self : CrosswordCreator) (vars : list Var)
    (domain_old : gmap Var loc) : result CrosswordCreator :=
  match vars with
  | [] => Ok self
  | var2 :: vars =>
      match domain_old !! var2 with
      | Some l => restore (domains_set self var2 l) vars domain_old
      | None => Raise KeyError
      end
  end.

(** the loop of [backtrack] over the candidate words; [rec] is the
    recursive call *)
Fixpoint try_values
    (rec : CrosswordCreator → Assignment
           → result (option Assignment * CrosswordCreator))
    (self : CrosswordCreator) (assignment : Assignment) (var : Var)
    (values : list string) : result (option Assignment * CrosswordCreator) :=
  match values with
  | [] => Ok (None, self)
  | value :: values =>
      let assignment_new := dict_set assignment var value in
      ok <- consistent assignment_new;;
      if ok then
        domain_old <- snapshot self (variables cw) ∅;;
        let arcs := map (λ neighbor, (neighbor, var)) (neighbors var) in
        '(inferences, self) <- ac3 self (Some arcs);;
        if negb inferences then try_values rec self assignment var values
        else
          '(res, self) <- rec self assignment_new;;
          if truthy res then Ok (res, self)
          else
            self <- restore self (variables cw) domain_old;;
            try_values rec self assignment var values
      else try_values rec self assignment var values
  end.

Fixpoint backtrack (fuel : nat) (self : CrosswordCreator)
    (assignment : Assignment)
  : result (option Assignment * CrosswordCreator) :=
  match fuel with
  | 0 => Raise OutOfFuel
  | S fuel =>
      if assignment_complete assignment then Ok (Some assignment, self)
      else
        var <- select_unassigned_variable self assignment;;
        values <- order_domain_values self var assignment;;
        try_values (backtrack fuel) self assignment var values
  end.

(** Each recursive call assigns one more slot, so the depth never exceeds
    the number of slots (lemma [backtrack_fuel]). *)
Definition solve (self : CrosswordCreator)
  : result (option Assignment * CrosswordCreator) :=
  self <- enforce_node_consistency self;;
  '(_, self) <- ac3 self None;;
  backtrack (S (length (variables cw))) self [].

End Creator.

(** ** Rendering: letter_grid *)

Abbreviation Letters := (list (list (option Ascii.ascii))) (only parsing).

(** [letters[i][j] = c] *)
Definition letters_set (letters : Letters) (i j : nat) (c : Ascii.ascii)
  : result Letters :=
  match letters !! i with
  | Some row =>
      if decide (j < length row)
      then Ok (<[i := <[j := Some c]> row]> letters)
      else Raise IndexError
  | None => Raise IndexError
  end.

(** the loop [for k in range(len(word))] of [letter_grid], over the
    indices [ks] *)
Fixpoint place_word (letters : Letters) (variable : Var) (word : string)
    (ks : list nat) : result Letters :=
  match ks with
  | [] => Ok letters
  | k :: ks =>
      let direction := var_direction variable in
      let i := var_i variable + (if decide (direction = DOWN) then k else 0) in
      let j := var_j variable + (if decide (direction = ACROSS) then k else 0) in
      c <- str_index word k;;
      letters <- letters_set letters i j c;;
      place_word letters variable word ks
  end.

(** the loop of [letter_grid] over the items of the assignment *)
Fixpoint place_items (letters : Letters) (items : list (Var * string))
  : result Letters :=
  match items with
  | [] => Ok letters
  | (variable, word) :: items =>
      letters <- place_word letters variable word (seq 0 (String.length word));;
      place_items letters items
  end.

(** [letter_grid]. The numbers of rows and of columns of the grid, which
    the source reads as [self.crossword.height] and [self.crossword.width],
    are parameters here: the class [Crossword] is not among the source
    files. *)
Definition letter_grid (height width : nat) (assignment : Assignment)
  : result Letters :=
  place_items (replicate height (replicate width None)) assignment.

(** ** Specification vocabulary *)

(** [w[i] == v[j]], both characters being there *)
Definition agree (i j : nat) (w v : string) : bool :=
  match String.get i w, String.get j v with
  | Some a, Some b => bool_decide (a = b)
  | _, _ => false
  end.

(** [w] has a partner in [dy] across an overlap at [(i, j)] *)
Definition supported (i j : nat) (dy : list string) (w : string) : Prop :=
  Exists (λ v, agree i j w v) dy.

Global Instance supported_dec i j dy w : Decision (supported i j dy w).
Proof. unfold supported. apply _. Defined.

Definition is_Ok {A : Type} (r : result A) : Prop :=
  match r with
  | Ok _ => True
  | Raise _ => False
  end.

Global Instance is_Ok_dec {A : Type} (r : result A) : Decision (is_Ok r).
Proof. destruct r; apply _. Defined.

Definition words_fit (v : Var) (r : result (list string)) : Prop :=
  match r with
  | Ok d => Forall (λ w, String.length w = var_length v) d
  | Raise _ => True
  end.

Global Instance words_fit_dec v r : Decision (words_fit v r).
Proof. destruct r; apply _. Defined.

Section Vocabulary.
Variable cw : Crossword.

(** Geometric well-formedness, which the solver assumes of the puzzle
    structure: an overlap relates two different slots of the puzzle, its
    indices lie inside the two slots, and the relation of the pair taken
    the other way round has the indices swapped. *)
Definition wf_overlap (e : arc * option (nat * nat)) : Prop :=
  match e with
  | ((a, b), Some (i, j)) =>
      a ∈ variables cw ∧ b ∈ variables cw ∧ a ≠ b ∧
      i < var_length a ∧ j < var_length b ∧
      dict_get (overlaps cw) (b, a) = Some (Some (j, i))
  | (_, None) => True
  end.

Global Instance wf_overlap_dec e : Decision (wf_overlap e).
Proof. destruct e as [[a b] [[i j]|]]; apply _. Defined.

Definition wf_crossword : Prop := Forall wf_overlap (overlaps cw).

Global Instance wf_crossword_dec : Decision wf_crossword.
Proof. unfold wf_crossword. apply _. Defined.

(** every slot is bound to a set object *)
Definition bound (self : CrosswordCreator) : Prop :=
  Forall (λ v, is_Ok (domain self v)) (variables cw).

(** no two slots share a set object *)
Definition separated (self : CrosswordCreator) : Prop :=
  Forall (λ v1, Forall (λ v2, v1 = v2 ∨ domains self !! v1 ≠ domains self !! v2)
                       (variables cw))
         (variables cw).

Definition store_wf (self : CrosswordCreator) : Prop :=
  bound self ∧ separated self.

Global Instance store_wf_dec self : Decision (store_wf self).
Proof. unfold store_wf, bound, separated. apply _. Defined.

(** every word of a domain has the length of its slot *)
Definition node_consistent (self : CrosswordCreator) : Prop :=
  Forall (λ v, words_fit v (domain self v)) (variables cw).

Global Instance node_consistent_dec self : Decision (node_consistent self).
Proof. unfold node_consistent. apply _. Defined.

(** the store as [solve] has it when it calls [ac3] *)
Definition prepared : CrosswordCreator :=
  match enforce_node_consistency cw (init cw) with
  | Ok self => self
  | Raise _ => init cw
  end.

(** the store as [solve] has it when it calls [backtrack] *)
Definition searched : CrosswordCreator :=
  match ac3 cw prepared None with
  | Ok (_, self) => self
  | Raise _ => prepared
  end.

(** every word of the domain of [x] has a partner in the domain of every
    neighbour of [x] *)
Definition arc_consistent (self : CrosswordCreator) : Prop :=
  ∀ x y dx w,
    x ∈ variables cw → y ∈ neighbors cw x →
    domain self x = Ok dx → w ∈ dx →
    ∃ i j dy, overlap_of cw x y = Ok (Some (i, j)) ∧
              domain self y = Ok dy ∧ supported i j dy w.

(** a choice of one word per slot, each from the slot's domain, that
    agrees at every overlap *)
Definition solution (self : CrosswordCreator) (f : Var → string) : Prop :=
  (∀ v, v ∈ variables cw → ∃ d, domain self v = Ok d ∧ f v ∈ d) ∧
  (∀ x y i j, overlap_of cw x y = Ok (Some (i, j)) → agree i j (f x) (f y)).

(** the domains of [self'] hold no word that those of [self] do not *)
Definition narrows (self' self : CrosswordCreator) : Prop :=
  ∀ v d', domain self' v = Ok d' → ∃ d, domain self v = Ok d ∧ d' ⊆ d.
End Vocabulary.

(** ** The statement about the consistency checker *)

Section Checker.
Variable cw : Crossword.

(** (a) two assigned slots with an overlap relation disagree at their
    overlap indices *)
Definition overlap_conflict (assignment : list (Var * string)) : Prop :=
  ∃ x y wx wy i j,
    dict_get assignment x = Some wx ∧ dict_get assignment y = Some wy ∧
    overlap_of cw x y = Ok (Some (i, j)) ∧ ¬ agree i j wx wy.

(** (b) two assigned slots hold the identical word *)
Definition repeated_word (assignment : list (Var * string)) : Prop :=
  ∃ x y w,
    x ≠ y ∧ dict_get assignment x = Some w ∧ dict_get assignment y = Some w.

(** every assigned word has the length of its slot *)
Definition lengths_match (assignment : list (Var * string)) : Prop :=
  Forall (λ item, String.length item.2 = var_length item.1) assignment.

Global Instance lengths_match_dec assignment :
  Decision (lengths_match assignment).
Proof. unfold lengths_match. apply _. Defined.

(** the statement that two runs of [ac3] in a row leave the domains as
    one run does *)
Definition ac3_idempotent_claim (self : CrosswordCreator) : Prop :=
  ∀ b1 self1 b2 self2,
    ac3 cw self None = Ok (b1, self1) → ac3 cw self1 None = Ok (b2, self2) →
    ∀ v, v ∈ variables cw → domain self2 v = domain self1 v.

(** the characterization of the checker by (a) and (b) alone *)
Definition checker_claim (assignment : list (Var * string)) : Prop :=
  (overlap_conflict assignment ∨ repeated_word assignment →
   consistent cw assignment = Ok false) ∧
  (¬ (overlap_conflict assignment ∨ repeated_word assignment) →
   consistent cw assignment = Ok true).
End Checker.

(** ** The statement about the assignments returned *)

Section Validity.
Variable cw : Crossword.

(** every slot has a word, every word has the length of its slot, the
    words agree where two slots overlap and are all different *)
Definition complete_and_consistent (a : list (Var * string)) : Prop :=
  (∀ v, v ∈ variables cw → is_Some (dict_get a v)) ∧
  lengths_match a ∧ ¬ overlap_conflict cw a ∧ ¬ repeated_word a.

(** the statement that whatever [backtrack] returns is complete and
    consistent, whatever dictionary it is called with *)
Definition validity_claim : Prop :=
  ∀ fuel self a0 a self',
    NoDup a0.*1 →
    backtrack cw fuel self a0 = Ok (Some a, self') →
    complete_and_consistent a.
End Validity.

(** ** Vocabulary of the further properties *)

Section Further.
Variable cw : Crossword.

(** the number of words of the domain of [neighbor] that disagree with
    [value], put in [var], at the overlap of the two slots *)
Definition ruled_out_at (self : CrosswordCreator) (var : Var)
    (value : string) (neighbor : Var) : nat :=
  match overlap_of cw var neighbor, domain self neighbor with
  | Ok (Some (i, j)), Ok dn =>
      length (filter (λ nv, ¬ agree i j value nv) dn)
  | _, _ => 0
  end.

(** the number of words that [value], put in [var], rules out for the
    neighbours of [var] that have no word yet *)
Definition ruled_out (self : CrosswordCreator) (var : Var)
    (assignment : list (Var * string)) (value : string) : nat :=
  sum_list_with (ruled_out_at self var value)
    (filter (λ neighbor, dict_mem assignment neighbor = false)
            (neighbors cw var)).

(** the order of [order_domain_values]: fewer words ruled out first,
    and for the same number the smaller word by code points first *)
Definition value_le (self : CrosswordCreator) (var : Var)
    (assignment : list (Var * string)) (v1 v2 : string) : Prop :=
  ruled_out self var assignment v1 < ruled_out self var assignment v2 ∨
  (ruled_out self var assignment v1 = ruled_out self var assignment v2 ∧
   String.leb v1 v2 = true).

(** a filling of the puzzle from the vocabulary: every slot has a word
    of the vocabulary, the words have the lengths of their slots, agree
    where two slots overlap and are all different *)
Definition filling (assignment : list (Var * string)) : Prop :=
  NoDup assignment.*1 ∧
  (∀ v, v ∈ variables cw →
        ∃ w, dict_get assignment v = Some w ∧ w ∈ words cw) ∧
  lengths_match assignment ∧
  ¬ overlap_conflict cw assignment ∧ ¬ repeated_word assignment.

(** the slots without a word, in iteration order *)
Definition open_slots (assignment : list (Var * string)) : list Var :=
  filter (λ v, dict_mem assignment v = false) (variables cw).

(** the number of words left to a slot *)
Definition remaining (self : CrosswordCreator) (v : Var) : nat :=
  match domain self v with
  | Ok d => length d
  | Raise _ => 0
  end.
End Further.

Section Evaluation.
Variable cw : Crossword.

(** [revise(x, y)] finds a partner for every word of the domain of [x],
    without an exception *)
Definition checked (self : CrosswordCreator) (x y : Var) : Prop :=
  ∀ i j dx dy,
    overlap_of cw x y = Ok (Some (i, j)) →
    domain self x = Ok dx → domain self y = Ok dy →
    Forall (λ w, all_differ w i j dy = Ok false) dx.

(** an arc that is not queued is checked *)
Definition queued_or_checked (self : CrosswordCreator)
    (arcs : list arc) : Prop :=
  store_wf cw self ∧
  ∀ a b, is_Ok (overlap_of cw a b) → (a, b) ∈ arcs ∨ checked self a b.
End Evaluation.

(** the word that an assignment gives to a slot *)
Definition word_of (a : list (Var * string)) (v : Var) : string :=
  default EmptyString (dict_get a v).

(** the cell of the [k]-th letter of a word placed in the slot [v] *)
Definition cell (v : Var) (k : nat) : nat * nat :=
  match var_direction v with
  | ACROSS => (var_i v, var_j v + k)
  | DOWN => (var_i v + k, var_j v)
  end.

(** the word of the item stays inside a grid of [height] rows and [width]
    columns *)
Definition fits (height width : nat) (item : Var * string) : Prop :=
  Forall (λ k, (cell item.1 k).1 < height ∧ (cell item.1 k).2 < width)
         (seq 0 (String.length item.2)).

Global Instance fits_dec height width item : Decision (fits height width item).
Proof. unfold fits. apply _. Defined.

(** the letter that the item puts into the cell (i, j), if it covers it *)
Definition letter_at (item : Var * string) (i j : nat) : option Ascii.ascii :=
  match var_direction item.1 with
  | ACROSS =>
      if decide (i = var_i item.1 ∧ var_j item.1 ≤ j)
      then String.get (j - var_j item.1) item.2 else None
  | DOWN =>
      if decide (j = var_j item.1 ∧ var_i item.1 ≤ i)
      then String.get (i - var_i item.1) item.2 else None
  end.

(** the letter of the cell (i, j): that of the last item that covers it *)
Definition shown (assignment : list (Var * string)) (i j : nat)
  : option Ascii.ascii :=
  foldl (λ acc item,
           match letter_at item i j with
           | Some c => Some c
           | None => acc
           end)
        None assignment.

(** two items that cover one cell of the grid put the same letter there *)
Definition letters_agree (height width : nat)
    (assignment : list (Var * string)) : Prop :=
  Forall (λ i, Forall (λ j, Forall (λ item1, Forall (λ item2,
            match letter_at item1 i j, letter_at item2 i j with
            | Some c1, Some c2 => c1 = c2
            | _, _ => True
            end) assignment) assignment) (seq 0 width)) (seq 0 height).

Global Instance letters_agree_dec height width assignment :
  Decision (letters_agree height width assignment).
Proof.
  unfold letters_agree.
  apply Forall_dec. intros i. apply Forall_dec. intros j.
  apply Forall_dec. intros item1. apply Forall_dec. intros item2.
  destruct (letter_at item1 i j), (letter_at item2 i j); apply _.
Defined.

(** a grid of [height] rows of [width] cells *)
Definition shaped (height width : nat)
    (letters : list (list (option Ascii.ascii))) : Prop :=
  length <$> letters = replicate height width.

(** the cells of the letters of indices [ks] of the slot [v] lie in the
    grid *)
Definition inside (height width : nat) (v : Var) (ks : list nat) : Prop :=
  Forall (λ k, (cell v k).1 < height ∧ (cell v k).2 < width) ks.

(** [letters[i][j]], [None] out of range *)
Definition grid_at (letters : list (list (option Ascii.ascii))) (i j : nat)
  : option (option Ascii.ascii) :=
  letters !! i ≫= λ row, row !! j.

(** ** Vocabulary of the proofs *)

(** a result that is not the exhaustion of the fuel *)
Definition fuel_free {A} (r : result A) : Prop := r ≠ Raise OutOfFuel.

Section ProofVocabulary.
Variable cw : Crossword.

(** the arc (x, y) is consistent in [self] *)
Definition arc_ok (self : CrosswordCreator) (x y : Var) : Prop :=
  ∀ i j dx dy,
    overlap_of cw x y = Ok (Some (i, j)) →
    domain self x = Ok dx → domain self y = Ok dy →
    Forall (supported i j dy) dx.

(** the worklist invariant of AC-3: an arc that is not queued is
    consistent *)
Definition queued_or_ok (self : CrosswordCreator) (arcs : list arc) : Prop :=
  store_wf cw self ∧
  ∀ a b, is_Ok (overlap_of cw a b) → (a, b) ∈ arcs ∨ arc_ok self a b.

(** every arc of the worklist is a key of [overlaps] *)
Definition keyed (arcs : list arc) : Prop :=
  Forall (λ a : arc, is_Ok (overlap_of cw a.1 a.2)) arcs.

(** what the loop of [enforce_node_consistency] over [vars] has done to
    the store *)
Definition enforced (vars : list Var) (self self' : CrosswordCreator) : Prop :=
  (∀ v, v ∉ vars → domains self' !! v = domains self !! v) ∧
  (∀ l, l < length (heap self) → heap self' !! l = heap self !! l) ∧
  (∀ v, v ∈ vars →
     ∃ l d', domains self' !! v = Some l ∧ length (heap self) ≤ l ∧
             heap self' !! l = Some d' ∧
             ∀ d, domain self v = Ok d →
                  ∀ w, w ∈ d' ↔ w ∈ d ∧ String.length w = var_length v) ∧
  (∀ v1 v2, v1 ∈ vars → v2 ∈ vars → v1 ≠ v2 →
            domains self' !! v1 ≠ domains self' !! v2).

(** the conflict that the checker's loop over the neighbours looks for *)
Definition conflict_at (a : list (Var * string)) (var : Var) (word : string)
    (nbs : list Var) : Prop :=
  ∃ nb nw i j, nb ∈ nbs ∧ dict_get a nb = Some nw ∧
               overlap_of cw var nb = Ok (Some (i, j)) ∧ ¬ agree i j word nw.

(** the number of slots without a word *)
Definition unassigned (a : list (Var * string)) : nat :=
  length (filter (λ v, dict_mem a v = false) (variables cw)).

(** the invariant of the search: one set object per slot, node
    consistent *)
Definition searchable (self : CrosswordCreator) : Prop :=
  store_wf cw self ∧ node_consistent cw self.

(** complete and accepted by the checker *)
Definition valid (a : list (Var * string)) : Prop :=
  assignment_complete cw a = true ∧ consistent cw a = Ok true.
End ProofVocabulary.

(** ** Concrete puzzles *)

(** the dictionary [overlaps] as [Crossword] fills it from the geometry
    ([ov] gives the overlap of two slots): one entry per ordered pair of
    different slots, in the iteration order of the set of slots *)
Definition overlaps_of (vars : list Var) (ov : Var → Var → option (nat * nat))
  : list ((Var * Var) * option (nat * nat)) :=
  v1 ← vars; v2 ← vars; if decide (v1 = v2) then [] else [((v1, v2), ov v1 v2)].

Module Cross.
(** Two slots of three cells that cross: the first cell of the across
    slot is the second cell of the down slot. *)
Definition across : Var := mkVar 1 0 ACROSS 3.
Definition down : Var := mkVar 0 0 DOWN 3.

Definition ov (a b : Var) : option (nat * nat) :=
  if decide ((a, b) = (across, down)) then Some (0, 1)
  else if decide ((a, b) = (down, across)) then Some (1, 0)
  else None.

Definition puzzle (vocabulary : list string) : Crossword :=
  mkCrossword [across; down] vocabulary (overlaps_of [across; down] ov).
End Cross.

Module Corner.
(** An across slot of three cells and a down slot of four that share
    their first cell, and a separate across slot of four cells; the slots
    are iterated in this order. *)
Definition top : Var := mkVar 0 0 ACROSS 3.
Definition left : Var := mkVar 0 0 DOWN 4.
Definition apart : Var := mkVar 5 2 ACROSS 4.

Definition ov (a b : Var) : option (nat * nat) :=
  if decide ((a, b) = (top, left)) then Some (0, 0)
  else if decide ((a, b) = (left, top)) then Some (0, 0)
  else None.

Definition puzzle : Crossword :=
  mkCrossword [top; left; apart]
              ["CAT"; "COW"; "CUB"; "CALM"; "COLD"]%string
              (overlaps_of [top; left; apart] ov).
End Corner.

Module Pairs.
(** Two pairs of crossing slots: [across] and [down] as in [Cross], and
    further right an across slot of five cells and a down slot of four
    that share their first cell. The vocabulary has no word of four
    letters. The slots are iterated in the order given. *)
Definition across : Var := mkVar 1 0 ACROSS 3.
Definition down : Var := mkVar 0 0 DOWN 3.
Definition long : Var := mkVar 4 4 ACROSS 5.
Definition tall : Var := mkVar 4 4 DOWN 4.

Definition ov (a b : Var) : option (nat * nat) :=
  if decide ((a, b) = (across, down)) then Some (0, 1)
  else if decide ((a, b) = (down, across)) then Some (1, 0)
  else if decide ((a, b) = (long, tall)) then Some (0, 0)
  else if decide ((a, b) = (tall, long)) then Some (0, 0)
  else None.

Definition puzzle : Crossword :=
  mkCrossword [across; long; tall; down]
              ["ABC"; "BAD"; "XYZ"; "HELLO"]%string
              (overlaps_of [across; long; tall; down] ov).
End Pairs.

(** * Properties *)

(** ** The error monad *)

Lemma bind_Ok {A B : Type} (m : result A) (f : A → result B) (b : B) :
  bind m f = Ok b ↔ ∃ a, m = Ok a ∧ f a = Ok b.
Proof.
  destruct m as [a|e]; simpl; split.
  - eauto.
  - by intros (? & [= ->] & ?).
  - done.
  - by intros (? & [=] & _).
Qed.

(** [inv_bind H] splits a hypothesis [x <- m;; k = Ok b] into the two runs. *)
Ltac inv_bind H :=
  let a := fresh "a" in
  let E := fresh "E" in
  apply bind_Ok in H as (a & E & H).

(** ** Dictionaries *)

Section dict_facts.
Context {K V : Type} `{EqDecision K}.
Implicit Types (d : list (K * V)) (k : K) (v : V).

Lemma dict_get_elem_of d k v : dict_get d k = Some v → (k, v) ∈ d.
Proof.
  induction d as [|[k' v'] d IH]; simpl; [done|].
  case_decide as Hk; [intros [= ->]; subst; left | right; auto].
Qed.

Lemma dict_get_set d k v k' :
  dict_get (dict_set d k v) k' = if decide (k = k') then Some v else dict_get d k'.
Proof.
  induction d as [|[k0 v0] d IH]; simpl.
  - by repeat case_decide.
  - destruct (decide (k0 = k)) as [->|Hne]; simpl.
    + by repeat case_decide.
    + rewrite IH. repeat case_decide; congruence.
Qed.

Lemma dict_mem_true d k : dict_mem d k = true ↔ is_Some (dict_get d k).
Proof. unfold dict_mem. apply bool_decide_eq_true. Qed.

Lemma dict_mem_false d k : dict_mem d k = false ↔ dict_get d k = None.
Proof.
  unfold dict_mem. rewrite bool_decide_eq_false, <- eq_None_not_Some. done.
Qed.

Lemma dict_get_None d k : dict_get d k = None ↔ k ∉ d.*1.
Proof.
  induction d as [|[k' v'] d IH]; simpl.
  - split; [intros _; apply not_elem_of_nil | done].
  - rewrite not_elem_of_cons, <- IH. case_decide as Hk.
    + split; [done | by intros [? _]].
    + split; [by intros ?; split; [congruence|] | by intros [_ ?]].
Qed.
End dict_facts.

(** ** Agreement at an overlap *)

Lemma agree_sym i j w v : agree i j w v = agree j i v w.
Proof.
  unfold agree. destruct (String.get i w), (String.get j v); try done.
  apply bool_decide_ext. naive_solver.
Qed.

Lemma str_index_Ok w k c : str_index w k = Ok c ↔ String.get k w = Some c.
Proof. unfold str_index. destruct (String.get k w); naive_solver. Qed.

Lemma string_get_lt (w : string) (k : nat) :
  k < String.length w → is_Some (String.get k w).
Proof.
  revert k. induction w as [|a w IH]; simpl; intros k Hk; [lia|].
  destruct k as [|k]; [eauto|]. apply IH. lia.
Qed.

Lemma str_index_total w k : k < String.length w → ∃ c, str_index w k = Ok c.
Proof.
  intros [c Hc]%string_get_lt. exists c. by apply str_index_Ok.
Qed.

Lemma all_differ_spec w i j dy b :
  all_differ w i j dy = Ok b → b = bool_decide (¬ supported i j dy w).
Proof.
  unfold supported. revert b. induction dy as [|v dy IH]; simpl; intros b H.
  - by injection H as <-.
  - inv_bind H. inv_bind H.
    apply str_index_Ok in E, E0.
    assert (Hag : agree i j w v = bool_decide (a = a0)).
    { unfold agree. by rewrite E, E0. }
    case_decide as Hne.
    + rewrite (IH _ H). apply bool_decide_ext. rewrite Exists_cons, Hag.
      rewrite bool_decide_spec. tauto.
    + injection H as <-. symmetry. apply bool_decide_eq_false_2.
      intros Hn. apply Hn. left. rewrite Hag. apply bool_decide_spec.
      by destruct (decide (a = a0)).
Qed.

Lemma all_differ_total w i j dy :
  i < String.length w → Forall (λ v, j < String.length v) dy →
  ∃ b, all_differ w i j dy = Ok b.
Proof.
  intros Hi. induction 1 as [|v dy Hv _ IH]; simpl; [eauto|].
  destruct (str_index_total w i Hi) as [a ->].
  destruct (str_index_total v j Hv) as [c ->]. simpl.
  case_decide; eauto.
Qed.

(** ** Sets of words *)

Lemma elem_of_set_add w' w s : w' ∈ set_add w s ↔ w' = w ∨ w' ∈ s.
Proof.
  unfold set_add. case_decide as Hin.
  - split; [auto | by intros [->|?]].
  - rewrite elem_of_app, list_elem_of_singleton. tauto.
Qed.

Lemma set_add_not_nil w s : set_add w s ≠ [].
Proof.
  unfold set_add. case_decide as Hin.
  - intros ->. by apply not_elem_of_nil in Hin.
  - by destruct s.
Qed.

Lemma set_remove_Ok w s s' :
  set_remove w s = Ok s' ↔ w ∈ s ∧ s' = filter (λ v, v ≠ w) s.
Proof.
  unfold set_remove. case_decide as Hw.
  - split; [by intros [= <-] | by intros [_ ->]].
  - split; [done | by intros [? _]].
Qed.

Lemma filter_ext_elem {A} (P Q : A → Prop) `{!∀ x, Decision (P x)}
    `{!∀ x, Decision (Q x)} (l : list A) :
  (∀ x, x ∈ l → P x ↔ Q x) → filter P l = filter Q l.
Proof.
  induction l as [|a l IH]; intros HPQ; [done|].
  rewrite !filter_cons, IH by (intros; apply HPQ; by right).
  pose proof (HPQ a (list_elem_of_here _ _)) as Ha.
  destruct (decide (P a)), (decide (Q a)); tauto || done.
Qed.

Lemma filter_id_elem {A} (P : A → Prop) `{!∀ x, Decision (P x)} (l : list A) :
  (∀ x, x ∈ l → P x) → filter P l = l.
Proof.
  induction l as [|a l IH]; intros HP; [done|].
  rewrite filter_cons, decide_True by (apply HP; by left).
  f_equal. apply IH. intros; apply HP; by right.
Qed.

(** ** The domain store *)

Lemma domains_get_Ok self v l :
  domains_get self v = Ok l ↔ domains self !! v = Some l.
Proof.
  unfold domains_get. destruct (domains self !! v); split; congruence.
Qed.

Lemma deref_Ok self l d : deref self l = Ok d ↔ heap self !! l = Some d.
Proof. unfold deref. destruct (heap self !! l); split; congruence. Qed.

Lemma domain_Ok self v d :
  domain self v = Ok d ↔
  ∃ l, domains self !! v = Some l ∧ heap self !! l = Some d.
Proof.
  unfold domain. rewrite bind_Ok. setoid_rewrite domains_get_Ok.
  by setoid_rewrite deref_Ok.
Qed.

Lemma heap_size_insert (h : list (list string)) l s s' :
  h !! l = Some s →
  sum_list (length <$> <[l := s']> h) + length s
  = sum_list (length <$> h) + length s'.
Proof.
  revert l. induction h as [|c h IH]; intros [|l] H; simplify_eq/=; [lia|].
  specialize (IH _ H). lia.
Qed.

Lemma domain_remove_Ok self x w self' :
  domain_remove self x w = Ok self' ↔
  ∃ l s, domains self !! x = Some l ∧ heap self !! l = Some s ∧ w ∈ s ∧
         self' = mkCreator (domains self)
                           (<[l := filter (λ v, v ≠ w) s]> (heap self)).
Proof.
  unfold domain_remove. split.
  - intros H. inv_bind H. inv_bind H. inv_bind H.
    apply domains_get_Ok in E. apply deref_Ok in E0.
    apply set_remove_Ok in E1 as [? ->]. injection H as <-. eauto 10.
  - intros (l & s & Hl & Hs & Hw & ->).
    apply domains_get_Ok in Hl. apply deref_Ok in Hs. rewrite Hl. simpl.
    rewrite Hs. simpl. unfold set_remove. by rewrite decide_True.
Qed.

Lemma remove_loop_spec ws self self' x lx s :
  domains self !! x = Some lx → heap self !! lx = Some s →
  remove_loop self x ws = Ok self' →
  self' = mkCreator (domains self)
                    (<[lx := filter (λ w, w ∉ ws) s]> (heap self)).
Proof.
  revert self s. induction ws as [|w ws IH]; simpl; intros self s Hx Hs H.
  - injection H as <-. destruct self as [dm hp]. f_equal.
    symmetry. apply list_insert_id. etrans; [exact Hs|]. f_equal.
    symmetry. apply filter_id_elem. intros ? _. apply not_elem_of_nil.
  - inv_bind H. apply domain_remove_Ok in E as (l & s0 & Hl & Hs0 & Hw & ->).
    simplify_eq.
    eapply IH in H; simpl; [|done|].
    2:{ apply list_lookup_insert_eq. by eapply lookup_lt_Some. }
    rewrite H. simpl. f_equal. rewrite list_insert_insert_eq. f_equal.
    rewrite list_filter_filter. apply list_filter_iff. intros v.
    rewrite not_elem_of_cons. tauto.
Qed.

Lemma remove_loop_total ws self x lx s :
  domains self !! x = Some lx → heap self !! lx = Some s →
  NoDup ws → ws ⊆ s →
  ∃ self', remove_loop self x ws = Ok self'.
Proof.
  revert self s. induction ws as [|w ws IH]; simpl; intros self s Hx Hs Hnd Hsub.
  - eauto.
  - apply NoDup_cons in Hnd as [Hw Hnd].
    assert (Hrm : domain_remove self x w = Ok
              (mkCreator (domains self)
                 (<[lx := filter (λ v, v ≠ w) s]> (heap self)))).
    { apply domain_remove_Ok. exists lx, s. repeat split; try done.
      apply Hsub. by left. }
    rewrite Hrm. simpl. eapply IH; simpl; [done| |done|].
    + apply list_lookup_insert_eq. by eapply lookup_lt_Some.
    + intros v Hv. apply list_elem_of_filter. split.
      * intros ->. done.
      * apply Hsub. by right.
Qed.

(** ** revise *)

Lemma revise_scan_shape self y i j ws ch rm ch' rm' :
  revise_scan self y i j ws ch rm = Ok (ch', rm') →
  (ch = true ↔ rm ≠ []) →
  (ch' = true ↔ rm' ≠ []) ∧ (∀ w, w ∈ rm' → w ∈ rm ∨ w ∈ ws) ∧
  (NoDup rm → NoDup rm').
Proof.
  revert ch rm. induction ws as [|w ws IH]; simpl; intros ch rm H Hch.
  - injection H as <- <-. split; [done|]. split; auto.
  - inv_bind H. inv_bind H. destruct a0.
    + apply IH in H as (? & Hsub & Hnd).
      2:{ split; [intros _; apply set_add_not_nil | done]. }
      split; [done|]. split.
      * intros v [[->|?]%elem_of_set_add|?]%Hsub;
          auto using list_elem_of_here, list_elem_of_further.
      * intros Hrm. apply Hnd. unfold set_add. case_decide; [done|].
        apply NoDup_app. split; [done|]. split; [|apply NoDup_singleton].
        intros v Hv ->%list_elem_of_singleton. done.
    + apply IH in H as (? & Hsub & Hnd); [|done].
      split; [done|]. split; [|done].
      intros v [?|?]%Hsub; auto using list_elem_of_further.
Qed.

Lemma revise_scan_spec self y i j dy ws ch rm ch' rm' :
  domain self y = Ok dy →
  revise_scan self y i j ws ch rm = Ok (ch', rm') →
  ∀ w, w ∈ rm' ↔ w ∈ rm ∨ (w ∈ ws ∧ ¬ supported i j dy w).
Proof.
  intros Hy. revert ch rm. induction ws as [|w ws IH]; simpl; intros ch rm H v.
  - injection H as <- <-. rewrite elem_of_nil. tauto.
  - rewrite Hy in H. simpl in H. inv_bind H.
    apply all_differ_spec in E. subst a. rewrite elem_of_cons.
    case_bool_decide as Hs.
    + rewrite (IH _ _ H), elem_of_set_add. split.
      * intros [[->|?]|[? ?]]; auto.
      * intros [?|[[->|?] ?]]; auto.
    + rewrite (IH _ _ H). split.
      * intros [?|[? ?]]; auto.
      * intros [?|[[->|?] ?]]; auto. done.
Qed.

Lemma revise_scan_total self y i j dy ws ch rm :
  domain self y = Ok dy →
  Forall (λ w, i < String.length w) ws →
  Forall (λ v, j < String.length v) dy →
  ∃ r, revise_scan self y i j ws ch rm = Ok r.
Proof.
  intros Hy Hws Hdy. revert ch rm.
  induction Hws as [|w ws Hw _ IH]; simpl; intros ch rm; [eauto|].
  rewrite Hy. simpl.
  destruct (all_differ_total w i j dy Hw Hdy) as [b ->]. simpl.
  destruct b; apply IH.
Qed.

(** What a call of [revise] can do to the store, whatever the domains hold:
    nothing, or the removal of a non-empty set of words from the set object
    of [x]. *)
Lemma revise_shape cw self x y b self' :
  revise cw self x y = Ok (b, self') →
  (b = false ∧ self' = self) ∨
  (b = true ∧ ∃ lx dx rm, domains self !! x = Some lx ∧ heap self !! lx = Some dx
     ∧ rm ≠ [] ∧ rm ⊆ dx
     ∧ self' = mkCreator (domains self)
                         (<[lx := filter (λ w, w ∉ rm) dx]> (heap self))).
Proof.
  unfold revise. intros H. inv_bind H. destruct a as [[i j]|].
  2:{ injection H as <- <-. by left. }
  inv_bind H. inv_bind H. destruct a0 as [change to_remove].
  inv_bind H. injection H as <- <-.
  apply domain_Ok in E0 as (lx & Hlx & Hdx).
  apply revise_scan_shape in E1 as (Hch & Hsub & _); [|done].
  eapply remove_loop_spec in E2; [|done..].
  destruct change.
  - right. split; [done|]. exists lx, a, to_remove.
    repeat split; try done.
    + by apply Hch.
    + intros w [Hw|?]%Hsub; [by apply elem_of_nil in Hw | done].
  - left. split; [done|].
    assert (to_remove = []) as ->.
    { destruct to_remove; [done|]. by destruct Hch as [_ ?%symmetry]. }
    rewrite E2. destruct self as [dm hp]. f_equal.
    apply list_insert_id. etrans; [exact Hdx|]. f_equal.
    symmetry. apply filter_id_elem. intros ? _. apply not_elem_of_nil.
Qed.

(** The exact effect of [revise] across an overlap. *)
Lemma revise_spec cw self x y i j lx dx dy b self' :
  overlap_of cw x y = Ok (Some (i, j)) →
  domains self !! x = Some lx → heap self !! lx = Some dx →
  domain self y = Ok dy →
  revise cw self x y = Ok (b, self') →
  self' = mkCreator (domains self)
                    (<[lx := filter (supported i j dy) dx]> (heap self))
  ∧ b = bool_decide (Exists (λ w, ¬ supported i j dy w) dx).
Proof.
  unfold revise. intros Ho Hlx Hdx Hdy H. rewrite Ho in H. simpl in H.
  assert (Hx : domain self x = Ok dx) by (apply domain_Ok; eauto).
  rewrite Hx in H. simpl in H. inv_bind H. destruct a as [change to_remove].
  inv_bind H. injection H as <- <-.
  pose proof (revise_scan_spec _ _ _ _ _ _ _ _ _ _ Hdy E) as Hrm.
  apply revise_scan_shape in E as (Hch & _ & _); [|done].
  eapply remove_loop_spec in E0; [|done..].
  split.
  - rewrite E0. do 2 f_equal. apply filter_ext_elem. intros w Hw.
    rewrite Hrm, elem_of_nil.
    destruct (decide (supported i j dy w)); tauto.
  - symmetry. destruct change.
    + apply bool_decide_eq_true_2. destruct Hch as [Hch _].
      specialize (Hch eq_refl). destruct to_remove as [|w ?]; [done|].
      apply Exists_exists. exists w.
      destruct (Hrm w) as [[Hn|?] _]; [by left| |done].
      by apply elem_of_nil in Hn.
    + apply bool_decide_eq_false_2. intros (w & Hw & Hns)%Exists_exists.
      destruct Hch as [_ Hch]. enough (true = false) by done.
      symmetry. apply Hch. intros ->.
      eapply elem_of_nil, Hrm. eauto.
Qed.

Lemma revise_total cw self x y i j lx dx dy :
  overlap_of cw x y = Ok (Some (i, j)) →
  domains self !! x = Some lx → heap self !! lx = Some dx →
  domain self y = Ok dy →
  Forall (λ w, i < String.length w) dx →
  Forall (λ v, j < String.length v) dy →
  ∃ r, revise cw self x y = Ok r.
Proof.
  unfold revise. intros Ho Hlx Hdx Hdy Hi Hj. rewrite Ho. simpl.
  assert (Hx : domain self x = Ok dx) by (apply domain_Ok; eauto).
  rewrite Hx. simpl.
  destruct (revise_scan_total self y i j dy dx false [] Hdy Hi Hj)
    as [[change to_remove] Hscan].
  rewrite Hscan. simpl.
  apply revise_scan_shape in Hscan as (_ & Hsub & Hnd); [|done].
  destruct (remove_loop_total to_remove self x lx dx) as [self' ->]; try done.
  - apply Hnd, NoDup_nil_2.
  - intros w [Hw|?]%Hsub; [by apply elem_of_nil in Hw | done].
  - simpl. eauto.
Qed.

(** ** The puzzle structure *)

Section structure.
Variable cw : Crossword.

Lemma overlap_of_Ok x y o :
  overlap_of cw x y = Ok o ↔ dict_get (overlaps cw) (x, y) = Some o.
Proof.
  unfold overlap_of. destruct (dict_get _ _); split; congruence.
Qed.

Lemma related_true z x :
  related cw z x = true ↔ ∃ o, overlap_of cw z x = Ok (Some o).
Proof.
  setoid_rewrite overlap_of_Ok. unfold related.
  destruct (dict_get _ _) as [[o|]|]; split; try done; eauto.
  all: by intros [? ?].
Qed.

Lemma elem_of_neighbors z x :
  z ∈ neighbors cw x ↔
  z ∈ variables cw ∧ z ≠ x ∧ ∃ o, overlap_of cw z x = Ok (Some o).
Proof.
  unfold neighbors. rewrite list_elem_of_filter, <- related_true.
  rewrite Is_true_true. tauto.
Qed.

Lemma requeue_length x y : length (requeue cw x y) ≤ length (variables cw).
Proof.
  unfold requeue. case_decide; simpl; [|lia].
  rewrite length_map. etrans; [apply length_filter|]. apply length_filter.
Qed.

Lemma elem_of_requeue a x y :
  a ∈ requeue cw x y ↔ ∃ z, a = (z, x) ∧ z ∈ neighbors cw x ∧ z ≠ y.
Proof.
  unfold requeue. case_decide as Hlen.
  - rewrite list_elem_of_fmap. split.
    + intros (z & -> & [? ?]%list_elem_of_filter). eauto.
    + intros (z & -> & ? & ?). exists z. split; [done|].
      by apply list_elem_of_filter.
  - split; [by intros ?%elem_of_nil|]. intros (z & -> & Hz & Hzy).
    exfalso. apply Hlen.
    assert (Hin : z ∈ filter (λ z, z ≠ y) (neighbors cw x))
      by by apply list_elem_of_filter.
    destruct (filter _ _); [by apply elem_of_nil in Hin | simpl; lia].
Qed.

Lemma all_arcs_loop_spec keys :
  keys ⊆ (overlaps cw).*1 →
  ∃ arcs, all_arcs_loop cw keys = Ok arcs ∧
          ∀ a, a ∈ arcs ↔ a ∈ keys ∧ ∃ o, overlap_of cw a.1 a.2 = Ok (Some o).
Proof.
  induction keys as [|[x y] keys IH]; simpl; intros Hsub.
  - exists []. split; [done|]. intros a. rewrite !elem_of_nil. tauto.
  - destruct IH as (arcs & -> & Harcs).
    { intros a Ha. apply Hsub. by right. }
    destruct (dict_get (overlaps cw) (x, y)) as [o|] eqn:Hxy.
    2:{ apply dict_get_None in Hxy. destruct Hxy. apply Hsub. by left. }
    apply overlap_of_Ok in Hxy. rewrite Hxy. simpl.
    eexists; split; [done|]. intros [a1 a2]. simpl.
    destruct o as [o|].
    + rewrite !elem_of_cons, Harcs. simpl. split.
      * intros [[= -> ->]|[? ?]]; eauto.
      * intros [[[= -> ->]|?] ?]; eauto.
    + rewrite elem_of_cons, Harcs. simpl. split.
      * intros [? ?]; eauto.
      * intros [[[= -> ->]|?] [o Ho]]; [congruence | eauto].
Qed.

Lemma all_arcs_spec :
  ∃ arcs, all_arcs cw = Ok arcs ∧
          ∀ x y, (x, y) ∈ arcs ↔ ∃ o, overlap_of cw x y = Ok (Some o).
Proof.
  destruct (all_arcs_loop_spec ((overlaps cw).*1)) as (arcs & H & Harcs);
    [done|].
  exists arcs. split; [done|]. intros x y. rewrite Harcs. simpl.
  split; [by intros [_ ?]|]. intros [o Ho]. split; [|eauto].
  apply overlap_of_Ok, dict_get_elem_of in Ho.
  apply list_elem_of_fmap. by exists ((x, y), Some o).
Qed.

Section wf.
Hypothesis Hwf : wf_crossword cw.

Lemma wf_overlap_of a b i j :
  overlap_of cw a b = Ok (Some (i, j)) →
  a ∈ variables cw ∧ b ∈ variables cw ∧ a ≠ b ∧
  i < var_length a ∧ j < var_length b ∧
  overlap_of cw b a = Ok (Some (j, i)).
Proof.
  intros H%overlap_of_Ok%dict_get_elem_of.
  unfold wf_crossword in Hwf. rewrite Forall_forall in Hwf.
  apply Hwf in H. simpl in H. rewrite overlap_of_Ok. tauto.
Qed.

Lemma neighbors_sym x y :
  x ∈ variables cw → y ∈ neighbors cw x →
  ∃ i j, overlap_of cw x y = Ok (Some (i, j)) ∧ x ∈ neighbors cw y.
Proof.
  intros Hx (Hy & Hne & [[j i] Ho])%elem_of_neighbors.
  apply wf_overlap_of in Ho as Ho'.
  destruct Ho' as (_ & _ & _ & _ & _ & Ho').
  exists i, j. split; [done|]. apply elem_of_neighbors. eauto.
Qed.
End wf.
End structure.

(** ** Well-formed stores *)

Section store.
Variable cw : Crossword.

Lemma is_Ok_exists {A} (r : result A) : is_Ok r ↔ ∃ a, r = Ok a.
Proof. destruct r; simpl; split; try done; eauto. by intros [? [=]]. Qed.

Lemma bound_domain self v :
  bound cw self → v ∈ variables cw → ∃ d, domain self v = Ok d.
Proof.
  unfold bound. rewrite Forall_forall. intros H Hv.
  by apply is_Ok_exists, H.
Qed.

Lemma separated_ne self v1 v2 :
  separated cw self → v1 ∈ variables cw → v2 ∈ variables cw → v1 ≠ v2 →
  domains self !! v1 ≠ domains self !! v2.
Proof.
  unfold separated. rewrite Forall_forall. intros H H1 H2 Hne.
  specialize (H _ H1). rewrite Forall_forall in H.
  by destruct (H _ H2).
Qed.

Lemma node_consistent_length self v d w :
  node_consistent cw self → v ∈ variables cw → domain self v = Ok d →
  w ∈ d → String.length w = var_length v.
Proof.
  unfold node_consistent. rewrite Forall_forall. intros H Hv Hd Hw.
  specialize (H _ Hv). unfold words_fit in H.
  rewrite Hd, Forall_forall in H. auto.
Qed.

(** The store after the set object of [x] has been narrowed. *)
Lemma narrowed_domain_eq self x lx dx d' :
  domains self !! x = Some lx → heap self !! lx = Some dx →
  domain (mkCreator (domains self) (<[lx := d']> (heap self))) x = Ok d'.
Proof.
  intros Hlx Hdx. apply domain_Ok. exists lx. split; [done|]. simpl.
  apply list_lookup_insert_eq. by eapply lookup_lt_Some.
Qed.

Lemma narrowed_domain_ne self x lx d' z :
  separated cw self → x ∈ variables cw → z ∈ variables cw → z ≠ x →
  domains self !! x = Some lx →
  domain (mkCreator (domains self) (<[lx := d']> (heap self))) z
  = domain self z.
Proof.
  intros Hsep Hx Hz Hne Hlx.
  pose proof (separated_ne _ _ _ Hsep Hz Hx Hne) as Hl.
  unfold domain, domains_get, deref. simpl.
  destruct (domains self !! z) as [lz|]; simpl; [|done].
  rewrite list_lookup_insert_ne; [done|]. congruence.
Qed.

Lemma narrowed_store_wf self lx d' :
  store_wf cw self →
  store_wf cw (mkCreator (domains self) (<[lx := d']> (heap self))).
Proof.
  intros [Hb Hs]. split; [|done].
  unfold bound in *. rewrite Forall_forall in *. intros v Hv.
  apply Hb in Hv. apply is_Ok_exists in Hv as [d Hd].
  apply domain_Ok in Hd as (l & Hl & Hd). apply is_Ok_exists.
  destruct (decide (lx = l)) as [->|Hne].
  - exists d'. apply domain_Ok. exists l. split; [done|]. simpl.
    apply list_lookup_insert_eq. by eapply lookup_lt_Some.
  - exists d. apply domain_Ok. exists l. split; [done|]. simpl.
    by rewrite list_lookup_insert_ne.
Qed.

Lemma narrowed_narrows self lx dx d' :
  heap self !! lx = Some dx → d' ⊆ dx →
  narrows (mkCreator (domains self) (<[lx := d']> (heap self))) self.
Proof.
  intros Hdx Hsub v d (l & Hl & Hd)%domain_Ok. simpl in *.
  destruct (decide (lx = l)) as [->|Hne].
  - rewrite list_lookup_insert_eq in Hd by by eapply lookup_lt_Some.
    injection Hd as <-. exists dx. split; [|done]. apply domain_Ok. eauto.
  - rewrite list_lookup_insert_ne in Hd by done.
    exists d. split; [|done]. apply domain_Ok. eauto.
Qed.

Lemma narrows_refl self : narrows self self.
Proof. intros v d Hd. eauto. Qed.

Lemma narrows_trans s3 s2 s1 : narrows s3 s2 → narrows s2 s1 → narrows s3 s1.
Proof.
  intros H32 H21 v d3 (d2 & Hd2 & Hs32)%H32.
  apply H21 in Hd2 as (d1 & Hd1 & Hs21). exists d1. split; [done|].
  by etrans.
Qed.

Lemma narrows_node_consistent self' self :
  narrows self' self → node_consistent cw self → node_consistent cw self'.
Proof.
  unfold node_consistent. rewrite !Forall_forall. intros Hn Hnc v Hv.
  unfold words_fit. destruct (domain self' v) as [d'|] eqn:Hd'; [|done].
  apply Hn in Hd' as (d & Hd & Hsub). specialize (Hnc _ Hv).
  unfold words_fit in Hnc. rewrite Hd in Hnc. rewrite Forall_forall in *.
  auto.
Qed.
End store.

(** ** revise on a well-formed store *)

Section revise_wf.
Variable cw : Crossword.
Hypothesis Hwf : wf_crossword cw.

Lemma revise_no_overlap self x y :
  overlap_of cw x y = Ok None → revise cw self x y = Ok (false, self).
Proof. unfold revise. by intros ->. Qed.

Lemma revise_unchanged self x y self' :
  revise cw self x y = Ok (false, self') → self' = self.
Proof. by intros [[_ ->]|[[=] _]]%revise_shape. Qed.

Lemma revise_overlap self x y i j b self' :
  store_wf cw self →
  overlap_of cw x y = Ok (Some (i, j)) →
  revise cw self x y = Ok (b, self') →
  ∃ dx dy,
    domain self x = Ok dx ∧ domain self y = Ok dy ∧
    domain self' x = Ok (filter (supported i j dy) dx) ∧
    (∀ z, z ∈ variables cw → z ≠ x → domain self' z = domain self z) ∧
    b = bool_decide (Exists (λ w, ¬ supported i j dy w) dx) ∧
    store_wf cw self'.
Proof.
  intros [Hb Hs] Ho H.
  destruct (wf_overlap_of cw Hwf _ _ _ _ Ho) as (Hx & Hy & Hxy & _).
  destruct (bound_domain cw _ _ Hb Hx) as [dx Hdx].
  destruct (bound_domain cw _ _ Hb Hy) as [dy Hdy].
  pose proof Hdx as (lx & Hlx & Hhx)%domain_Ok.
  destruct (revise_spec cw _ _ _ _ _ _ _ _ _ _ Ho Hlx Hhx Hdy H) as [-> ->].
  exists dx, dy. split; [done|]. split; [done|]. split.
  { exact (narrowed_domain_eq _ _ _ _ _ Hlx Hhx). }
  split.
  { intros z Hz Hzx. by apply (narrowed_domain_ne cw self x). }
  split; [done|]. by apply narrowed_store_wf.
Qed.

Lemma revise_narrows self x y b self' :
  revise cw self x y = Ok (b, self') → narrows self' self.
Proof.
  intros [[_ ->]|[_ (lx & dx & rm & _ & Hdx & _ & _ & ->)]]%revise_shape.
  - apply narrows_refl.
  - eapply narrowed_narrows; [done|]. apply list_subseteq_filter.
Qed.

Lemma revise_heap_size self x y self' :
  revise cw self x y = Ok (true, self') → heap_size self' < heap_size self.
Proof.
  intros [[[=] _]|[_ (lx & dx & rm & _ & Hdx & Hrm & Hsub & ->)]]%revise_shape.
  unfold heap_size. cbn [heap].
  pose proof (heap_size_insert _ _ _ (filter (λ w, w ∉ rm) dx) Hdx) as Hsz.
  assert (length (filter (λ w, w ∉ rm) dx) < length dx); [|lia].
  destruct rm as [|w rm]; [done|].
  apply (length_filter_lt _ _ w).
  - apply Hsub. by left.
  - intros Hn. apply Hn. by left.
Qed.

Lemma revise_store_wf self x y b self' :
  store_wf cw self → revise cw self x y = Ok (b, self') → store_wf cw self'.
Proof.
  intros Hst [[_ ->]|[_ (lx & dx & rm & _ & _ & _ & _ & ->)]]%revise_shape;
    [done|]. by apply narrowed_store_wf.
Qed.

Lemma revise_wf_total self x y :
  store_wf cw self → node_consistent cw self →
  is_Ok (overlap_of cw x y) → ∃ r, revise cw self x y = Ok r.
Proof.
  intros [Hb Hs] Hnc [[[i j]|] Ho]%is_Ok_exists.
  2:{ rewrite revise_no_overlap by done. eauto. }
  destruct (wf_overlap_of cw Hwf _ _ _ _ Ho) as (Hx & Hy & Hxy & Hi & Hj & _).
  destruct (bound_domain cw _ _ Hb Hx) as [dx Hdx].
  destruct (bound_domain cw _ _ Hb Hy) as [dy Hdy].
  pose proof Hdx as (lx & Hlx & Hhx)%domain_Ok.
  eapply revise_total; try done.
  - apply Forall_forall. intros w Hw.
    by rewrite (node_consistent_length cw _ _ _ _ Hnc Hx Hdx Hw).
  - apply Forall_forall. intros w Hw.
    by rewrite (node_consistent_length cw _ _ _ _ Hnc Hy Hdy Hw).
Qed.
End revise_wf.

(** ** The worklist loop *)

Section ac3_loop.
Variable cw : Crossword.

(** An invariant of the loop holds of the store it returns; when the loop
    reports failure, it does so right after a revision that emptied the
    domain of the revised slot. *)
Lemma ac3_loop_inv (I : CrosswordCreator → list arc → Prop) :
  (∀ self x y arcs,
      I self ((x, y) :: arcs) → revise cw self x y = Ok (false, self) →
      I self arcs) →
  (∀ self x y arcs self',
      I self ((x, y) :: arcs) → revise cw self x y = Ok (true, self') →
      I self' (arcs ++ requeue cw x y)) →
  ∀ fuel self arcs b self',
    I self arcs → ac3_loop cw fuel self arcs = Ok (b, self') →
    if b then I self' []
    else ∃ s0 x y arcs0,
        I s0 ((x, y) :: arcs0) ∧ revise cw s0 x y = Ok (true, self') ∧
        domain self' x = Ok [].
Proof.
  intros Hstay Hchange. induction fuel as [|fuel IH]; simpl; [done|].
  intros self [|[x y] arcs] b self' HI H.
  { by injection H as <- <-. }
  inv_bind H. destruct a as [changed self1]. destruct changed.
  - inv_bind H. case_decide as Hlen.
    + injection H as <- <-. apply nil_length_inv in Hlen as ->.
      eauto 10.
    + eapply IH; [|done]. by eapply Hchange.
  - pose proof (revise_unchanged _ _ _ _ _ E) as ->.
    eapply IH; [|done]. by eapply Hstay.
Qed.

Lemma ac3_loop_narrows fuel self arcs b self' :
  ac3_loop cw fuel self arcs = Ok (b, self') → narrows self' self.
Proof.
  intros H.
  pose proof (ac3_loop_inv (λ s _, narrows s self)) as Hinv.
  eapply Hinv in H; [| |by eauto using narrows_trans, revise_narrows
                     | apply narrows_refl]; [|done].
  destruct b; [done|]. destruct H as (s0 & x & y & _ & Hn & Hr & _).
  eauto using narrows_trans, revise_narrows.
Qed.

Lemma ac3_loop_store_wf fuel self arcs b self' :
  store_wf cw self → ac3_loop cw fuel self arcs = Ok (b, self') →
  store_wf cw self'.
Proof.
  intros Hst H.
  pose proof (ac3_loop_inv (λ s _, store_wf cw s)) as Hinv.
  eapply Hinv in H; [| |by eauto using revise_store_wf | done]; [|done].
  destruct b; [done|]. destruct H as (s0 & x & y & _ & Hn & Hr & _).
  eauto using revise_store_wf.
Qed.
End ac3_loop.

(** ** Exceptions that the fuel cannot cause *)

Lemma fuel_free_bind {A B} (m : result A) (f : A → result B) :
  fuel_free m → (∀ a, m = Ok a → fuel_free (f a)) → fuel_free (bind m f).
Proof.
  destruct m as [a|e]; simpl; intros Hm Hf; [exact (Hf a eq_refl)|].
  intros [= ->]. by apply Hm.
Qed.

Lemma fuel_free_Ok {A} (a : A) : fuel_free (Ok a).
Proof. done. Qed.

Lemma fuel_free_str_index w k : fuel_free (str_index w k).
Proof. unfold str_index. by destruct (String.get k w). Qed.

Lemma fuel_free_domains_get self v : fuel_free (domains_get self v).
Proof. unfold domains_get. by destruct (domains self !! v). Qed.

Lemma fuel_free_deref self l : fuel_free (deref self l).
Proof. unfold deref. by destruct (heap self !! l). Qed.

Lemma fuel_free_domain self v : fuel_free (domain self v).
Proof.
  apply fuel_free_bind; auto using fuel_free_domains_get, fuel_free_deref.
Qed.

Lemma fuel_free_overlap_of cw x y : fuel_free (overlap_of cw x y).
Proof. unfold overlap_of. by destruct (dict_get _ _). Qed.

Lemma fuel_free_set_remove w s : fuel_free (set_remove w s).
Proof. unfold set_remove. by case_decide. Qed.

Create HintDb fuel discriminated.
#[export] Hint Resolve fuel_free_Ok fuel_free_str_index fuel_free_domains_get
  fuel_free_deref fuel_free_domain fuel_free_overlap_of fuel_free_set_remove
  : fuel.

(** [fuel_step] peels one bind, one match or one conditional off a goal
    [fuel_free _]. *)
Ltac fuel_step :=
  match goal with
  | |- fuel_free (bind _ _) => apply fuel_free_bind; [|intros ? ?]
  | |- fuel_free (match ?x with _ => _ end) => destruct x
  | |- fuel_free _ => by auto with fuel
  end.

Lemma fuel_free_all_differ w i j dy : fuel_free (all_differ w i j dy).
Proof. induction dy; simpl; repeat fuel_step. Qed.

Lemma fuel_free_revise_scan self y i j ws ch rm :
  fuel_free (revise_scan self y i j ws ch rm).
Proof.
  revert ch rm. induction ws; simpl; intros;
    repeat (fuel_step || apply fuel_free_all_differ).
Qed.

Lemma fuel_free_remove_loop self x ws : fuel_free (remove_loop self x ws).
Proof.
  revert self. induction ws; simpl; intros; [apply fuel_free_Ok|].
  unfold domain_remove. repeat fuel_step.
Qed.

Lemma fuel_free_revise cw self x y : fuel_free (revise cw self x y).
Proof.
  unfold revise.
  repeat (fuel_step || apply fuel_free_revise_scan
          || apply fuel_free_remove_loop).
Qed.

Lemma fuel_free_all_arcs_loop cw keys : fuel_free (all_arcs_loop cw keys).
Proof.
  induction keys as [|key keys IH]; simpl; [apply fuel_free_Ok|].
  repeat (apply IH || fuel_step).
Qed.

Lemma fuel_free_all_arcs cw : fuel_free (all_arcs cw).
Proof. apply fuel_free_all_arcs_loop. Qed.

(** ** Termination of the worklist loop *)

Section ac3_fuel.
Variable cw : Crossword.

Lemma ac3_loop_fuel fuel self arcs :
  length arcs + length (variables cw) * heap_size self < fuel →
  fuel_free (ac3_loop cw fuel self arcs).
Proof.
  revert self arcs. induction fuel as [|fuel IH]; intros self arcs Hm; [lia|].
  simpl. destruct arcs as [|[x y] arcs]; [apply fuel_free_Ok|]. simpl in Hm.
  apply fuel_free_bind; [apply fuel_free_revise|].
  intros [changed self1] Hrev. destruct changed.
  - apply fuel_free_bind; [apply fuel_free_domain|]. intros dx _.
    case_decide; [apply fuel_free_Ok|]. apply IH.
    apply revise_heap_size in Hrev.
    rewrite length_app. pose proof (requeue_length cw x y).
    assert (length (variables cw) * heap_size self1 + length (variables cw)
            ≤ length (variables cw) * heap_size self) by nia.
    lia.
  - apply revise_unchanged in Hrev as ->. apply IH. lia.
Qed.

Lemma ac3_fuel_free self arcs : fuel_free (ac3 cw self arcs).
Proof.
  unfold ac3. apply fuel_free_bind.
  - destruct arcs; [apply fuel_free_Ok | apply fuel_free_all_arcs].
  - intros a _. apply ac3_loop_fuel. unfold ac3_fuel. lia.
Qed.
End ac3_fuel.

(** ** What the worklist loop establishes *)

Section ac3_wf.
Variable cw : Crossword.
Hypothesis Hwf : wf_crossword cw.

Lemma revise_false_arc_ok self x y :
  store_wf cw self → revise cw self x y = Ok (false, self) →
  arc_ok cw self x y.
Proof.
  intros Hst Hrev i j dx dy Ho Hdx Hdy.
  destruct (revise_overlap cw Hwf _ _ _ _ _ _ _ Hst Ho Hrev)
    as (dx' & dy' & Hdx' & Hdy' & _ & _ & Hb & _).
  rewrite Hdx in Hdx'. rewrite Hdy in Hdy'.
  injection Hdx' as <-. injection Hdy' as <-.
  symmetry in Hb. apply bool_decide_eq_false in Hb.
  apply Forall_forall. intros w Hw.
  destruct (decide (supported i j dy w)) as [|Hn]; [done|].
  destruct Hb. apply Exists_exists. eauto.
Qed.

(** A revision of [x] against [y] keeps every arc consistent that was,
    except those into [x] from a third slot, which are queued again. *)
Lemma revise_true_arc_ok self x y self' a b :
  store_wf cw self → revise cw self x y = Ok (true, self') →
  is_Ok (overlap_of cw a b) →
  ((a, b) = (x, y) ∨ arc_ok cw self a b) →
  (a, b) ∈ requeue cw x y ∨ arc_ok cw self' a b.
Proof.
  intros Hst Hrev Hab Hold.
  destruct (overlap_of cw x y) as [[[i j]|]|] eqn:Ho.
  2:{ rewrite revise_no_overlap in Hrev; done. }
  2:{ unfold revise in Hrev. by rewrite Ho in Hrev. }
  destruct (revise_overlap cw Hwf _ _ _ _ _ _ _ Hst Ho Hrev)
    as (dx & dy & Hdx & Hdy & Hdx' & Hother & _ & Hst').
  destruct (wf_overlap_of cw Hwf _ _ _ _ Ho) as (Hx & Hy & Hxy & _ & _ & Hyx).
  apply is_Ok_exists in Hab as [[[ia jb]|] Hab].
  2:{ right. intros i' j' da db Ho'. congruence. }
  destruct (decide (a = x)) as [->|Hax].
  - (* an arc out of [x]: its domain shrank, its partners did not *)
    right. intros i' j' dx1 db Ho' Hdx1 Hdb.
    destruct (wf_overlap_of cw Hwf _ _ _ _ Ho') as (_ & Hb & Hxb & _).
    rewrite Hdx' in Hdx1. injection Hdx1 as <-.
    rewrite Hother in Hdb by done.
    destruct Hold as [[= ->]|Hold].
    + rewrite Ho in Ho'. injection Ho' as <- <-.
      rewrite Hdy in Hdb. injection Hdb as <-.
      apply Forall_forall. by intros w [? _]%list_elem_of_filter.
    + specialize (Hold _ _ _ _ Ho' Hdx Hdb). rewrite Forall_forall in *.
      intros w [_ Hw]%list_elem_of_filter. auto.
  - destruct Hold as [[=]|Hold]; [done|].
    destruct (decide (b = x)) as [->|Hbx].
    + destruct (decide (a = y)) as [->|Hay].
      * (* the arc back from [y]: a partner that was removed from the
           domain of [x] had no partner in the domain of [y] *)
        right. intros j' i' dy1 dx1 Ho' Hdy1 Hdx1.
        rewrite Hother in Hdy1 by done.
        rewrite Hdy in Hdy1. injection Hdy1 as <-.
        rewrite Hdx' in Hdx1. injection Hdx1 as <-.
        rewrite Hyx in Ho'. injection Ho' as <- <-.
        specialize (Hold _ _ _ _ Hyx Hdy Hdx). rewrite Forall_forall in *.
        intros w Hw. specialize (Hold _ Hw).
        unfold supported in *. rewrite Exists_exists in *.
        destruct Hold as (v & Hv & Hag). exists v. split; [|done].
        apply list_elem_of_filter. split; [|done].
        apply Exists_exists. exists w. split; [done|].
        by rewrite agree_sym.
      * (* an arc into [x] from a third slot *)
        left. apply elem_of_requeue. exists a. split; [done|].
        split; [|done]. apply elem_of_neighbors.
        destruct (wf_overlap_of cw Hwf _ _ _ _ Hab) as (? & _). eauto.
    + (* neither end is [x] *)
      right. intros i' j' da db Ho' Hda Hdb.
      destruct (wf_overlap_of cw Hwf _ _ _ _ Ho') as (Ha & Hb & _).
      rewrite Hother in Hda, Hdb by done. eauto.
Qed.
End ac3_wf.

Section ac3_results.
Variable cw : Crossword.
Hypothesis Hwf : wf_crossword cw.

Lemma ac3_loop_arc_ok fuel self arcs self' :
  queued_or_ok cw self arcs →
  ac3_loop cw fuel self arcs = Ok (true, self') →
  store_wf cw self' ∧ ∀ a b, arc_ok cw self' a b.
Proof.
  intros HI H.
  apply (ac3_loop_inv cw (queued_or_ok cw)) in H; [| | |done].
  - destruct H as [Hst Hall]. split; [done|]. intros a b.
    destruct (overlap_of cw a b) as [o|e] eqn:Ho.
    + destruct (Hall a b) as [[]%elem_of_nil|?]; [|done]. by rewrite Ho.
    + intros i j dx dy Ho'. congruence.
  - intros s x y rest [Hst Hall] Hrev. split; [done|]. intros a b Hab.
    destruct (Hall a b Hab) as [[[= -> ->]|?]%elem_of_cons|?]; auto.
    right. by apply revise_false_arc_ok.
  - intros s x y rest s' [Hst Hall] Hrev. split.
    { by eapply revise_store_wf. }
    intros a b Hab. rewrite elem_of_app.
    destruct (Hall a b Hab) as [[Heq|?]%elem_of_cons|Hok]; [|by auto|];
      destruct (revise_true_arc_ok cw Hwf _ _ _ _ a b Hst Hrev Hab); auto.
Qed.

Lemma arc_ok_arc_consistent self :
  store_wf cw self → (∀ a b, arc_ok cw self a b) → arc_consistent cw self.
Proof.
  intros [Hb _] Hok x y dx w Hx Hy Hdx Hw.
  destruct (neighbors_sym cw Hwf _ _ Hx Hy) as (i & j & Ho & _).
  apply elem_of_neighbors in Hy as (Hy & _).
  destruct (bound_domain cw _ _ Hb Hy) as [dy Hdy].
  exists i, j, dy. repeat split; try done.
  specialize (Hok x y i j dx dy Ho Hdx Hdy). rewrite Forall_forall in Hok.
  auto.
Qed.

Lemma ac3_arc_consistent self self' :
  store_wf cw self → ac3 cw self None = Ok (true, self') →
  arc_consistent cw self'.
Proof.
  intros Hst H. unfold ac3 in H. inv_bind H.
  destruct (all_arcs_spec cw) as (arcs & Harcs & Hin).
  rewrite Harcs in E. injection E as <-.
  apply ac3_loop_arc_ok in H as [Hst' Hok].
  - by apply arc_ok_arc_consistent.
  - split; [done|]. intros a b [[o|] Ho]%is_Ok_exists.
    + left. apply Hin. eauto.
    + right. intros i j dx dy Ho'. congruence.
Qed.

(** *** Soundness of a reported failure *)

Lemma revise_solution self x y b self' f :
  store_wf cw self → revise cw self x y = Ok (b, self') →
  solution cw self f → solution cw self' f.
Proof.
  intros Hst Hrev [Hdom Hagree].
  destruct b; [|by apply revise_unchanged in Hrev as ->].
  destruct (overlap_of cw x y) as [[[i j]|]|] eqn:Ho.
  2:{ rewrite revise_no_overlap in Hrev; done. }
  2:{ unfold revise in Hrev. by rewrite Ho in Hrev. }
  destruct (revise_overlap cw Hwf _ _ _ _ _ _ _ Hst Ho Hrev)
    as (dx & dy & Hdx & Hdy & Hdx' & Hother & _ & _).
  destruct (wf_overlap_of cw Hwf _ _ _ _ Ho) as (Hx & Hy & _).
  split; [|done]. intros v Hv.
  destruct (decide (v = x)) as [->|Hne].
  - eexists. split; [done|]. apply list_elem_of_filter.
    destruct (Hdom _ Hx) as (d & Hd & Hf).
    rewrite Hdx in Hd. injection Hd as <-. split; [|done].
    apply Exists_exists. exists (f y). split; [|by eapply Hagree].
    destruct (Hdom _ Hy) as (d & Hd & Hfy). congruence.
  - rewrite Hother by done. auto.
Qed.

Lemma ac3_loop_sound fuel self arcs self' f :
  store_wf cw self → ac3_loop cw fuel self arcs = Ok (false, self') →
  ¬ solution cw self f.
Proof.
  intros Hst H Hsol.
  apply (ac3_loop_inv cw (λ s _, store_wf cw s ∧ solution cw s f)) in H;
    [| | |done].
  - destruct H as (s0 & x & y & _ & [Hst0 Hsol0] & Hrev & Hx).
    pose proof (revise_solution _ _ _ _ _ _ Hst0 Hrev Hsol0) as [Hdom _].
    destruct (overlap_of cw x y) as [[[i j]|]|] eqn:Ho.
    2:{ rewrite revise_no_overlap in Hrev; done. }
    2:{ unfold revise in Hrev. by rewrite Ho in Hrev. }
    destruct (wf_overlap_of cw Hwf _ _ _ _ Ho) as (Hxv & _).
    destruct (Hdom _ Hxv) as (d & Hd & Hf).
    rewrite Hx in Hd. injection Hd as <-. by apply elem_of_nil in Hf.
  - by intros s x y rest [? ?] _.
  - intros s x y rest s' [? ?] Hrev. split.
    + by eapply revise_store_wf.
    + by eapply revise_solution.
Qed.

(** *** No exception on a node-consistent store *)

Lemma keyed_requeue x y : keyed cw (requeue cw x y).
Proof.
  apply Forall_forall. intros a (z & -> & Hz & _)%elem_of_requeue.
  apply elem_of_neighbors in Hz as (_ & _ & o & Ho). simpl. by rewrite Ho.
Qed.

Lemma ac3_loop_raise fuel self arcs e :
  store_wf cw self → node_consistent cw self → keyed cw arcs →
  ac3_loop cw fuel self arcs = Raise e → e = OutOfFuel.
Proof.
  revert self arcs. induction fuel as [|fuel IH]; simpl;
    intros self arcs Hst Hnc Hkeys H; [congruence|].
  destruct arcs as [|[x y] arcs]; [done|].
  apply Forall_cons in Hkeys as [Hxy Hkeys]. simpl in Hxy.
  destruct (revise_wf_total cw Hwf self x y Hst Hnc Hxy)
    as [[changed self1] Hrev].
  rewrite Hrev in H. simpl in H.
  pose proof (revise_store_wf cw _ _ _ _ _ Hst Hrev) as Hst1.
  pose proof (narrows_node_consistent cw _ _
                (revise_narrows cw _ _ _ _ _ Hrev) Hnc) as Hnc1.
  destruct changed; [|by eapply IH].
  destruct (revise_shape cw _ _ _ _ _ Hrev)
    as [[[=] _]|[_ (lx & dx & rm & Hlx & Hdx & _ & _ & Hs1)]].
  rewrite Hs1 in H at 1.
  rewrite (narrowed_domain_eq _ _ _ _ _ Hlx Hdx) in H. simpl in H.
  case_decide; [done|]. eapply IH; [done..| |done].
  apply Forall_app. split; [done | apply keyed_requeue].
Qed.

Lemma ac3_loop_total fuel self arcs :
  store_wf cw self → node_consistent cw self → keyed cw arcs →
  length arcs + length (variables cw) * heap_size self < fuel →
  ∃ r, ac3_loop cw fuel self arcs = Ok r.
Proof.
  intros Hst Hnc Hkeys Hfuel.
  destruct (ac3_loop cw fuel self arcs) as [r|e] eqn:H; [eauto|].
  pose proof (ac3_loop_raise _ _ _ _ Hst Hnc Hkeys H) as ->.
  by apply ac3_loop_fuel in H.
Qed.

Lemma keyed_all_arcs arcs : all_arcs cw = Ok arcs → keyed cw arcs.
Proof.
  destruct (all_arcs_spec cw) as (arcs' & Harcs & Hin).
  rewrite Harcs. intros [= <-]. apply Forall_forall. intros [a b] Hab.
  apply Hin in Hab as [o Ho]. simpl. by rewrite Ho.
Qed.

Lemma ac3_total self :
  store_wf cw self → node_consistent cw self →
  ∃ r, ac3 cw self None = Ok r.
Proof.
  intros Hst Hnc. unfold ac3.
  destruct (all_arcs_spec cw) as (arcs & Harcs & _). rewrite Harcs.
  cbn [bind]. apply ac3_loop_total; try done.
  - by apply keyed_all_arcs.
  - unfold ac3_fuel. lia.
Qed.

(** *** A consistent store is a fixed point *)

Lemma ac3_loop_stable arcs fuel self :
  store_wf cw self → node_consistent cw self → keyed cw arcs →
  (∀ a b, arc_ok cw self a b) → length arcs < fuel →
  ac3_loop cw fuel self arcs = Ok (true, self).
Proof.
  intros Hst Hnc Hkeys Hok. revert fuel.
  induction Hkeys as [|[x y] arcs Hxy _ IH]; intros [|fuel] Hfuel;
    simpl in *; try lia; [done|].
  destruct (revise_wf_total cw Hwf self x y Hst Hnc Hxy) as [[b s1] Hrev].
  assert (b = false) as ->.
  { apply is_Ok_exists in Hxy as [[[i j]|] Ho].
    - destruct (revise_overlap cw Hwf _ _ _ _ _ _ _ Hst Ho Hrev)
        as (dx & dy & Hdx & Hdy & _ & _ & -> & _).
      apply bool_decide_eq_false_2. intros (w & Hw & Hn)%Exists_exists.
      specialize (Hok x y i j dx dy Ho Hdx Hdy).
      rewrite Forall_forall in Hok. auto.
    - rewrite revise_no_overlap in Hrev by done. by injection Hrev as <- _. }
  pose proof (revise_unchanged _ _ _ _ _ Hrev) as ->.
  rewrite Hrev. simpl. apply IH. lia.
Qed.
End ac3_results.

(** ** enforce_node_consistency *)

Lemma elem_of_domain_consistent_of var d w :
  w ∈ domain_consistent_of var d ↔ w ∈ d ∧ String.length w = var_length var.
Proof.
  unfold domain_consistent_of.
  enough (∀ acc, w ∈ foldl (λ domain_consistent word,
                    if decide (var_length var = String.length word)
                    then set_add word domain_consistent
                    else domain_consistent) acc d
                 ↔ w ∈ acc ∨ (w ∈ d ∧ String.length w = var_length var)) as H.
  { rewrite H, elem_of_nil. tauto. }
  induction d as [|a d IH]; simpl; intros acc.
  - rewrite elem_of_nil. tauto.
  - rewrite IH, elem_of_cons. case_decide as Hlen.
    + rewrite elem_of_set_add. split; [|intros [?|[[->|?] ?]]; auto].
      intros [[->|?]|[? ?]]; auto.
    + split; [intros [?|[? ?]]; auto|].
      intros [?|[[->|?] ?]]; auto. congruence.
Qed.

Section enforce.
Variable cw : Crossword.

Lemma enforce_loop_spec vars self :
  Forall (λ v, is_Ok (domain self v)) vars →
  ∃ self', enforce_loop vars self = Ok self' ∧ enforced vars self self'.
Proof.
  revert self. induction vars as [|v vars IH]; intros self Hb.
  { exists self. split; [done|]. split_and!; try done.
    all: first [by intros ? ?%elem_of_nil | by intros ? ? ?%elem_of_nil]. }
  apply Forall_cons in Hb as [[d Hd]%is_Ok_exists Hb].
  simpl. rewrite Hd. simpl.
  set (self1 := domains_set _ v _).
  assert (Hold : ∀ u c, u ≠ v → domain self u = Ok c → domain self1 u = Ok c).
  { intros u c Hu (l & Hl & Hc)%domain_Ok. apply domain_Ok. exists l.
    subst self1. simpl. rewrite lookup_insert_ne by done. split; [done|].
    rewrite lookup_app_l; [done|]. by eapply lookup_lt_Some. }
  assert (Hnew : domain self1 v = Ok (domain_consistent_of v d)).
  { apply domain_Ok. exists (length (heap self)). subst self1. simpl.
    rewrite lookup_insert_eq. split; [done|].
    by apply list_lookup_middle. }
  destruct (IH self1) as (self' & Hrun & Hkeep & Hheap & Hvars & Hsep).
  { eapply Forall_impl; [exact Hb|]. intros u [c Hc]%is_Ok_exists.
    apply is_Ok_exists. destruct (decide (u = v)) as [->|Hu]; eauto. }
  exists self'. split; [done|].
  assert (Hlen : length (heap self1) = S (length (heap self))).
  { subst self1. simpl. rewrite length_app. simpl. lia. }
  assert (Hv : v ∉ vars → domains self' !! v = Some (length (heap self))
               ∧ heap self' !! length (heap self)
                 = Some (domain_consistent_of v d)).
  { intros Hn. rewrite Hkeep by done. rewrite Hheap by lia.
    subst self1. simpl. rewrite lookup_insert_eq. split; [done|].
    by apply list_lookup_middle. }
  split_and!.
  - intros u [Hu Hn]%not_elem_of_cons. rewrite Hkeep by done.
    subst self1. simpl. by rewrite lookup_insert_ne.
  - intros l Hl. rewrite Hheap by lia. subst self1. simpl.
    by rewrite lookup_app_l.
  - intros u Hu. destruct (decide (u ∈ vars)) as [Hin|Hn].
    + destruct (Hvars u Hin) as (l & d' & Hl & Hge & Hd' & Hspec).
      exists l, d'. split_and!; [done|lia|done|].
      intros c Hc. destruct (decide (u = v)) as [->|Hne].
      * rewrite Hd in Hc. injection Hc as <-. intros w.
        rewrite (Hspec _ Hnew), elem_of_domain_consistent_of. tauto.
      * apply Hspec. auto.
    + apply elem_of_cons in Hu as [->|?]; [|done].
      destruct (Hv Hn) as [Hl Hc].
      exists (length (heap self)), (domain_consistent_of v d).
      split_and!; [done|lia|done|].
      intros c Hc'. rewrite Hd in Hc'. injection Hc' as <-.
      apply elem_of_domain_consistent_of.
  - intros v1 v2 H1 H2 Hne.
    destruct (decide (v1 ∈ vars)) as [Hin1|Hn1],
             (decide (v2 ∈ vars)) as [Hin2|Hn2].
    + auto.
    + apply elem_of_cons in H2 as [->|?]; [|done].
      destruct (Hv Hn2) as [-> _].
      destruct (Hvars v1 Hin1) as (l & _ & -> & Hge & _).
      intros [= ->]. lia.
    + apply elem_of_cons in H1 as [->|?]; [|done].
      destruct (Hv Hn1) as [-> _].
      destruct (Hvars v2 Hin2) as (l & _ & -> & Hge & _).
      intros [= <-]. lia.
    + apply elem_of_cons in H1 as [->|?]; [|done].
      apply elem_of_cons in H2 as [->|?]; done.
Qed.

Lemma enforce_node_consistency_spec self :
  bound cw self →
  ∃ self', enforce_node_consistency cw self = Ok self' ∧
    store_wf cw self' ∧ node_consistent cw self' ∧
    ∀ s d, s ∈ variables cw → domain self s = Ok d →
      ∃ d', domain self' s = Ok d' ∧
            ∀ w, w ∈ d' ↔ w ∈ d ∧ String.length w = var_length s.
Proof.
  intros Hb.
  destruct (enforce_loop_spec (variables cw) self Hb)
    as (self' & Hrun & _ & _ & Hvars & Hsep).
  exists self'. split; [done|].
  assert (Hspec : ∀ s d, s ∈ variables cw → domain self s = Ok d →
            ∃ d', domain self' s = Ok d' ∧
                  ∀ w, w ∈ d' ↔ w ∈ d ∧ String.length w = var_length s).
  { intros s d Hs Hd. destruct (Hvars s Hs) as (l & d' & Hl & _ & Hd' & Hw).
    exists d'. split; [apply domain_Ok; eauto | auto]. }
  split; [split|split; [|done]].
  - apply Forall_forall. intros v Hv.
    destruct (bound_domain cw _ _ Hb Hv) as [d Hd].
    destruct (Hspec v d Hv Hd) as (d' & -> & _). done.
  - apply Forall_forall. intros v1 H1. apply Forall_forall. intros v2 H2.
    destruct (decide (v1 = v2)); auto.
  - apply Forall_forall. intros v Hv.
    destruct (bound_domain cw _ _ Hb Hv) as [d Hd].
    destruct (Hspec v d Hv Hd) as (d' & Hd' & Hw).
    unfold words_fit. rewrite Hd'. apply Forall_forall. intros w Hin.
    by apply Hw in Hin as [_ ?].
Qed.

(** [__init__] binds every slot. *)
Lemma init_bound : bound cw (init cw).
Proof.
  unfold bound, init.
  enough (∀ vars self,
             Forall (λ v, is_Ok (domain self v)) (variables cw) ∨ True →
             ∀ v, (v ∈ vars ∨ is_Ok (domain self v)) →
                  is_Ok (domain
                    (foldl (λ self var,
                              let '(l, self) := alloc self (words cw) in
                              domains_set self var l) self vars) v)) as H.
  { apply Forall_forall. intros v Hv. apply H; auto. }
  induction vars as [|u vars IH]; simpl; intros self _ v Hv.
  { destruct Hv as [?%elem_of_nil|?]; done. }
  apply IH; [by right|].
  destruct (decide (v = u)) as [->|Hne].
  - right. apply is_Ok_exists. exists (words cw). apply domain_Ok.
    exists (length (heap self)). simpl. rewrite lookup_insert_eq.
    split; [done|]. by apply list_lookup_middle.
  - destruct Hv as [[?|?]%elem_of_cons|Hv]; [done|by left|].
    right. apply is_Ok_exists in Hv as [d (l & Hl & Hd)%domain_Ok].
    apply is_Ok_exists. exists d. apply domain_Ok. exists l. simpl.
    rewrite lookup_insert_ne by done. split; [done|].
    rewrite lookup_app_l; [done|]. by eapply lookup_lt_Some.
Qed.
End enforce.

(** ** The consistency checker *)

Lemma remove_dups_length_le {A} `{EqDecision A} (l : list A) :
  length (remove_dups l) ≤ length l.
Proof. induction l as [|a l IH]; simpl; [lia|]. case_decide; simpl; lia. Qed.

Lemma remove_dups_length_eq {A} `{EqDecision A} (l : list A) :
  length (remove_dups l) = length l ↔ NoDup l.
Proof.
  induction l as [|a l IH]; simpl.
  - split; [intros _; apply NoDup_nil_2 | done].
  - rewrite NoDup_cons. pose proof (remove_dups_length_le l).
    case_decide as Hin; simpl.
    + split; [lia | tauto].
    + rewrite <- IH. split; [intros [= ?]; auto | intros [_ ->]; done].
Qed.

Lemma dict_get_NoDup {K V} `{EqDecision K} (d : list (K * V)) k v :
  NoDup d.*1 → dict_get d k = Some v ↔ (k, v) ∈ d.
Proof.
  intros Hnd. split; [apply dict_get_elem_of|].
  induction d as [|[k' v'] d IH]; simpl in *; [by intros ?%elem_of_nil|].
  apply NoDup_cons in Hnd as [Hk Hnd].
  intros [[= -> ->]|Hin]%elem_of_cons.
  - by rewrite decide_True.
  - rewrite decide_False; [auto|]. intros ->. apply Hk.
    apply list_elem_of_fmap. by exists (k, v).
Qed.

Lemma repeated_word_cons k v (a : list (Var * string)) :
  k ∉ a.*1 → repeated_word a → repeated_word ((k, v) :: a).
Proof.
  intros Hk (x & y & w & Hne & Hx & Hy). exists x, y, w.
  assert (Hkeys : ∀ z, dict_get a z = Some w → k ≠ z).
  { intros z Hz%dict_get_elem_of ->. apply Hk, list_elem_of_fmap.
    by exists (z, w). }
  simpl. rewrite !decide_False by auto. done.
Qed.

Lemma NoDup_values (a : list (Var * string)) :
  NoDup a.*1 → repeated_word a ↔ ¬ NoDup a.*2.
Proof.
  intros Hnd. split.
  - intros (x & y & w & Hne & Hx & Hy) Hv. apply Hne. clear Hne.
    apply dict_get_elem_of in Hx, Hy. clear Hnd.
    induction a as [|[k v] a IH]; simpl in *; [by apply elem_of_nil in Hx|].
    apply NoDup_cons in Hv as [Hk Hv].
    apply elem_of_cons in Hx as [Hx|Hx]; apply elem_of_cons in Hy as [Hy|Hy];
      simplify_eq; auto.
    + destruct Hk. apply list_elem_of_fmap. by exists (y, v).
    + destruct Hk. apply list_elem_of_fmap. by exists (x, v).
  - induction a as [|[k v] a IH]; simpl in *; intros Hv.
    { destruct Hv. apply NoDup_nil_2. }
    apply NoDup_cons in Hnd as [Hk Hnd].
    destruct (decide (v ∈ a.*2)) as [Hin|Hn].
    + apply list_elem_of_fmap in Hin as ([y w] & -> & Hy). simpl.
      exists k, y, w. split_and!.
      * intros ->. apply Hk, list_elem_of_fmap. by exists (y, w).
      * simpl. by rewrite decide_True.
      * simpl. rewrite decide_False.
        -- by apply dict_get_NoDup.
        -- intros ->. apply Hk, list_elem_of_fmap. by exists (y, w).
    + apply repeated_word_cons; [done|]. apply IH; [done|].
      intros Hv'. apply Hv. by apply NoDup_cons.
Qed.

Section checker.
Variable cw : Crossword.
Hypothesis Hwf : wf_crossword cw.

Lemma agree_index w v i j a b :
  str_index w i = Ok a → str_index v j = Ok b →
  agree i j w v = bool_decide (a = b).
Proof.
  intros Ha%str_index_Ok Hb%str_index_Ok. unfold agree. by rewrite Ha, Hb.
Qed.

Lemma consistent_neighbors_spec a var word nbs :
  NoDup a.*1 → lengths_match a →
  String.length word = var_length var →
  nbs ⊆ neighbors cw var →
  ∃ b, consistent_neighbors cw a var word nbs = Ok b ∧
       (b = false ↔ conflict_at cw a var word nbs).
Proof.
  intros Hnd Hlen Hword. unfold conflict_at.
  induction nbs as [|nb nbs IH]; intros Hsub; simpl.
  { exists true. split; [done|]. split; [done|].
    by intros (? & ? & ? & ? & ?%elem_of_nil & _). }
  destruct IH as (b & Hb & Hspec). { intros ? ?. apply Hsub. by right. }
  assert (Hnb : nb ∈ neighbors cw var) by (apply Hsub; by left).
  apply elem_of_neighbors in Hnb as (Hnbv & Hne & [[j i] Ho]).
  destruct (wf_overlap_of cw Hwf _ _ _ _ Ho) as (_ & Hvar & _ & Hj & Hi & Ho').
  destruct (dict_get a nb) as [nw|] eqn:Hget.
  - rewrite Ho'. simpl.
    assert (Hnw : String.length nw = var_length nb).
    { apply dict_get_elem_of in Hget. unfold lengths_match in Hlen.
      rewrite Forall_forall in Hlen. apply (Hlen _ Hget). }
    destruct (str_index_total word i) as [c1 Hc1]; [lia|].
    destruct (str_index_total nw j) as [c2 Hc2]; [lia|].
    rewrite Hc1, Hc2. simpl.
    pose proof (agree_index _ _ _ _ _ _ Hc1 Hc2) as Hag.
    destruct (decide (c1 ≠ c2)) as [Hc|Hc].
    + exists false. split; [done|]. split; [|done]. intros _.
      exists nb, nw, i, j. split_and!; [by left|done..|].
      by rewrite Hag, bool_decide_spec.
    + exists b. split; [done|]. rewrite Hspec. split.
      * intros (nb' & nw' & i' & j' & Hin & ?). exists nb', nw', i', j'.
        split; [by right|done].
      * intros (nb' & nw' & i' & j' & [->|Hin]%elem_of_cons & Hg & Ho2 & Hn).
        -- rewrite Hget in Hg. injection Hg as <-.
           rewrite Ho' in Ho2. injection Ho2 as <- <-.
           destruct Hn. rewrite Hag. apply bool_decide_spec.
           by apply dec_stable.
        -- eauto 10.
  - exists b. split; [done|]. rewrite Hspec. split.
    + intros (nb' & nw' & i' & j' & Hin & ?). exists nb', nw', i', j'.
      split; [by right|done].
    + intros (nb' & nw' & i' & j' & [->|Hin]%elem_of_cons & Hg & Ho2 & Hn).
      * congruence.
      * eauto 10.
Qed.

Lemma consistent_items_spec a items :
  NoDup a.*1 → lengths_match a → items ⊆ a →
  ∃ b, consistent_items cw a items = Ok b ∧
       (b = false ↔
        ∃ var word, (var, word) ∈ items ∧
                    conflict_at cw a var word (neighbors cw var)).
Proof.
  intros Hnd Hlen. induction items as [|[var word] items IH]; intros Hsub.
  { exists true. split; [done|]. split; [done|].
    by intros (? & ? & ?%elem_of_nil & _). }
  destruct IH as (b & Hb & Hspec). { intros ? ?. apply Hsub. by right. }
  assert (Hw : String.length word = var_length var).
  { unfold lengths_match in Hlen. rewrite Forall_forall in Hlen.
    apply (Hlen (var, word)), Hsub. by left. }
  simpl. rewrite decide_False by (by rewrite Hw; intros []).
  destruct (consistent_neighbors_spec a var word (neighbors cw var))
    as (ok & Hok & Hokspec); [done..|].
  rewrite Hok. simpl. destruct ok.
  - exists b. split; [done|]. rewrite Hspec. split.
    + intros (v & w & Hin & Hc). exists v, w. split; [by right|done].
    + intros (v & w & [[= -> ->]|Hin]%elem_of_cons & Hc); [|eauto].
      by apply Hokspec in Hc.
  - exists false. split; [done|]. split; [|done]. intros _.
    exists var, word. split; [by left|]. by apply Hokspec.
Qed.

Lemma overlap_conflict_items a :
  NoDup a.*1 →
  overlap_conflict cw a ↔
  ∃ var word, (var, word) ∈ a ∧ conflict_at cw a var word (neighbors cw var).
Proof.
  intros Hnd. unfold overlap_conflict, conflict_at. split.
  - intros (x & y & wx & wy & i & j & Hx & Hy & Ho & Hn).
    exists x, wx. split; [by apply dict_get_elem_of|].
    exists y, wy, i, j. split_and!; try done.
    destruct (wf_overlap_of cw Hwf _ _ _ _ Ho) as (? & ? & ? & _ & _ & ?).
    apply elem_of_neighbors. eauto.
  - intros (x & wx & Hx & y & wy & i & j & _ & Hy & Ho & Hn).
    exists x, y, wx, wy, i, j. split_and!; try done.
    by apply dict_get_NoDup.
Qed.

Lemma consistent_spec a :
  NoDup a.*1 → lengths_match a →
  ∃ b, consistent cw a = Ok b ∧
       (b = false ↔ overlap_conflict cw a ∨ repeated_word a).
Proof.
  intros Hnd Hlen. unfold consistent.
  destruct (consistent_items_spec a a Hnd Hlen) as (ok & -> & Hok); [done|].
  rewrite <- overlap_conflict_items in Hok by done. simpl.
  destruct ok.
  - assert (Hno : ¬ overlap_conflict cw a) by (by intros ?%Hok).
    case_decide as Hdup.
    + exists false. split; [done|]. split; [|done]. intros _. right.
      apply NoDup_values; [done|]. intros Hv. apply Hdup. symmetry.
      by apply remove_dups_length_eq.
    + exists true. split; [done|]. split; [done|]. intros [?|Hrep]; [done|].
      exfalso. symmetry in Hdup.
      apply remove_dups_length_eq in Hdup. by apply NoDup_values in Hrep.
  - exists false. split; [done|]. split; [|done]. intros _. left.
    by apply Hok.
Qed.

(** An assignment with a word of the wrong length is never accepted. *)
Lemma consistent_items_lengths a items :
  consistent_items cw a items = Ok true →
  Forall (λ item, String.length item.2 = var_length item.1) items.
Proof.
  induction items as [|[var word] items IH]; simpl; [done|].
  case_decide as Hlen; [done|]. intros H. inv_bind H.
  destruct a0; [|done]. apply Forall_cons. split; [|auto].
  simpl. apply dec_stable. congruence.
Qed.

Lemma consistent_lengths a : consistent cw a = Ok true → lengths_match a.
Proof.
  unfold consistent. intros H. inv_bind H. destruct a0; [|done].
  by eapply consistent_items_lengths.
Qed.
End checker.

Lemma assignment_complete_spec cw a :
  assignment_complete cw a = true ↔
  ∀ v, v ∈ variables cw → is_Some (dict_get a v).
Proof.
  unfold assignment_complete.
  induction (variables cw) as [|u vars IH]; simpl.
  - split; [by intros _ ? ?%elem_of_nil | done].
  - destruct (dict_mem a u) eqn:Hu.
    + apply dict_mem_true in Hu. rewrite IH. split.
      * intros H v [->|?]%elem_of_cons; auto.
      * intros H v Hv. apply H. by right.
    + apply dict_mem_false in Hu. split; [done|]. intros H.
      destruct (H u) as [? ?]; [by left | congruence].
Qed.

(** ** The search never runs out of fuel *)

#[export] Hint Resolve fuel_free_all_differ fuel_free_revise_scan
  fuel_free_remove_loop fuel_free_revise fuel_free_all_arcs ac3_fuel_free
  : fuel.

Lemma fuel_free_consistent_neighbors cw a var word nbs :
  fuel_free (consistent_neighbors cw a var word nbs).
Proof. induction nbs; simpl; repeat fuel_step. Qed.
#[export] Hint Resolve fuel_free_consistent_neighbors : fuel.

Lemma fuel_free_consistent_items cw a items :
  fuel_free (consistent_items cw a items).
Proof. induction items as [|[] ?]; simpl; repeat fuel_step. Qed.
#[export] Hint Resolve fuel_free_consistent_items : fuel.

Lemma fuel_free_consistent cw a : fuel_free (consistent cw a).
Proof. unfold consistent. repeat fuel_step. Qed.
#[export] Hint Resolve fuel_free_consistent : fuel.

Lemma fuel_free_count_conflicts value overlap nvs n :
  fuel_free (count_conflicts value overlap nvs n).
Proof. revert n. induction nvs; simpl; intros; repeat fuel_step. Qed.
#[export] Hint Resolve fuel_free_count_conflicts : fuel.

Lemma fuel_free_count_neighbors cw self var a value nbs n :
  fuel_free (count_neighbors cw self var a value nbs n).
Proof. revert n. induction nbs; simpl; intros; repeat fuel_step. Qed.
#[export] Hint Resolve fuel_free_count_neighbors : fuel.

Lemma fuel_free_result_map {A B} (f : A → result B) l :
  (∀ a, fuel_free (f a)) → fuel_free (result_map f l).
Proof. intros Hf. induction l; simpl; repeat fuel_step. Qed.

Lemma fuel_free_list_nth {A} (l : list A) k : fuel_free (list_nth l k).
Proof. unfold list_nth. repeat fuel_step. Qed.

Lemma fuel_free_list_index l v : fuel_free (list_index l v).
Proof. induction l; simpl; repeat fuel_step. Qed.

Lemma fuel_free_list_min l : fuel_free (list_min l).
Proof. by destruct l. Qed.

Lemma fuel_free_list_max l : fuel_free (list_max l).
Proof. by destruct l. Qed.
#[export] Hint Resolve fuel_free_list_nth fuel_free_list_index
  fuel_free_list_min fuel_free_list_max : fuel.

Lemma fuel_free_order_domain_values cw self var a :
  fuel_free (order_domain_values cw self var a).
Proof.
  unfold order_domain_values.
  repeat (fuel_step || (apply fuel_free_result_map; intros)).
Qed.

Lemma fuel_free_unassigned_stats cw self a vs :
  fuel_free (unassigned_stats cw self a vs).
Proof. induction vs; simpl; repeat fuel_step. Qed.
#[export] Hint Resolve fuel_free_order_domain_values
  fuel_free_unassigned_stats : fuel.

Lemma fuel_free_select_unassigned_variable cw self a :
  fuel_free (select_unassigned_variable cw self a).
Proof.
  unfold select_unassigned_variable.
  repeat (fuel_step || (apply fuel_free_result_map; intros)).
Qed.

Lemma fuel_free_snapshot self vars m : fuel_free (snapshot self vars m).
Proof. revert m. induction vars; simpl; intros; repeat fuel_step. Qed.

Lemma fuel_free_restore self vars m : fuel_free (restore self vars m).
Proof. revert self. induction vars; simpl; intros; repeat fuel_step. Qed.
#[export] Hint Resolve fuel_free_select_unassigned_variable
  fuel_free_snapshot fuel_free_restore : fuel.

Section search.
Variable cw : Crossword.

Lemma unassigned_stats_vars self a vs vars MRV degree :
  unassigned_stats cw self a vs = Ok (vars, MRV, degree) →
  vars = filter (λ v, dict_mem a v = false) vs.
Proof.
  revert vars MRV degree.
  induction vs as [|v vs IH]; simpl; intros vars MRV degree H.
  - by injection H as <- _ _.
  - rewrite filter_cons. destruct (dict_mem a v) eqn:Hv.
    + rewrite decide_False by done. eauto.
    + rewrite decide_True by done. inv_bind H. inv_bind H.
      destruct a1 as [[vars' MRV'] degree']. injection H as <- _ _.
      f_equal. eauto.
Qed.

Lemma list_nth_elem_of {A} (l : list A) k x : list_nth l k = Ok x → x ∈ l.
Proof.
  unfold list_nth. destruct (l !! k) eqn:E; [|done]. intros [= <-].
  by eapply list_elem_of_lookup_2.
Qed.

Lemma select_unassigned_variable_unassigned self a var :
  select_unassigned_variable cw self a = Ok var →
  var ∈ variables cw ∧ dict_mem a var = false.
Proof.
  unfold select_unassigned_variable. intros H. inv_bind H.
  destruct a0 as [[vars MRV] degree].
  apply unassigned_stats_vars in E. subst vars.
  enough (var ∈ filter (λ v, dict_mem a v = false) (variables cw)) as Hin.
  { apply list_elem_of_filter in Hin. tauto. }
  inv_bind H. case_decide.
  - inv_bind H. inv_bind H. inv_bind H. by eapply list_nth_elem_of.
  - inv_bind H. by eapply list_nth_elem_of.
Qed.

Lemma filter_length_lt {A} (P Q : A → Prop) `{!∀ x, Decision (P x)}
    `{!∀ x, Decision (Q x)} (l : list A) x0 :
  (∀ x, P x → Q x) → x0 ∈ l → Q x0 → ¬ P x0 →
  length (filter P l) < length (filter Q l).
Proof.
  intros HPQ Hin HQ HP.
  assert (Hle : ∀ k : list A, length (filter P k) ≤ length (filter Q k)).
  { induction k as [|y k IH]; [done|]. rewrite !filter_cons.
    destruct (decide (P y)) as [HPy|HPy].
    - rewrite decide_True by auto. simpl. lia.
    - destruct (decide (Q y)); simpl; lia. }
  induction l as [|y l IH]; [by apply elem_of_nil in Hin|].
  rewrite !filter_cons. apply elem_of_cons in Hin as [<-|Hin].
  - rewrite decide_False, decide_True by done. simpl.
    specialize (Hle l). lia.
  - specialize (IH Hin). destruct (decide (P y)) as [HPy|HPy].
    + rewrite decide_True by auto. simpl. lia.
    + destruct (decide (Q y)); simpl; lia.
Qed.

Lemma unassigned_dict_set a var value :
  var ∈ variables cw → dict_mem a var = false →
  unassigned cw (dict_set a var value) < unassigned cw a.
Proof.
  intros Hin Hvar. unfold unassigned.
  apply (filter_length_lt _ _ _ var); try done.
  - intros v. rewrite !dict_mem_false, dict_get_set. by case_decide.
  - rewrite dict_mem_false, dict_get_set, decide_True; done.
Qed.

Lemma fuel_free_try_values rec self a var values :
  (∀ s v, fuel_free (rec s (dict_set a var v))) →
  fuel_free (try_values cw rec self a var values).
Proof.
  intros Hrec. revert self.
  induction values as [|value values IH]; simpl; intros self;
    repeat fuel_step.
Qed.

Lemma backtrack_fuel fuel self a :
  unassigned cw a < fuel → fuel_free (backtrack cw fuel self a).
Proof.
  revert self a. induction fuel as [|fuel IH]; intros self a Hfuel; [lia|].
  simpl. destruct (assignment_complete cw a); [apply fuel_free_Ok|].
  apply fuel_free_bind; [auto with fuel|]. intros var Hvar.
  apply fuel_free_bind; [auto with fuel|]. intros values _.
  apply fuel_free_try_values. intros s v. apply IH.
  apply select_unassigned_variable_unassigned in Hvar as [Hin Hun].
  pose proof (unassigned_dict_set a var v Hin Hun). lia.
Qed.

Lemma solve_fuel_free self : fuel_free (solve cw self).
Proof.
  unfold solve. apply fuel_free_bind.
  { unfold enforce_node_consistency.
    generalize (variables cw). intros vars. revert self.
    induction vars; simpl; intros; repeat fuel_step. }
  intros self1 _. apply fuel_free_bind; [auto with fuel|].
  intros [b self2] _. apply backtrack_fuel. unfold unassigned.
  pose proof (length_filter (λ v, dict_mem ([] : list (Var * string)) v = false)
                (variables cw)). lia.
Qed.

(** ** A returned assignment is complete and consistent *)

Lemma try_values_valid rec self a var values res self' :
  (∀ s a' r s', consistent cw a' = Ok true → rec s a' = Ok (Some r, s') →
                valid cw r) →
  try_values cw rec self a var values = Ok (Some res, self') → valid cw res.
Proof.
  intros Hrec. revert self.
  induction values as [|value values IH]; simpl; intros self H; [done|].
  inv_bind H. destruct a0; [|eauto].
  inv_bind H. inv_bind H. destruct a1 as [inferences self1].
  destruct inferences; simpl in H; [|eauto].
  inv_bind H. destruct a1 as [r self2].
  destruct (truthy r) eqn:Htruthy.
  - injection H as -> <-. eauto.
  - inv_bind H. eauto.
Qed.

Lemma backtrack_valid fuel self a res self' :
  consistent cw a = Ok true →
  backtrack cw fuel self a = Ok (Some res, self') → valid cw res.
Proof.
  revert self a res self'.
  induction fuel as [|fuel IH]; simpl; intros self a res self' Ha H; [done|].
  destruct (assignment_complete cw a) eqn:Hc.
  - injection H as <- <-. by split.
  - inv_bind H. inv_bind H. eapply try_values_valid; [|done]. eauto.
Qed.
End search.

(** ** What the search does to the store *)

Section frame.
Variable cw : Crossword.

Lemma revise_domains self x y b self' :
  revise cw self x y = Ok (b, self') → domains self' = domains self.
Proof.
  by intros [[_ ->]|[_ (lx & dx & rm & _ & _ & _ & _ & ->)]]%revise_shape.
Qed.

Lemma ac3_loop_domains fuel self arcs b self' :
  ac3_loop cw fuel self arcs = Ok (b, self') → domains self' = domains self.
Proof.
  intros H.
  apply (ac3_loop_inv cw (λ s _, domains s = domains self)) in H;
    [| | |done].
  - destruct b; [done|]. destruct H as (s0 & x & y & _ & <- & Hrev & _).
    by eapply revise_domains.
  - done.
  - intros s x y _ s' <- Hrev. by eapply revise_domains.
Qed.

Lemma ac3_frame self arcs b self' :
  ac3 cw self arcs = Ok (b, self') →
  domains self' = domains self ∧ narrows self' self.
Proof.
  unfold ac3. intros H. inv_bind H.
  eauto using ac3_loop_domains, ac3_loop_narrows.
Qed.

Lemma snapshot_spec self vars m m' :
  snapshot self vars m = Ok m' →
  (∀ v, v ∈ vars → m' !! v = domains self !! v ∧ is_Some (m' !! v)) ∧
  (∀ v, v ∉ vars → m' !! v = m !! v).
Proof.
  revert m. induction vars as [|u vars IH]; simpl; intros m H.
  { injection H as <-. split; [by intros ? ?%elem_of_nil | done]. }
  inv_bind H. apply domains_get_Ok in E.
  destruct (IH _ H) as [Hin Hout]. split.
  - intros v Hv. destruct (decide (v ∈ vars)) as [|Hn]; [auto|].
    apply elem_of_cons in Hv as [->|?]; [|done].
    rewrite Hout, lookup_insert_eq, E by done. eauto.
  - intros v [Hne Hn]%not_elem_of_cons.
    rewrite Hout by done. by rewrite lookup_insert_ne.
Qed.

(** Restoring the recorded set objects rebinds every slot to the object
    it is bound to already: the store is left as it is. *)
Lemma restore_same self vars m :
  (∀ v, v ∈ vars → m !! v = domains self !! v ∧ is_Some (m !! v)) →
  restore self vars m = Ok self.
Proof.
  induction vars as [|u vars IH]; simpl; intros Hm; [done|].
  destruct (Hm u) as [Hu [l Hl]]; [by left|]. rewrite Hl.
  assert (domains_set self u l = self) as ->.
  { destruct self as [dm hp]. unfold domains_set. simpl in *. f_equal.
    apply insert_id. congruence. }
  apply IH. intros v Hv. apply Hm. by right.
Qed.

Lemma restore_after_snapshot self self' vars m :
  snapshot self vars ∅ = Ok m → domains self' = domains self →
  restore self' vars m = Ok self'.
Proof.
  intros [Hin _]%snapshot_spec Hd. apply restore_same. intros v Hv.
  rewrite Hd. auto.
Qed.

Lemma try_values_frame rec self a var values r self' :
  (∀ s a' r' s', rec s a' = Ok (r', s') →
                 domains s' = domains s ∧ narrows s' s) →
  try_values cw rec self a var values = Ok (r, self') →
  domains self' = domains self ∧ narrows self' self.
Proof.
  intros Hrec. revert self.
  induction values as [|value values IH]; simpl; intros self H.
  { injection H as <- <-. split; [done | apply narrows_refl]. }
  inv_bind H. destruct a0; [|eauto].
  inv_bind H. inv_bind H. destruct a1 as [inferences self1].
  apply ac3_frame in E1 as [Hd1 Hn1].
  destruct inferences; simpl in H.
  2:{ apply IH in H as [Hd Hn]. split; [congruence|].
      by eapply narrows_trans. }
  inv_bind H. destruct a1 as [res self2].
  apply Hrec in E1 as [Hd2 Hn2].
  destruct (truthy res).
  { injection H as <- <-. split; [congruence|]. by eapply narrows_trans. }
  inv_bind H.
  rewrite (restore_after_snapshot self self2) in E1 by congruence.
  injection E1 as <-. apply IH in H as [Hd Hn]. split; [congruence|].
  eauto using narrows_trans.
Qed.

Lemma backtrack_frame fuel self a r self' :
  backtrack cw fuel self a = Ok (r, self') →
  domains self' = domains self ∧ narrows self' self.
Proof.
  revert self a r self'.
  induction fuel as [|fuel IH]; simpl; intros self a r self' H; [done|].
  destruct (assignment_complete cw a).
  { injection H as <- <-. split; [done | apply narrows_refl]. }
  inv_bind H. inv_bind H. eapply try_values_frame; [|done]. eauto.
Qed.
End frame.

(** ** The search returns on a well-formed puzzle *)

Lemma foldl_min_elem l a : foldl Nat.min a l ∈ a :: l.
Proof.
  revert a. induction l as [|b l IH]; intros a; simpl; [by left|].
  specialize (IH (a `min` b)). apply elem_of_cons in IH as [->|?].
  - destruct (Nat.min_dec a b) as [->| ->]; [by left | right; by left].
  - right. by right.
Qed.

Lemma foldl_max_elem l a : foldl Nat.max a l ∈ a :: l.
Proof.
  revert a. induction l as [|b l IH]; intros a; simpl; [by left|].
  specialize (IH (a `max` b)). apply elem_of_cons in IH as [->|?].
  - destruct (Nat.max_dec a b) as [->| ->]; [by left | right; by left].
  - right. by right.
Qed.

Lemma list_min_total l : l ≠ [] → ∃ m, list_min l = Ok m ∧ m ∈ l.
Proof.
  destruct l as [|a l]; [done|]. intros _. eexists. split; [done|].
  apply foldl_min_elem.
Qed.

Lemma list_max_total l : l ≠ [] → ∃ m, list_max l = Ok m ∧ m ∈ l.
Proof.
  destruct l as [|a l]; [done|]. intros _. eexists. split; [done|].
  apply foldl_max_elem.
Qed.

Lemma list_index_total l v :
  v ∈ l → ∃ k, list_index l v = Ok k ∧ k < length l.
Proof.
  induction l as [|a l IH]; simpl; [by intros ?%elem_of_nil|].
  intros Hv. destruct (decide (a = v)) as [|Hne].
  - exists 0. split; [done|lia].
  - apply elem_of_cons in Hv as [->|Hv]; [done|].
    destruct (IH Hv) as (k & -> & Hk). exists (S k). split; [done|lia].
Qed.

Lemma list_nth_total {A} (l : list A) k :
  k < length l → ∃ a, list_nth l k = Ok a.
Proof.
  intros Hk. unfold list_nth.
  destruct (lookup_lt_is_Some_2 l k Hk) as [a ->]. eauto.
Qed.

Lemma result_map_total {A B} (f : A → result B) l :
  (∀ a, a ∈ l → ∃ b, f a = Ok b) →
  ∃ bs, result_map f l = Ok bs ∧ length bs = length l.
Proof.
  induction l as [|a l IH]; simpl; intros Hf; [by exists []|].
  destruct (Hf a) as [b ->]; [by left|].
  destruct IH as (bs & -> & Hlen); [intros; apply Hf; by right|].
  exists (b :: bs). split; [done|]. simpl. by rewrite Hlen.
Qed.

Lemma dict_set_fresh {K V} `{EqDecision K} (d : list (K * V)) k v :
  dict_get d k = None → dict_set d k v = d ++ [(k, v)].
Proof.
  induction d as [|[k' v'] d IH]; simpl; [done|].
  case_decide; [done|]. intros Hd. by rewrite IH.
Qed.

Section total.
Variable cw : Crossword.
Hypothesis Hwf : wf_crossword cw.

Lemma unassigned_stats_total self a vs :
Forall (λ v, is_Ok (domain self v)) vs →
∃ vars MRV degree,
  unassigned_stats cw self a vs = Ok (vars, MRV, degree) ∧
  length MRV = length vars ∧ length degree = length vars.
Proof.
induction 1 as [|v vs [d Hd]%is_Ok_exists _ IH]; simpl.
{ by exists [], [], []. }
destruct IH as (vars & MRV & degree & Hrun & HM & HD).
destruct (dict_mem a v); [eauto 10|].
rewrite Hd, Hrun. simpl. do 3 eexists. split; [done|]. simpl. lia.
Qed.

Lemma select_unassigned_variable_total self a :
bound cw self → assignment_complete cw a = false →
∃ var, select_unassigned_variable cw self a = Ok var.
Proof.
intros Hb Hc. unfold select_unassigned_variable.
destruct (unassigned_stats_total self a (variables cw) Hb)
  as (vars & MRV & degree & Hrun & HM & HD).
rewrite Hrun. simpl.
assert (Hne : vars ≠ []).
{ apply unassigned_stats_vars in Hrun as ->. intros Hnil.
  enough (assignment_complete cw a = true) by congruence.
  apply assignment_complete_spec. intros v Hv.
  apply dict_mem_true. destruct (dict_mem a v) eqn:Hm; [done|].
  assert (Hin : v ∈ filter (λ v, dict_mem a v = false) (variables cw))
    by by apply list_elem_of_filter.
  rewrite Hnil in Hin. by apply elem_of_nil in Hin. }
destruct (list_min_total MRV) as (min_val & -> & Hmin).
{ intros ->. destruct vars; done. }
simpl. case_decide as Hcount.
- set (degree_index := (filter _ (imap pair MRV)).*1).
  destruct (result_map_total (list_nth degree) degree_index)
    as (min_degree & Hmd & Hlen).
  { intros k Hk. apply list_nth_total.
    apply list_elem_of_fmap in Hk as ([k' x] & -> & Hk).
    apply list_elem_of_filter in Hk as [_ Hk].
    apply list_elem_of_lookup in Hk as [n Hn].
    rewrite list_lookup_imap in Hn.
    destruct (MRV !! n) eqn:Hx; simplify_eq/=.
    apply lookup_lt_Some in Hx. lia. }
  rewrite Hmd. simpl.
  destruct (list_max_total min_degree) as (m & -> & Hm).
  { intros ->. simpl in Hlen. subst degree_index.
    destruct (filter _ _) eqn:Hf; [|done].
    unfold list_count in Hcount. simpl in *.
    apply list_elem_of_lookup in Hmin as [n Hn].
    assert (Hin : (n, min_val) ∈ filter (λ ix : nat * nat, ix.2 = min_val)
                                        (imap pair MRV)).
    { apply list_elem_of_filter. split; [done|].
      apply list_elem_of_lookup. exists n.
      by rewrite list_lookup_imap, Hn. }
    rewrite Hf in Hin. by apply elem_of_nil in Hin. }
  simpl.
  assert (Hmdeg : m ∈ degree).
  { clear -Hmd Hm. revert min_degree Hmd Hm.
    induction degree_index as [|k ks IH]; simpl; intros md Hmd Hm.
    - injection Hmd as <-. by apply elem_of_nil in Hm.
    - destruct (list_nth degree k) as [x|] eqn:Hx; [|done]. simpl in Hmd.
      destruct (result_map (list_nth degree) ks) as [xs|]; [|done].
      injection Hmd as <-. apply elem_of_cons in Hm as [->|Hm]; [|eauto].
      by eapply list_nth_elem_of. }
  destruct (list_index_total degree m Hmdeg) as (idx & -> & Hidx). simpl.
  apply list_nth_total. lia.
- destruct (list_index_total MRV min_val Hmin) as (idx & -> & Hidx). simpl.
  apply list_nth_total. lia.
Qed.

Lemma count_conflicts_total value i j nvs n :
i < String.length value → Forall (λ v, j < String.length v) nvs →
∃ n', count_conflicts value (Some (i, j)) nvs n = Ok n'.
Proof.
intros Hi Hj. revert n. induction Hj as [|v nvs Hv _ IH]; intros n; simpl.
{ eauto. }
destruct (str_index_total value i Hi) as [c1 ->].
destruct (str_index_total v j Hv) as [c2 ->]. simpl. apply IH.
Qed.

Lemma count_neighbors_total self var a value nbs n :
store_wf cw self → node_consistent cw self → var ∈ variables cw →
String.length value = var_length var → nbs ⊆ neighbors cw var →
∃ n', count_neighbors cw self var a value nbs n = Ok n'.
Proof.
intros [Hb Hsep] Hnc Hvar Hlen. revert n.
induction nbs as [|nb nbs IH]; intros n Hsub; simpl; [eauto|].
assert (Hrest : nbs ⊆ neighbors cw var) by (intros ? ?; apply Hsub; by right).
destruct (dict_mem a nb); [by apply IH|].
assert (Hnb : nb ∈ neighbors cw var) by (apply Hsub; by left).
destruct (neighbors_sym cw Hwf _ _ Hvar Hnb) as (i & j & Ho & _).
destruct (wf_overlap_of cw Hwf _ _ _ _ Ho) as (_ & Hnbv & _ & Hi & Hj & _).
destruct (bound_domain cw _ _ Hb Hnbv) as [dn Hdn].
rewrite Ho, Hdn. simpl.
destruct (count_conflicts_total value i j dn n) as [n' ->]; [lia| |].
- apply Forall_forall. intros w Hw.
  by rewrite (node_consistent_length cw _ _ _ _ Hnc Hnbv Hdn Hw).
- simpl. by apply IH.
Qed.

Lemma order_domain_values_total self var a :
store_wf cw self → node_consistent cw self → var ∈ variables cw →
∃ values, order_domain_values cw self var a = Ok values ∧
          Forall (λ v, String.length v = var_length var) values.
Proof.
intros Hst Hnc Hvar. unfold order_domain_values.
destruct (bound_domain cw _ _ (proj1 Hst) Hvar) as [d Hd].
rewrite Hd. simpl.
assert (Hlen : Forall (λ v, String.length v = var_length var) d).
{ apply Forall_forall. intros w Hw.
  by apply (node_consistent_length cw _ _ _ _ Hnc Hvar Hd). }
destruct (result_map_total
            (λ value, count_neighbors cw self var a value
                        (neighbors cw var) 0) d) as (dv & -> & Hdv).
{ intros value Hvalue. apply count_neighbors_total; try done.
  rewrite Forall_forall in Hlen. auto. }
simpl. eexists. split; [done|].
rewrite merge_sort_Permutation, snd_zip by lia. done.
Qed.

Lemma snapshot_total self vars m :
Forall (λ v, is_Ok (domain self v)) vars →
∃ m', snapshot self vars m = Ok m'.
Proof.
intros Hb. revert m. induction Hb as [|v vars Hv _ IH]; intros m; simpl.
{ eauto. }
apply is_Ok_exists in Hv as [d (l & Hl & _)%domain_Ok].
apply domains_get_Ok in Hl. rewrite Hl. simpl. apply IH.
Qed.

Lemma extend_assignment a var value :
dict_get a var = None → NoDup a.*1 → lengths_match a →
String.length value = var_length var →
NoDup (dict_set a var value).*1 ∧ lengths_match (dict_set a var value).
Proof.
intros Hvar Hnd Hlen Hvalue. rewrite dict_set_fresh by done. split.
- rewrite fmap_app. apply NoDup_app. split; [done|]. split.
  + intros k Hk [->|[]%elem_of_nil]%elem_of_cons.
    by apply dict_get_None in Hvar.
  + apply NoDup_singleton.
- apply Forall_app. split; [done|]. by apply Forall_singleton.
Qed.

Lemma ac3_searchable self arcs :
searchable cw self → keyed cw arcs →
∃ b self', ac3 cw self (Some arcs) = Ok (b, self') ∧ searchable cw self' ∧
           domains self' = domains self.
Proof.
intros [Hst Hnc] Hkeys. unfold ac3. cbn [bind].
destruct (ac3_loop_total cw Hwf (ac3_fuel cw self arcs) self arcs)
  as [[b self'] Hrun]; try done.
{ unfold ac3_fuel. lia. }
exists b, self'. split; [done|]. split; [split|].
- by eapply ac3_loop_store_wf.
- eapply narrows_node_consistent; [|done]. by eapply ac3_loop_narrows.
- by eapply ac3_loop_domains.
Qed.

Lemma try_values_total rec self a var values :
searchable cw self → var ∈ variables cw → dict_get a var = None →
NoDup a.*1 → lengths_match a →
Forall (λ v, String.length v = var_length var) values →
(∀ s v, searchable cw s → String.length v = var_length var →
        ∃ r s', rec s (dict_set a var v) = Ok (r, s') ∧ searchable cw s' ∧
                domains s' = domains s) →
∃ r s', try_values cw rec self a var values = Ok (r, s') ∧ searchable cw s' ∧
        domains s' = domains self.
Proof.
intros Hinv Hvar Hfresh Hnd Hlen Hvalues Hrec. revert self Hinv.
induction Hvalues as [|value values Hvalue _ IH]; intros self Hinv; simpl.
{ eauto 10. }
destruct (extend_assignment a var value) as [Hnd' Hlen']; try done.
destruct (consistent_spec cw Hwf _ Hnd' Hlen') as (ok & -> & _). simpl.
destruct ok; [|by apply IH].
destruct (snapshot_total self (variables cw) ∅) as [m Hm].
{ apply Hinv. }
rewrite Hm. simpl.
destruct (ac3_searchable self
            (map (λ neighbor, (neighbor, var)) (neighbors cw var)))
  as (inferences & self1 & -> & Hinv1 & Hd1); [done| |].
{ apply Forall_forall. intros arc (nb & -> & Hnb)%list_elem_of_fmap.
  apply elem_of_neighbors in Hnb as (_ & _ & o & Ho). simpl. by rewrite Ho. }
simpl. destruct inferences; simpl.
2:{ destruct (IH self1 Hinv1) as (r & s' & -> & ? & ?). exists r, s'.
    split; [done|]. split; [done|congruence]. }
destruct (Hrec self1 value Hinv1 Hvalue) as (res & self2 & -> & Hinv2 & Hd2).
simpl. destruct (truthy res).
{ exists res, self2. split; [done|]. split; [done|congruence]. }
rewrite (restore_after_snapshot self self2 _ _ Hm) by congruence. simpl.
destruct (IH self2 Hinv2) as (r & s' & -> & ? & ?). exists r, s'.
split; [done|]. split; [done|congruence].
Qed.

Lemma backtrack_total fuel self a :
unassigned cw a < fuel → searchable cw self → NoDup a.*1 → lengths_match a →
∃ r s', backtrack cw fuel self a = Ok (r, s') ∧ searchable cw s' ∧
        domains s' = domains self.
Proof.
revert self a. induction fuel as [|fuel IH]; intros self a Hfuel Hinv Hnd Hlen;
  [lia|].
simpl. destruct (assignment_complete cw a) eqn:Hc; [eauto 10|].
destruct (select_unassigned_variable_total self a) as [var Hsel];
  [apply Hinv | done |].
rewrite Hsel. simpl.
apply select_unassigned_variable_unassigned in Hsel as [Hvar Hun].
destruct (order_domain_values_total self var a) as (values & -> & Hvalues);
  [apply Hinv | apply Hinv | done |].
simpl. apply dict_mem_false in Hun as Hfresh.
apply try_values_total; try done.
intros s v Hs Hv.
destruct (extend_assignment a var v) as [Hnd' Hlen']; try done.
apply IH; try done.
pose proof (unassigned_dict_set cw a var v Hvar Hun). lia.
Qed.

(** On a well-formed puzzle [solve] raises no exception: it returns an
  assignment or the no-solution marker. *)
Lemma solve_total :
∃ r self', solve cw (init cw) = Ok (r, self').
Proof.
unfold solve.
destruct (enforce_node_consistency_spec cw (init cw) (init_bound cw))
  as (self1 & -> & Hst1 & Hnc1 & _).
simpl.
destruct (ac3_total cw Hwf self1 Hst1 Hnc1) as [[b self2] Hac3].
rewrite Hac3. simpl.
pose proof Hac3 as [_ Hn]%ac3_frame.
unfold ac3 in Hac3. apply bind_Ok in Hac3 as (arcs & _ & Hloop).
destruct (backtrack_total (S (length (variables cw))) self2 [])
  as (r & s' & Hrun & _).
- unfold unassigned.
  pose proof (length_filter (λ v, dict_mem ([] : list (Var * string)) v = false)
                (variables cw)). lia.
- split; [by eapply ac3_loop_store_wf|].
  by eapply narrows_node_consistent.
- apply NoDup_nil_2.
- apply Forall_nil_2.
- eauto.
Qed.
End total.

(** ** The runs of [revise] that remove nothing *)

Lemma revise_scan_all_differ self y i j dy ws ch rm r :
  domain self y = Ok dy →
  revise_scan self y i j ws ch rm = Ok r →
  Forall (λ w, is_Ok (all_differ w i j dy)) ws.
Proof.
  intros Hdy. revert ch rm.
  induction ws as [|w ws IH]; simpl; intros ch rm Hrun; [constructor|].
  rewrite Hdy in Hrun. simpl in Hrun. inv_bind Hrun.
  constructor; [by rewrite E|]. destruct a; eauto.
Qed.

Lemma revise_scan_supported self y i j dy ws ch rm :
  domain self y = Ok dy →
  Forall (λ w, is_Ok (all_differ w i j dy)) ws →
  Forall (supported i j dy) ws →
  revise_scan self y i j ws ch rm = Ok (ch, rm).
Proof.
  intros Hdy Hok. induction Hok as [|w ws [b Hb]%is_Ok_exists _ IH];
    intros Hsup; simpl; [done|].
  apply Forall_cons in Hsup as [Hw Hsup].
  rewrite Hdy. simpl. rewrite Hb. simpl.
  apply all_differ_spec in Hb. rewrite bool_decide_eq_false_2 in Hb by tauto.
  subst b. by apply IH.
Qed.

Lemma revise_scan_flag self y i j ws rm ch' rm' :
  revise_scan self y i j ws true rm = Ok (ch', rm') → ch' = true.
Proof.
  revert rm. induction ws as [|w ws IH]; simpl; intros rm H.
  { by injection H as <- _. }
  inv_bind H. inv_bind H. destruct a0; eauto.
Qed.

Lemma revise_scan_unchanged self y i j dy ws ch rm rm' :
  domain self y = Ok dy →
  revise_scan self y i j ws ch rm = Ok (false, rm') →
  Forall (λ w, all_differ w i j dy = Ok false) ws.
Proof.
  intros Hdy. revert ch rm.
  induction ws as [|w ws IH]; simpl; intros ch rm H; [constructor|].
  rewrite Hdy in H. cbn [bind] in H. inv_bind H. destruct a.
  - by apply revise_scan_flag in H.
  - constructor; eauto.
Qed.

Lemma revise_scan_checked self y i j dy ws ch rm :
  domain self y = Ok dy →
  Forall (λ w, all_differ w i j dy = Ok false) ws →
  revise_scan self y i j ws ch rm = Ok (ch, rm).
Proof.
  intros Hdy. induction 1 as [|w ws Hw _ IH]; simpl; [done|].
  rewrite Hdy. cbn [bind]. by rewrite Hw.
Qed.

(** dropping partners that do not agree with [w] changes nothing to the
    search of a partner for [w] *)
Lemma all_differ_filter (P : string → Prop) `{!∀ v, Decision (P v)}
    w i j others :
  all_differ w i j others = Ok false →
  (∀ v, v ∈ others → agree i j w v → P v) →
  all_differ w i j (filter P others) = Ok false.
Proof.
  induction others as [|other others IH]; simpl; intros Hrun HP; [done|].
  inv_bind Hrun. inv_bind Hrun. rename a into c1. rename a0 into c2.
  rewrite filter_cons.
  assert (Hrest : ∀ v, v ∈ others → agree i j w v → P v)
    by (intros v Hv; apply HP; by right).
  destruct (decide (c1 ≠ c2)) as [Hne|Heq].
  - destruct (decide (P other)); [|by apply IH].
    simpl. rewrite E, E0. cbn [bind]. rewrite decide_True by done.
    by apply IH.
  - rewrite decide_True.
    + simpl. rewrite E, E0. cbn [bind]. by rewrite decide_False.
    + apply HP; [by left|]. rewrite (agree_index _ _ _ _ _ _ E E0).
      apply bool_decide_pack. by destruct (decide (c1 = c2)).
Qed.

Section checked.
Variable cw : Crossword.
Hypothesis Hwf : wf_crossword cw.

Lemma revise_false_checked self x y :
  store_wf cw self → revise cw self x y = Ok (false, self) →
  checked cw self x y.
Proof.
  intros Hst Hrev i j dx dy Ho Hdx Hdy.
  unfold revise in Hrev. rewrite Ho in Hrev. cbn [bind] in Hrev.
  rewrite Hdx in Hrev. cbn [bind] in Hrev. inv_bind Hrev.
  destruct a as [change to_remove]. inv_bind Hrev.
  injection Hrev as -> _. by eapply revise_scan_unchanged.
Qed.

(** A revision of [x] against [y] keeps every arc checked that was,
    except those into [x] from a third slot, which are queued again. *)
Lemma revise_true_checked self x y self' a b :
  store_wf cw self → revise cw self x y = Ok (true, self') →
  is_Ok (overlap_of cw a b) →
  ((a, b) = (x, y) ∨ checked cw self a b) →
  (a, b) ∈ requeue cw x y ∨ checked cw self' a b.
Proof.
  intros Hst Hrev Hab Hold.
  destruct (overlap_of cw x y) as [[[i j]|]|] eqn:Ho.
  2:{ rewrite revise_no_overlap in Hrev; done. }
  2:{ unfold revise in Hrev. by rewrite Ho in Hrev. }
  destruct (revise_overlap cw Hwf _ _ _ _ _ _ _ Hst Ho Hrev)
    as (dx & dy & Hdx & Hdy & Hdx' & Hother & _ & Hst').
  destruct (wf_overlap_of cw Hwf _ _ _ _ Ho) as (Hx & Hy & Hxy & _ & _ & Hyx).
  assert (Hran : Forall (λ w, is_Ok (all_differ w i j dy)) dx).
  { unfold revise in Hrev. rewrite Ho in Hrev. cbn [bind] in Hrev.
    rewrite Hdx in Hrev. cbn [bind] in Hrev. inv_bind Hrev.
    destruct a0 as [change to_remove]. by eapply revise_scan_all_differ. }
  apply is_Ok_exists in Hab as [[[ia jb]|] Hab].
  2:{ right. intros i' j' da db Ho'. congruence. }
  destruct (decide (a = x)) as [->|Hax].
  - (* an arc out of [x]: its domain shrank, its partners did not *)
    right. intros i' j' dx1 db Ho' Hdx1 Hdb.
    destruct (wf_overlap_of cw Hwf _ _ _ _ Ho') as (_ & Hb & Hxb & _).
    rewrite Hdx' in Hdx1. injection Hdx1 as <-.
    rewrite Hother in Hdb by done.
    destruct Hold as [[= ->]|Hold].
    + rewrite Ho in Ho'. injection Ho' as <- <-.
      rewrite Hdy in Hdb. injection Hdb as <-.
      apply Forall_forall. intros w [Hsup Hw]%list_elem_of_filter.
      rewrite Forall_forall in Hran.
      pose proof (Hran w Hw) as Hc. apply is_Ok_exists in Hc as [c Hc].
      rewrite Hc.
      apply all_differ_spec in Hc as ->.
      by rewrite bool_decide_eq_false_2 by tauto.
    + specialize (Hold _ _ _ _ Ho' Hdx Hdb). rewrite Forall_forall in *.
      intros w [_ Hw]%list_elem_of_filter. auto.
  - destruct Hold as [[=]|Hold]; [done|].
    destruct (decide (b = x)) as [->|Hbx].
    + destruct (decide (a = y)) as [->|Hay].
      * (* the arc back from [y]: the partner found for a word of the
           domain of [y] agrees with it, and so was kept *)
        right. intros j' i' dy1 dx1 Ho' Hdy1 Hdx1.
        rewrite Hother in Hdy1 by done.
        rewrite Hdy in Hdy1. injection Hdy1 as <-.
        rewrite Hdx' in Hdx1. injection Hdx1 as <-.
        rewrite Hyx in Ho'. injection Ho' as <- <-.
        specialize (Hold _ _ _ _ Hyx Hdy Hdx). rewrite Forall_forall in *.
        intros w Hw. apply all_differ_filter; [by apply Hold|].
        intros v Hv Hag. apply Exists_exists. exists w. split; [done|].
        by rewrite agree_sym.
      * (* an arc into [x] from a third slot *)
        left. apply elem_of_requeue. exists a. split; [done|].
        split; [|done]. apply elem_of_neighbors.
        destruct (wf_overlap_of cw Hwf _ _ _ _ Hab) as (? & _). eauto.
    + (* neither end is [x] *)
      right. intros i' j' da db Ho' Hda Hdb.
      destruct (wf_overlap_of cw Hwf _ _ _ _ Ho') as (Ha & Hb & _).
      rewrite Hother in Hda, Hdb by done. eauto.
Qed.

Lemma ac3_loop_checked fuel self arcs self' :
  queued_or_checked cw self arcs →
  ac3_loop cw fuel self arcs = Ok (true, self') →
  store_wf cw self' ∧ ∀ a b, checked cw self' a b.
Proof.
  intros HI H.
  apply (ac3_loop_inv cw (queued_or_checked cw)) in H; [| | |done].
  - destruct H as [Hst Hall]. split; [done|]. intros a b.
    destruct (overlap_of cw a b) as [o|e] eqn:Ho.
    + destruct (Hall a b) as [[]%elem_of_nil|?]; [|done]. by rewrite Ho.
    + intros i j dx dy Ho'. congruence.
  - intros s x y rest [Hst Hall] Hrev. split; [done|]. intros a b Hab.
    destruct (Hall a b Hab) as [[[= -> ->]|?]%elem_of_cons|?]; auto.
    right. by apply revise_false_checked.
  - intros s x y rest s' [Hst Hall] Hrev. split.
    { by eapply revise_store_wf. }
    intros a b Hab. rewrite elem_of_app.
    destruct (Hall a b Hab) as [[Heq|?]%elem_of_cons|Hok]; [|by auto|];
      destruct (revise_true_checked _ _ _ _ a b Hst Hrev Hab); auto.
Qed.

(** when every arc is checked the loop revises nothing *)
Lemma ac3_loop_checked_stable arcs fuel self :
  store_wf cw self → keyed cw arcs →
  (∀ a b, checked cw self a b) → length arcs < fuel →
  ac3_loop cw fuel self arcs = Ok (true, self).
Proof.
  intros Hst Hkeys Hok. revert fuel.
  induction Hkeys as [|[x y] arcs Hxy _ IH]; intros [|fuel] Hfuel;
    simpl in *; try lia; [done|].
  assert (Hrev : revise cw self x y = Ok (false, self)).
  { apply is_Ok_exists in Hxy as [[[i j]|] Ho].
    - destruct (wf_overlap_of cw Hwf _ _ _ _ Ho) as (Hx & Hy & _).
      destruct (bound_domain cw _ _ (proj1 Hst) Hx) as [dx Hdx].
      destruct (bound_domain cw _ _ (proj1 Hst) Hy) as [dy Hdy].
      unfold revise. rewrite Ho. cbn [bind]. rewrite Hdx. cbn [bind].
      rewrite (revise_scan_checked self y i j dy); [done|done|].
      by apply (Hok x y i j dx dy).
    - by apply revise_no_overlap. }
  rewrite Hrev. cbn [bind]. apply IH. lia.
Qed.
End checked.

(** ** The assignments that the search returns *)

Section search_results.
Variable cw : Crossword.

(** a result of the loop over the candidate words is the result of the
    recursive call for one of them *)
Lemma try_values_source rec self a var values res self' :
  (∀ s a' r' s', rec s a' = Ok (r', s') →
                 domains s' = domains s ∧ narrows s' s) →
  try_values cw rec self a var values = Ok (Some res, self') →
  ∃ value s s',
    value ∈ values ∧ narrows s self ∧
    consistent cw (dict_set a var value) = Ok true ∧
    rec s (dict_set a var value) = Ok (Some res, s').
Proof.
  intros Hrec. revert self.
  induction values as [|value values IH]; simpl; intros self H; [done|].
  assert (Hnext : ∀ s, narrows s self →
            try_values cw rec s a var values = Ok (Some res, self') →
            ∃ value0 s0 s', value0 ∈ value :: values ∧ narrows s0 self ∧
              consistent cw (dict_set a var value0) = Ok true ∧
              rec s0 (dict_set a var value0) = Ok (Some res, s')).
  { intros s Hs Hrun. destruct (IH _ Hrun) as (v0 & s0 & s' & ? & ? & ? & ?).
    exists v0, s0, s'. split_and!; [by right| |done|done].
    by eapply narrows_trans. }
  inv_bind H. destruct a0; [|apply (Hnext self); [apply narrows_refl|done]].
  inv_bind H. inv_bind H. destruct a1 as [inferences self1].
  apply ac3_frame in E1 as [Hd1 Hn1].
  destruct inferences; simpl in H; [|by apply (Hnext self1)].
  inv_bind H. destruct a1 as [r self2].
  pose proof (Hrec _ _ _ _ E1) as [Hd2 Hn2].
  destruct (truthy r) eqn:Htruthy.
  - injection H as -> <-. exists value, self1, self2.
    split_and!; [by left|done|done|done].
  - inv_bind H.
    rewrite (restore_after_snapshot self self2) in E2 by congruence.
    injection E2 as <-. apply (Hnext self2); [|done].
    by eapply narrows_trans.
Qed.

Lemma backtrack_keys_NoDup fuel self a0 a self' :
  backtrack cw fuel self a0 = Ok (Some a, self') →
  NoDup a0.*1 → NoDup a.*1.
Proof.
  revert self a0 a self'.
  induction fuel as [|fuel IH]; simpl; intros self a0 a self' H; [done|].
  destruct (assignment_complete cw a0).
  { by injection H as <- <-. }
  inv_bind H. rename a1 into var. inv_bind H.
  apply select_unassigned_variable_unassigned in E as [_ Hun].
  apply dict_mem_false in Hun.
  apply try_values_source in H as (value & s & s' & _ & _ & _ & Hrec);
    [|by apply backtrack_frame].
  intros Hnd. eapply IH; [exact Hrec|].
  rewrite dict_set_fresh, fmap_app by done. simpl.
  apply NoDup_app. split_and!; [done| |apply NoDup_singleton].
  intros k Hk ->%list_elem_of_singleton. by apply dict_get_None in Hun.
Qed.

Lemma backtrack_valid_open fuel self a res self' :
  (assignment_complete cw a = true → consistent cw a = Ok true) →
  backtrack cw fuel self a = Ok (Some res, self') → valid cw res.
Proof.
  destruct fuel as [|fuel]; simpl; intros Ha H; [done|].
  destruct (assignment_complete cw a) eqn:Hc.
  - injection H as <- <-. split; auto.
  - inv_bind H. inv_bind H. eapply try_values_valid; [|done].
    intros s a' r s'. apply backtrack_valid.
Qed.

Hypothesis Hwf : wf_crossword cw.

(** what the checker accepts, in the words of the specification *)
Lemma consistent_accepted a :
  NoDup a.*1 →
  consistent cw a = Ok true ↔
  lengths_match a ∧ ¬ overlap_conflict cw a ∧ ¬ repeated_word a.
Proof.
  intros Hnd. split.
  - intros Hok. pose proof (consistent_lengths cw _ Hok) as Hlen.
    destruct (consistent_spec cw Hwf a Hnd Hlen) as (b & Hb & Hspec).
    assert (b = true) as -> by congruence.
    split_and!; [done| |]; intros Hbad.
    + discriminate (proj2 Hspec (or_introl Hbad)).
    + discriminate (proj2 Hspec (or_intror Hbad)).
  - intros (Hlen & Hnc & Hnr).
    destruct (consistent_spec cw Hwf a Hnd Hlen) as (b & Hb & Hspec).
    destruct b; [done|]. destruct (proj1 Hspec eq_refl); done.
Qed.
End search_results.

(** * The properties of the specification *)

(** [by_compute] settles a decidable statement about concrete data. *)
Ltac by_compute := apply (bool_decide_unpack _); vm_compute; exact I.

Local Open Scope string_scope.

(** C1, as stated, fails for [backtrack]: called with a dictionary that
    gives a word to every slot, [backtrack] returns this dictionary
    without a look at the words. On the puzzle [Cross], the dictionary
    that gives "ABC" to both slots comes back as it is: the two slots hold
    the same word, and disagree where they cross. *)
Lemma backtrack_validity_counterexample :
  ¬ validity_claim (Cross.puzzle ["ABC"]).
Proof.
  set (cw := Cross.puzzle ["ABC"]). intros H.
  destruct (H 1 (init cw) [(Cross.across, "ABC"); (Cross.down, "ABC")]
              [(Cross.across, "ABC"); (Cross.down, "ABC")] (init cw))
    as (_ & _ & _ & Hrep); [by_compute|reflexivity|].
  apply Hrep. exists Cross.across, Cross.down, "ABC".
  split_and!; [by_compute|reflexivity|reflexivity].
Qed.

(** C1, amended. Solution validity: on a well-formed puzzle [solve]
    returns, an assignment or the no-solution marker; an assignment
    returned by [solve], or by [backtrack] called with a dictionary that
    is not yet complete or that is itself consistent (as [solve] and the
    recursive calls do), gives a word to every slot of the puzzle and is
    consistent: the checker accepts it, every word has the length of its
    slot, the words agree where two slots overlap and no two slots hold
    the same word. *)
Theorem solution_validity cw :
  wf_crossword cw →
  (∃ r self', solve cw (init cw) = Ok (r, self')) ∧
  (∀ self a self',
     solve cw self = Ok (Some a, self') →
     consistent cw a = Ok true ∧ complete_and_consistent cw a) ∧
  (∀ fuel self a0 a self',
     NoDup a0.*1 →
     (assignment_complete cw a0 = true →
      lengths_match a0 ∧ ¬ overlap_conflict cw a0 ∧ ¬ repeated_word a0) →
     backtrack cw fuel self a0 = Ok (Some a, self') →
     consistent cw a = Ok true ∧ complete_and_consistent cw a).
Proof.
  intros Hwf.
  assert (Hback : ∀ fuel self a0 a self',
            NoDup a0.*1 →
            (assignment_complete cw a0 = true →
             lengths_match a0 ∧ ¬ overlap_conflict cw a0 ∧ ¬ repeated_word a0) →
            backtrack cw fuel self a0 = Ok (Some a, self') →
            consistent cw a = Ok true ∧ complete_and_consistent cw a).
  { intros fuel self a0 a self' Hnd Ha0 Hrun.
    assert (Hvalid : valid cw a).
    { eapply backtrack_valid_open; [|exact Hrun].
      intros Hc. by apply (consistent_accepted cw Hwf), Ha0. }
    destruct Hvalid as [Hc Hok]. split; [done|].
    pose proof (backtrack_keys_NoDup cw _ _ _ _ _ Hrun Hnd) as Hnd'.
    split; [by apply assignment_complete_spec|].
    by apply (consistent_accepted cw Hwf). }
  split_and!; [by apply solve_total| |exact Hback].
  intros self a self' Hrun. unfold solve in Hrun.
  inv_bind Hrun. inv_bind Hrun. destruct a1 as [b self2].
  eapply (Hback _ _ []); [constructor| |exact Hrun].
  intros _. split_and!; [constructor| |].
  - intros (x & y & wx & wy & i & j & Hx & _). done.
  - intros (x & y & w & _ & Hx & _). done.
Qed.

Lemma solution_validity_witness :
  let cw := Cross.puzzle ["ABC"; "BAD"; "XYZ"] in
  let a := [(Cross.across, "ABC"); (Cross.down, "BAD")] in
  (∃ r self', solve cw (init cw) = Ok (r, self')) ∧
  consistent cw a = Ok true ∧ complete_and_consistent cw a.
Proof.
  intros cw a.
  destruct (solution_validity cw) as (Hreturns & Hsolve & _); [by_compute|].
  split; [exact Hreturns|].
  apply (Hsolve (init cw) a
           (match solve cw (init cw) with
            | Ok (_, self') => self'
            | Raise _ => init cw
            end)).
  vm_compute. reflexivity.
Defined.

(** C2. Branch-scoped restoration does not happen. [backtrack] records the
    set objects themselves, [revise] narrows them in place, and the
    restoration rebinds every slot to the object it is bound to already:
    whatever ran between the snapshot and the restoration, the restoration
    returns the store as it finds it. On the puzzle [Pairs], at the first
    call of [backtrack] made by [solve]: the slot [across] is selected, its
    first candidate "ABC" is tried and rejected (its subtree fails), and
    the domain of [down] has lost "XYZ" for good, after that branch, after
    the whole call and when [solve] returns. *)
Theorem branch_restoration_fails :
  (∀ self self' vars domain_old,
     snapshot self vars ∅ = Ok domain_old → domains self' = domains self →
     restore self' vars domain_old = Ok self') ∧
  let cw := Pairs.puzzle in
  let self := searched cw in
  domain self Pairs.down = Ok ["ABC"; "BAD"; "XYZ"] ∧
  select_unassigned_variable cw self [] = Ok Pairs.across ∧
  order_domain_values cw self Pairs.across [] = Ok ["ABC"; "BAD"] ∧
  (∃ self', try_values cw (backtrack cw 4) self [] Pairs.across ["ABC"]
            = Ok (None, self') ∧
            domain self' Pairs.down = Ok ["ABC"; "BAD"]) ∧
  (∃ self', backtrack cw 5 self [] = Ok (None, self') ∧
            domain self' Pairs.down = Ok ["ABC"; "BAD"]) ∧
  (∃ self', solve cw (init cw) = Ok (None, self') ∧
            domain self' Pairs.down = Ok ["ABC"; "BAD"]).
Proof.
  split; [apply restore_after_snapshot|].
  intros cw self. split_and!; try (vm_compute; reflexivity).
  all: eexists; split; vm_compute; reflexivity.
Qed.

(** C3. The variable selection returns an unassigned slot of the puzzle,
    but does not keep to the slots of minimal domain size: the index of
    the chosen degree is searched among all unassigned slots. On the
    puzzle [Corner], at the first selection made by [solve], the slots
    [left] and [apart] tie on the minimal domain size 2, and the slot
    returned is [top], whose domain has 3 words. *)
Theorem select_ignores_minimum :
  (∀ cw self a var,
     select_unassigned_variable cw self a = Ok var →
     var ∈ variables cw ∧ dict_mem a var = false) ∧
  let cw := Corner.puzzle in
  let self := searched cw in
  domain self Corner.top = Ok ["CAT"; "COW"; "CUB"] ∧
  domain self Corner.left = Ok ["CALM"; "COLD"] ∧
  domain self Corner.apart = Ok ["CALM"; "COLD"] ∧
  length (neighbors cw Corner.top) = 1 ∧
  length (neighbors cw Corner.left) = 1 ∧
  length (neighbors cw Corner.apart) = 0 ∧
  select_unassigned_variable cw self [] = Ok Corner.top.
Proof.
  split; [apply select_unassigned_variable_unassigned|].
  intros cw self. split_and!; vm_compute; reflexivity.
Qed.

(** C4. The worklist of [ac3] behaves as described: a failure is reported
    only right after a revision that has emptied the domain of the revised
    slot, and the arcs queued after a revision of [x] against [y] are the
    arcs (z, x) for the neighbours z of [x] other than [y]. But [ac3]
    reports success although domains are empty: with a vocabulary that has
    no word of three letters, both domains of the puzzle [Cross] are empty
    after node consistency, the two arcs are revised without a change, the
    worklist drains and [ac3] returns [True]. *)
Theorem ac3_succeeds_with_empty_domain :
  (∀ cw fuel self arcs self',
     ac3_loop cw fuel self arcs = Ok (false, self') →
     ∃ self0 x y, revise cw self0 x y = Ok (true, self') ∧
                  domain self' x = Ok []) ∧
  (∀ cw x y a,
     a ∈ requeue cw x y ↔ ∃ z, a = (z, x) ∧ z ∈ neighbors cw x ∧ z ≠ y) ∧
  let cw := Cross.puzzle ["HELLO"] in
  all_arcs cw = Ok [(Cross.across, Cross.down); (Cross.down, Cross.across)] ∧
  domain (prepared cw) Cross.across = Ok [] ∧
  domain (prepared cw) Cross.down = Ok [] ∧
  ac3 cw (prepared cw) None = Ok (true, prepared cw).
Proof.
  split; [|split].
  - intros cw fuel self arcs self' H.
    apply (ac3_loop_inv cw (λ _ _, True)) in H; [|done..].
    destruct H as (s0 & x & y & _ & _ & ? & ?). eauto.
  - intros cw x y a. apply elem_of_requeue.
  - intros cw. split_and!; vm_compute; reflexivity.
Qed.

(** C5. Postcondition of [revise]: on a store where every slot has a set
    object of its own, for two different slots [x] and [y] whose words are
    long enough for the overlap indices [(i, j)], [revise] returns; the
    domain of [x] keeps exactly the words that have a partner in the domain
    of [y], every other domain is unchanged, and the result is [True]
    exactly when a word was removed. Without an overlap, [revise] returns
    [False] and leaves the store as it is. *)
Theorem revise_postcondition cw self x y dx dy :
  store_wf cw self → x ∈ variables cw → y ∈ variables cw → x ≠ y →
  domain self x = Ok dx → domain self y = Ok dy →
  (∀ i j, overlap_of cw x y = Ok (Some (i, j)) →
     Forall (λ w, i < String.length w) dx →
     Forall (λ v, j < String.length v) dy →
     ∃ b self',
       revise cw self x y = Ok (b, self') ∧
       domain self' x = Ok (filter (supported i j dy) dx) ∧
       (∀ z, z ∈ variables cw → z ≠ x → domain self' z = domain self z) ∧
       (b = true ↔ ∃ w, w ∈ dx ∧ ¬ supported i j dy w) ∧
       (b = false → self' = self)) ∧
  (overlap_of cw x y = Ok None → revise cw self x y = Ok (false, self)).
Proof.
  intros [Hb Hsep] Hx Hy Hxy Hdx Hdy. split.
  - intros i j Ho Hi Hj.
    pose proof Hdx as (lx & Hlx & Hhx)%domain_Ok.
    destruct (revise_total cw self x y i j lx dx dy) as [[b self'] Hrev];
      try done.
    destruct (revise_spec cw _ _ _ _ _ _ _ _ _ _ Ho Hlx Hhx Hdy Hrev)
      as [Hself' Hbool].
    exists b, self'. split; [done|]. split_and!.
    + subst self'. by eapply narrowed_domain_eq.
    + subst self'. intros z Hz Hzx. by apply (narrowed_domain_ne cw self x).
    + rewrite Hbool, bool_decide_eq_true, Exists_exists. done.
    + intros ->. by eapply revise_unchanged.
  - apply revise_no_overlap.
Qed.

Lemma revise_postcondition_witness :
  let cw := Cross.puzzle ["ABC"; "BAD"; "XYZ"] in
  ∃ b self',
    revise cw (prepared cw) Cross.across Cross.down = Ok (b, self') ∧
    domain self' Cross.across
    = Ok (filter (supported 0 1 ["ABC"; "BAD"; "XYZ"]) ["ABC"; "BAD"; "XYZ"]) ∧
    (∀ z, z ∈ variables cw → z ≠ Cross.across →
          domain self' z = domain (prepared cw) z) ∧
    (b = true ↔ ∃ w, w ∈ ["ABC"; "BAD"; "XYZ"]
                     ∧ ¬ supported 0 1 ["ABC"; "BAD"; "XYZ"] w) ∧
    (b = false → self' = prepared cw).
Proof.
  intros cw.
  destruct (revise_postcondition cw (prepared cw) Cross.across Cross.down
              ["ABC"; "BAD"; "XYZ"] ["ABC"; "BAD"; "XYZ"]) as [H _].
  - by_compute.
  - by_compute.
  - by_compute.
  - by_compute.
  - vm_compute. reflexivity.
  - vm_compute. reflexivity.
  - apply (H 0 1).
    + vm_compute. reflexivity.
    + by_compute.
    + by_compute.
Defined.

Local Open Scope string_scope.

(** C6. Propagation soundness and arc consistency: on a well-formed puzzle
    and a store where every slot has a set object of its own, when [ac3]
    reports failure no choice of one word per slot from the domains it
    started with agrees at every overlap; when [ac3], started from all
    arcs, reports success, every word left in the domain of a slot has a
    partner in the domain of each of its neighbours. *)
Theorem ac3_soundness cw self arcs b self' :
  wf_crossword cw → store_wf cw self →
  ac3 cw self arcs = Ok (b, self') →
  if b then arcs = None → arc_consistent cw self'
  else ∀ f, ¬ solution cw self f.
Proof.
  intros Hwf Hst H. destruct b.
  - intros ->. by eapply ac3_arc_consistent.
  - intros f. unfold ac3 in H. inv_bind H. by eapply ac3_loop_sound.
Qed.

Lemma ac3_soundness_witness :
  arc_consistent (Cross.puzzle ["ABC"; "BAD"; "XYZ"])
                 (searched (Cross.puzzle ["ABC"; "BAD"; "XYZ"])) ∧
  ∀ f, ¬ solution (Cross.puzzle ["ABC"]) (prepared (Cross.puzzle ["ABC"])) f.
Proof.
  split.
  - apply (ac3_soundness (Cross.puzzle ["ABC"; "BAD"; "XYZ"])
             (prepared (Cross.puzzle ["ABC"; "BAD"; "XYZ"])) None true);
      [by_compute | by_compute | vm_compute; reflexivity | reflexivity].
  - apply (ac3_soundness (Cross.puzzle ["ABC"])
             (prepared (Cross.puzzle ["ABC"])) None false
             (searched (Cross.puzzle ["ABC"])));
      [by_compute | by_compute | vm_compute; reflexivity].
Defined.

(** C7, as stated, fails: with the single word "ABC" on the puzzle [Cross],
    the first run empties the domain of [across] and stops, leaving "ABC"
    in the domain of [down]; the second run removes it. *)
Lemma ac3_idempotence_counterexample :
  ¬ ac3_idempotent_claim (Cross.puzzle ["ABC"]) (prepared (Cross.puzzle ["ABC"])).
Proof.
  set (cw := Cross.puzzle ["ABC"]). intros H.
  pose (self2 := match ac3 cw (searched cw) None with
                 | Ok (_, self) => self
                 | Raise _ => init cw
                 end).
  specialize (H false (searched cw) false self2
                ltac:(vm_compute; reflexivity) ltac:(vm_compute; reflexivity)
                Cross.down ltac:(by_compute)).
  vm_compute in H. discriminate H.
Qed.

(** C7, amended. On a well-formed puzzle and a store where every slot has
    a set object of its own, when [ac3] with the default arc list reports
    success, a second run reports success as well and leaves the store
    exactly as the first run left it. The domains need not be node
    consistent: the second run looks for the partners that the first run
    found, and finds them. *)
Theorem ac3_idempotent_after_success cw self self1 :
  wf_crossword cw → store_wf cw self →
  ac3 cw self None = Ok (true, self1) →
  ac3 cw self1 None = Ok (true, self1).
Proof.
  intros Hwf Hst H. unfold ac3 in *. inv_bind H. rewrite E. cbn [bind].
  apply (ac3_loop_checked cw Hwf) in H as [Hst1 Hok].
  - apply (ac3_loop_checked_stable cw Hwf); try done.
    + by apply keyed_all_arcs.
    + unfold ac3_fuel. lia.
  - split; [done|]. intros x y [[o|] Ho]%is_Ok_exists.
    + left. destruct (all_arcs_spec cw) as (arcs & Harcs & Hin).
      rewrite Harcs in E. injection E as <-. apply Hin. eauto.
    + right. intros i j dx dy Ho'. congruence.
Qed.

Lemma ac3_idempotent_after_success_witness :
  let cw := Cross.puzzle ["ABC"; "BAD"; "HELLO"] in
  let self1 := match ac3 cw (init cw) None with
               | Ok (_, self1) => self1
               | Raise _ => init cw
               end in
  ac3 cw self1 None = Ok (true, self1).
Proof.
  intros cw self1. apply (ac3_idempotent_after_success cw (init cw));
    [by_compute | by_compute | vm_compute; reflexivity].
Defined.

(** C8, as stated, fails: the checker also rejects a word that has not the
    length of its slot. The assignment of "AB" to the slot [across] alone
    has no overlap conflict and no repeated word, and is rejected. *)
Lemma checker_claim_counterexample :
  ¬ checker_claim (Cross.puzzle []) [(Cross.across, "AB")].
Proof.
  intros [_ H].
  enough (consistent (Cross.puzzle []) [(Cross.across, "AB")] = Ok true)
    as Hc by (vm_compute in Hc; discriminate Hc).
  apply H. intros [(x & y & wx & wy & i & j & Hx & Hy & Ho & _)
                  |(x & y & w & Hne & Hx & Hy)].
  - simpl in Hx, Hy. repeat case_decide; simplify_eq.
  - simpl in Hx, Hy. repeat case_decide; simplify_eq.
Qed.

(** C8, amended. On a well-formed puzzle, for an assignment in which every
    word has the length of its slot, the checker returns [False] if (a) two
    assigned slots with an overlap relation disagree at their overlap
    indices or (b) two assigned slots hold the identical word, and [True]
    otherwise; an assignment in which some word has not the length of its
    slot is never accepted. The checker returns a truth value only: it has
    no access to the domains and leaves the assignment as it is. *)
Theorem checker_characterization cw a :
  wf_crossword cw → NoDup a.*1 →
  (lengths_match a → checker_claim cw a) ∧
  (¬ lengths_match a → consistent cw a ≠ Ok true).
Proof.
  intros Hwf Hnd. split.
  - intros Hlen.
    destruct (consistent_spec cw Hwf a Hnd Hlen) as (b & Hb & Hspec).
    unfold checker_claim. rewrite Hb. split.
    + intros Hbad. f_equal. by apply Hspec.
    + intros Hgood. f_equal. destruct b; [done|]. destruct Hgood.
      by apply Hspec.
  - intros Hlen Hc. by apply Hlen, (consistent_lengths cw).
Qed.

Lemma checker_characterization_witness :
  let cw := Cross.puzzle [] in
  checker_claim cw [(Cross.across, "ABC"); (Cross.down, "BAD")] ∧
  consistent cw [(Cross.across, "ABC"); (Cross.down, "X")] ≠ Ok true.
Proof.
  intros cw. split.
  - apply (checker_characterization cw); by_compute.
  - apply (checker_characterization cw); by_compute.
Defined.

(** C9. Length invariant: on a store that binds every slot,
    [enforce_node_consistency] returns; afterwards the domain of a slot
    holds exactly the words of its former domain that have the length of
    the slot, so the store is node consistent; and [revise], [ac3] and
    [backtrack] only ever remove words from domains, so that a
    node-consistent store stays node consistent. *)
Theorem length_invariant cw self :
  bound cw self →
  ∃ self1,
    enforce_node_consistency cw self = Ok self1 ∧
    (∀ s d, s ∈ variables cw → domain self s = Ok d →
       ∃ d1, domain self1 s = Ok d1 ∧
             ∀ w, w ∈ d1 ↔ w ∈ d ∧ String.length w = var_length s) ∧
    node_consistent cw self1 ∧
    (∀ self2 x y b self3,
       revise cw self2 x y = Ok (b, self3) →
       narrows self3 self2 ∧
       (node_consistent cw self2 → node_consistent cw self3)) ∧
    (∀ self2 arcs b self3,
       ac3 cw self2 arcs = Ok (b, self3) →
       narrows self3 self2 ∧
       (node_consistent cw self2 → node_consistent cw self3)) ∧
    (∀ fuel self2 a r self3,
       backtrack cw fuel self2 a = Ok (r, self3) →
       narrows self3 self2 ∧
       (node_consistent cw self2 → node_consistent cw self3)).
Proof.
  intros Hb.
  destruct (enforce_node_consistency_spec cw self Hb)
    as (self1 & Hrun & _ & Hnc & Hspec).
  exists self1. split_and!; try done.
  - intros self2 x y b self3 H%revise_narrows.
    eauto using narrows_node_consistent.
  - intros self2 arcs b self3 [_ H]%ac3_frame.
    eauto using narrows_node_consistent.
  - intros fuel self2 a r self3 [_ H]%backtrack_frame.
    eauto using narrows_node_consistent.
Qed.

Lemma length_invariant_witness :
  let cw := Cross.puzzle ["ABC"; "HELLO"; "BAD"; "NO"] in
  ∃ self1,
    enforce_node_consistency cw (init cw) = Ok self1 ∧
    (∀ s d, s ∈ variables cw → domain (init cw) s = Ok d →
       ∃ d1, domain self1 s = Ok d1 ∧
             ∀ w, w ∈ d1 ↔ w ∈ d ∧ String.length w = var_length s) ∧
    node_consistent cw self1 ∧
    (∀ self2 x y b self3,
       revise cw self2 x y = Ok (b, self3) →
       narrows self3 self2 ∧
       (node_consistent cw self2 → node_consistent cw self3)) ∧
    (∀ self2 arcs b self3,
       ac3 cw self2 arcs = Ok (b, self3) →
       narrows self3 self2 ∧
       (node_consistent cw self2 → node_consistent cw self3)) ∧
    (∀ fuel self2 a r self3,
       backtrack cw fuel self2 a = Ok (r, self3) →
       narrows self3 self2 ∧
       (node_consistent cw self2 → node_consistent cw self3)).
Proof.
  intros cw. apply (length_invariant cw (init cw)). by_compute.
Defined.

(** C10. Propagation does not enforce word uniqueness: a word of the
    domains of both [x] and [y] that agrees with itself across their
    overlap is its own partner and survives [revise]. So [ac3] succeeds on
    the puzzle [Cross] with the single word "AAB", where the only choice
    left gives that word to both slots; that choice is rejected by
    [consistent] alone, and [solve] finds no solution. *)
Theorem propagation_keeps_shared_word cw self x y i j dx dy w b self' :
  overlap_of cw x y = Ok (Some (i, j)) →
  domain self x = Ok dx → domain self y = Ok dy →
  w ∈ dx → w ∈ dy → agree i j w w →
  revise cw self x y = Ok (b, self') →
  (∃ dx', domain self' x = Ok dx' ∧ w ∈ dx') ∧
  let cw1 := Cross.puzzle ["AAB"] in
  ac3 cw1 (prepared cw1) None = Ok (true, prepared cw1) ∧
  domain (prepared cw1) Cross.across = Ok ["AAB"] ∧
  domain (prepared cw1) Cross.down = Ok ["AAB"] ∧
  consistent cw1 [(Cross.across, "AAB"); (Cross.down, "AAB")] = Ok false ∧
  ∃ self1, solve cw1 (init cw1) = Ok (None, self1).
Proof.
  intros Ho Hdx Hdy Hwx Hwy Hag Hrev. split.
  - pose proof Hdx as (lx & Hlx & Hhx)%domain_Ok.
    destruct (revise_spec cw _ _ _ _ _ _ _ _ _ _ Ho Hlx Hhx Hdy Hrev)
      as [-> _].
    eexists. split; [by eapply narrowed_domain_eq|].
    apply list_elem_of_filter. split; [|done].
    apply Exists_exists. eauto.
  - split_and!; try (vm_compute; reflexivity).
    eexists. vm_compute. reflexivity.
Qed.

Lemma propagation_keeps_shared_word_witness :
  let cw := Cross.puzzle ["AAB"; "XYZ"] in
  let self' := match revise cw (prepared cw) Cross.across Cross.down with
               | Ok (_, self') => self'
               | Raise _ => prepared cw
               end in
  ∃ dx', domain self' Cross.across = Ok dx' ∧ "AAB" ∈ dx'.
Proof.
  intros cw self'.
  destruct (propagation_keeps_shared_word cw (prepared cw)
              Cross.across Cross.down 0 1 ["AAB"; "XYZ"] ["AAB"; "XYZ"]
              "AAB" true self') as [H _].
  - vm_compute. reflexivity.
  - vm_compute. reflexivity.
  - vm_compute. reflexivity.
  - by_compute.
  - by_compute.
  - vm_compute. exact I.
  - vm_compute. reflexivity.
  - exact H.
Defined.

(** * Further properties of the code *)

Local Close Scope string_scope.

(** ** The store built by [__init__] *)

Section init_facts.
Variable cw : Crossword.

(** the store after the slots [vars] have got their copy *)
Lemma init_loop_spec vars :
  let self := foldl (λ self var,
                       let '(l, self) := alloc self (words cw) in
                       domains_set self var l)
                    (mkCreator ∅ []) vars in
  (∀ v, domains self !! v = None ↔ v ∉ vars) ∧
  (∀ v l, domains self !! v = Some l → heap self !! l = Some (words cw)) ∧
  (∀ v1 v2 l, domains self !! v1 = Some l → domains self !! v2 = Some l →
              v1 = v2).
Proof.
  induction vars as [|u vars IH] using rev_ind; simpl.
  { split_and!.
    - intros v. rewrite lookup_empty, elem_of_nil. tauto.
    - intros v l. by rewrite lookup_empty.
    - intros v1 v2 l. by rewrite lookup_empty. }
  rewrite foldl_snoc. simpl in IH.
  set (self := foldl _ _ vars) in *. destruct IH as (Hdom & Hheap & Hinj).
  simpl.
  assert (Hfresh : ∀ v, domains self !! v ≠ Some (length (heap self))).
  { intros v Hv. apply Hheap, lookup_lt_Some in Hv. lia. }
  split_and!.
  - intros v. rewrite not_elem_of_app, list_elem_of_singleton.
    destruct (decide (u = v)) as [->|Hne].
    + rewrite lookup_insert_eq. split; [done|]. by intros [_ ?].
    + rewrite lookup_insert_ne, Hdom by done. split; [|tauto].
      intros ?. split; [done|congruence].
  - intros v l. destruct (decide (u = v)) as [->|Hne].
    + rewrite lookup_insert_eq. intros [= <-]. by apply list_lookup_middle.
    + rewrite lookup_insert_ne by done. intros Hl.
      apply Hheap in Hl. rewrite lookup_app_l; [done|].
      by eapply lookup_lt_Some.
  - intros v1 v2 l.
    destruct (decide (u = v1)) as [<-|H1], (decide (u = v2)) as [<-|H2];
      rewrite ?lookup_insert_eq, ?lookup_insert_ne by done.
    + done.
    + intros [= <-] H. by apply Hfresh in H.
    + intros H [= <-]. by apply Hfresh in H.
    + apply Hinj.
Qed.

Lemma init_domain v : v ∈ variables cw → domain (init cw) v = Ok (words cw).
Proof.
  intros Hv. destruct (init_loop_spec (variables cw)) as (Hdom & Hheap & _).
  apply domain_Ok. fold (init cw) in *.
  destruct (domains (init cw) !! v) as [l|] eqn:Hl.
  - exists l. split; [done|]. by eapply Hheap.
  - by apply Hdom in Hl.
Qed.

Lemma init_separated : separated cw (init cw).
Proof.
  destruct (init_loop_spec (variables cw)) as (Hdom & _ & Hinj).
  fold (init cw) in *.
  apply Forall_forall. intros v1 H1. apply Forall_forall. intros v2 H2.
  destruct (decide (v1 = v2)) as [|Hne]; [by left|right].
  intros Heq. destruct (domains (init cw) !! v1) as [l|] eqn:Hl.
  - apply Hne. by eapply Hinj.
  - by apply Hdom in Hl.
Qed.
End init_facts.

(** X1. The store built by [__init__]: the domain of every slot of the
    puzzle is the whole vocabulary; a slot that is not of the puzzle has no
    domain ([KeyError]); every slot has a set object of its own, so that
    removing a word from the domain of one slot leaves the domain of every
    other slot as it was. *)
Theorem init_store cw :
  (∀ v, v ∈ variables cw → domain (init cw) v = Ok (words cw)) ∧
  (∀ v, v ∉ variables cw → domain (init cw) v = Raise KeyError) ∧
  store_wf cw (init cw) ∧
  (∀ x y w self',
     x ∈ variables cw → y ∈ variables cw → x ≠ y →
     domain_remove (init cw) x w = Ok self' →
     domain self' x = Ok (filter (λ v, v ≠ w) (words cw)) ∧
     domain self' y = Ok (words cw)).
Proof.
  split_and!.
  - apply init_domain.
  - intros v Hv. destruct (init_loop_spec cw (variables cw)) as (Hdom & _).
    apply Hdom in Hv. fold (init cw) in Hv.
    unfold domain, domains_get. by rewrite Hv.
  - split; [apply init_bound | apply init_separated].
  - intros x y w self' Hx Hy Hne Hrm.
    apply domain_remove_Ok in Hrm as (l & s & Hl & Hs & Hw & ->).
    pose proof (init_domain cw x Hx) as Hdx.
    apply domain_Ok in Hdx as (l' & Hl' & Hs').
    assert (l' = l) as -> by congruence.
    assert (s = words cw) as -> by congruence.
    split.
    + apply domain_Ok. exists l. simpl. split; [done|].
      apply list_lookup_insert_eq. by eapply lookup_lt_Some.
    + pose proof (init_domain cw y Hy) as Hdy.
      apply domain_Ok in Hdy as (ly & Hly & Hsy).
      apply domain_Ok. exists ly. simpl. split; [done|].
      rewrite list_lookup_insert_ne; [done|].
      intros <-. apply Hne.
      destruct (init_loop_spec cw (variables cw)) as (_ & _ & Hinj).
      by eapply Hinj.
Qed.

(** ** enforce_node_consistency *)

Lemma set_add_fresh w s : w ∉ s → set_add w s = s ++ [w].
Proof. intros Hw. unfold set_add. by rewrite decide_False. Qed.

Lemma domain_consistent_of_NoDup var d : NoDup (domain_consistent_of var d).
Proof.
  unfold domain_consistent_of.
  enough (∀ acc, NoDup acc →
            NoDup (foldl (λ domain_consistent word,
                     if decide (var_length var = String.length word)
                     then set_add word domain_consistent
                     else domain_consistent) acc d)) as H.
  { apply H. constructor. }
  induction d as [|a d IH]; simpl; intros acc Hacc; [done|].
  apply IH. case_decide; [|done]. unfold set_add. case_decide; [done|].
  apply NoDup_app. split_and!; [done| |apply NoDup_singleton].
  intros x Hx ->%list_elem_of_singleton. done.
Qed.

Lemma domain_consistent_of_filter var d :
  NoDup d →
  domain_consistent_of var d
  = filter (λ w, String.length w = var_length var) d.
Proof.
  unfold domain_consistent_of.
  enough (∀ acc, NoDup (acc ++ d) →
            foldl (λ domain_consistent word,
                     if decide (var_length var = String.length word)
                     then set_add word domain_consistent
                     else domain_consistent) acc d
            = acc ++ filter (λ w, String.length w = var_length var) d) as H.
  { intros Hd. by rewrite H. }
  induction d as [|a d IH]; simpl; intros acc Hnd.
  { by rewrite filter_nil, app_nil_r. }
  rewrite filter_cons. apply NoDup_app in Hnd as (Hacc & Hdisj & Hd).
  apply NoDup_cons in Hd as [Ha Hd].
  assert (Hfresh : a ∉ acc) by (intros Hin; apply (Hdisj a Hin); by left).
  case_decide as Hlen.
  - rewrite decide_True by done. rewrite set_add_fresh by done.
    rewrite IH, <- app_assoc; [done|].
    rewrite <- app_assoc. simpl. apply NoDup_app. split_and!; [done| |].
    + intros x Hx. apply Hdisj. done.
    + by apply NoDup_cons.
  - rewrite decide_False by done. apply IH.
    apply NoDup_app. split_and!; [done| |done].
    intros x Hx Hin. apply (Hdisj x Hx). by right.
Qed.

Lemma domain_consistent_of_idemp var d :
  domain_consistent_of var (domain_consistent_of var d)
  = domain_consistent_of var d.
Proof.
  rewrite (domain_consistent_of_filter var (domain_consistent_of var d))
    by apply domain_consistent_of_NoDup.
  apply filter_id_elem. intros w Hw.
  by apply elem_of_domain_consistent_of in Hw as [_ ?].
Qed.

(** the contents of the domains after the loop over [vars] *)
Lemma enforce_loop_domain vars self self' :
  enforce_loop vars self = Ok self' →
  ∀ v d, domain self v = Ok d →
         domain self' v
         = Ok (if decide (v ∈ vars) then domain_consistent_of v d else d).
Proof.
  revert self. induction vars as [|u vars IH]; intros self Hrun v d Hd;
    simpl in Hrun.
  { injection Hrun as <-. rewrite decide_False; [done|apply not_elem_of_nil]. }
  inv_bind Hrun. rename a into du. rename E into Hdu.
  set (self1 := domains_set _ u _) in Hrun.
  assert (Hold : ∀ z c, z ≠ u → domain self z = Ok c → domain self1 z = Ok c).
  { intros z c Hz (l & Hl & Hc)%domain_Ok. apply domain_Ok. exists l.
    subst self1. simpl. rewrite lookup_insert_ne by done. split; [done|].
    rewrite lookup_app_l; [done|]. by eapply lookup_lt_Some. }
  assert (Hnew : domain self1 u = Ok (domain_consistent_of u du)).
  { apply domain_Ok. exists (length (heap self)). subst self1. simpl.
    rewrite lookup_insert_eq. split; [done|]. by apply list_lookup_middle. }
  destruct (decide (v = u)) as [->|Hne].
  - assert (du = d) as -> by congruence.
    rewrite (IH _ Hrun _ _ Hnew). rewrite (decide_True (P := u ∈ u :: vars))
      by by left.
    case_decide; [by rewrite domain_consistent_of_idemp|done].
  - rewrite (IH _ Hrun _ _ (Hold _ _ Hne Hd)).
    destruct (decide (v ∈ vars)) as [Hin|Hn].
    + rewrite decide_True; [done|by right].
    + rewrite decide_False; [done|]. by apply not_elem_of_cons.
Qed.

(** X2. [enforce_node_consistency] builds new sets and leaves the old ones
    alone: on a store where every slot of the puzzle has a domain, it
    returns a store where no two slots share a set object, whatever the
    sharing was before; the set objects that existed before the call hold
    the words they held, and the slots that are not of the puzzle keep
    their binding. *)
Theorem enforce_node_consistency_fresh cw self self1 :
  bound cw self →
  enforce_node_consistency cw self = Ok self1 →
  store_wf cw self1 ∧
  (∀ l, l < length (heap self) → heap self1 !! l = heap self !! l) ∧
  (∀ v, v ∈ variables cw →
        ∃ l, domains self1 !! v = Some l ∧ length (heap self) ≤ l) ∧
  (∀ v, v ∉ variables cw → domains self1 !! v = domains self !! v).
Proof.
  intros Hb Hrun.
  destruct (enforce_node_consistency_spec cw self Hb)
    as (s & Hs & Hwf & _).
  assert (s = self1) as -> by congruence.
  destruct (enforce_loop_spec (variables cw) self Hb)
    as (s & Hs' & Hkeep & Hheap & Hvars & _).
  assert (s = self1) as -> by (unfold enforce_node_consistency in Hrun; congruence).
  split_and!; [done|done| |done].
  intros v Hv. destruct (Hvars v Hv) as (l & _ & Hl & Hge & _). eauto.
Qed.

Lemma enforce_node_consistency_fresh_witness :
  let cw := Cross.puzzle ["ABC"; "HELLO"; "BAD"]%string in
  store_wf cw (prepared cw) ∧
  (∀ l, l < length (heap (init cw)) →
        heap (prepared cw) !! l = heap (init cw) !! l).
Proof.
  intros cw.
  destruct (enforce_node_consistency_fresh cw (init cw) (prepared cw))
    as (H1 & H2 & _); [by_compute|reflexivity|].
  split; [exact H1|exact H2].
Defined.

(** X3. [enforce_node_consistency] is idempotent on the contents of the
    domains: on a store where every slot of the puzzle has a domain, a
    second call returns, and the domain of every slot after the second
    call holds exactly the words it held after the first. *)
Theorem enforce_node_consistency_idempotent cw self :
  bound cw self →
  ∃ self1 self2,
    enforce_node_consistency cw self = Ok self1 ∧
    enforce_node_consistency cw self1 = Ok self2 ∧
    ∀ v, v ∈ variables cw →
         ∃ d1 d2, domain self1 v = Ok d1 ∧ domain self2 v = Ok d2 ∧
                  ∀ w, w ∈ d2 ↔ w ∈ d1.
Proof.
  intros Hb.
  destruct (enforce_node_consistency_spec cw self Hb)
    as (self1 & Hrun1 & [Hb1 _] & Hnc1 & _).
  destruct (enforce_node_consistency_spec cw self1 Hb1)
    as (self2 & Hrun2 & _ & _ & Hspec).
  exists self1, self2. split_and!; [done|done|].
  intros v Hv. destruct (bound_domain cw _ _ Hb1 Hv) as [d1 Hd1].
  destruct (Hspec v d1 Hv Hd1) as (d2 & Hd2 & Hin).
  exists d1, d2. split_and!; [done|done|].
  intros w. rewrite Hin. split; [tauto|]. intros Hw. split; [done|].
  by eapply node_consistent_length.
Qed.

Lemma enforce_node_consistency_idempotent_witness :
  let cw := Cross.puzzle ["ABC"; "HELLO"; "BAD"]%string in
  ∃ self1 self2,
    enforce_node_consistency cw (init cw) = Ok self1 ∧
    enforce_node_consistency cw self1 = Ok self2 ∧
    ∀ v, v ∈ variables cw →
         ∃ d1 d2, domain self1 v = Ok d1 ∧ domain self2 v = Ok d2 ∧
                  ∀ w, w ∈ d2 ↔ w ∈ d1.
Proof.
  intros cw. apply (enforce_node_consistency_idempotent cw (init cw)).
  by_compute.
Defined.

(** ** revise *)

(** X4. [revise] is idempotent: for two different slots of the puzzle on
    a store where every slot has a set object of its own, a call of
    [revise(x, y)] that follows a call of [revise(x, y)] reports no
    revision and leaves the store as it is. *)
Theorem revise_idempotent cw self x y b self1 :
  store_wf cw self → x ∈ variables cw → y ∈ variables cw → x ≠ y →
  revise cw self x y = Ok (b, self1) →
  revise cw self1 x y = Ok (false, self1).
Proof.
  intros Hst Hx Hy Hne Hrun.
  destruct (overlap_of cw x y) as [[[i j]|]|e] eqn:Ho.
  - destruct Hst as [Hb Hsep].
    destruct (bound_domain cw _ _ Hb Hx) as [dx Hdx].
    destruct (bound_domain cw _ _ Hb Hy) as [dy Hdy].
    pose proof Hdx as (lx & Hlx & Hhx)%domain_Ok.
    destruct (revise_spec cw self x y i j lx dx dy b self1 Ho Hlx Hhx Hdy Hrun)
      as [-> _].
    assert (Hall : Forall (λ w, is_Ok (all_differ w i j dy)) dx).
    { unfold revise in Hrun. rewrite Ho in Hrun. simpl in Hrun.
      rewrite Hdx in Hrun. simpl in Hrun. inv_bind Hrun.
      destruct a as [ch rm]. by eapply revise_scan_all_differ. }
    set (self1 := mkCreator _ _).
    assert (Hdx1 : domain self1 x = Ok (filter (supported i j dy) dx))
      by by eapply narrowed_domain_eq.
    assert (Hdy1 : domain self1 y = Ok dy).
    { subst self1. by rewrite (narrowed_domain_ne cw self x). }
    unfold revise. rewrite Ho. simpl. rewrite Hdx1. simpl.
    rewrite (revise_scan_supported self1 y i j dy); [done|done| |].
    + apply Forall_forall. intros w [_ Hw]%list_elem_of_filter.
      rewrite Forall_forall in Hall. auto.
    + apply Forall_forall. by intros w [Hw _]%list_elem_of_filter.
  - unfold revise in *. rewrite Ho in *. simpl in *. by injection Hrun as _ <-.
  - unfold revise in Hrun. by rewrite Ho in Hrun.
Qed.

Lemma revise_idempotent_witness :
  let cw := Cross.puzzle ["ABC"; "BAD"; "XYZ"]%string in
  let self1 := match revise cw (prepared cw) Cross.across Cross.down with
               | Ok (_, self1) => self1
               | Raise _ => prepared cw
               end in
  revise cw self1 Cross.across Cross.down = Ok (false, self1).
Proof.
  intros cw self1.
  apply (revise_idempotent cw (prepared cw) Cross.across Cross.down true);
    [by_compute|by_compute|by_compute|by_compute|].
  vm_compute. reflexivity.
Defined.

(** ** ac3 *)

Lemma ac3_loop_more_fuel cw f1 f2 self arcs :
  ac3_loop cw f1 self arcs ≠ Raise OutOfFuel → f1 ≤ f2 →
  ac3_loop cw f2 self arcs = ac3_loop cw f1 self arcs.
Proof.
  revert f2 self arcs. induction f1 as [|f1 IH]; intros f2 self arcs Hfree Hle.
  { done. }
  destruct f2 as [|f2]; [lia|]. simpl in *.
  destruct arcs as [|[x y] arcs]; [done|].
  destruct (revise cw self x y) as [[[] s]|e]; simpl in *; [| |done].
  - destruct (domain s x) as [dx|e]; simpl in *; [|done].
    case_decide; [done|]. apply IH; [done|lia].
  - apply IH; [done|lia].
Qed.

(** X5. The loop of [ac3] terminates: it runs at most as many times as
    there are arcs in the worklist it is given, plus the number of slots
    times the number of words in all the set objects of the store. Run
    with any larger bound, the loop is not cut, and it returns what [ac3]
    returns. *)
Theorem ac3_terminates cw self arcs fuel :
  length arcs + length (variables cw) * heap_size self < fuel →
  ac3_loop cw fuel self arcs ≠ Raise OutOfFuel ∧
  ac3_loop cw fuel self arcs = ac3 cw self (Some arcs).
Proof.
  intros Hfuel. split; [by apply ac3_loop_fuel|].
  change (ac3 cw self (Some arcs))
    with (ac3_loop cw (ac3_fuel cw self arcs) self arcs).
  apply ac3_loop_more_fuel.
  - apply ac3_loop_fuel. unfold ac3_fuel. lia.
  - unfold ac3_fuel. lia.
Qed.

Lemma ac3_terminates_witness :
  let cw := Cross.puzzle ["ABC"; "BAD"; "XYZ"]%string in
  let arcs := [(Cross.across, Cross.down); (Cross.down, Cross.across)] in
  ac3_loop cw 100 (prepared cw) arcs ≠ Raise OutOfFuel ∧
  ac3_loop cw 100 (prepared cw) arcs = ac3 cw (prepared cw) (Some arcs).
Proof.
  intros cw arcs. apply (ac3_terminates cw (prepared cw) arcs 100).
  vm_compute. lia.
Defined.

(** X6. [ac3] raises no exception on a store that is node consistent: on a
    well-formed puzzle, with a set object of its own for every slot and
    only words of the length of the slot in every domain, [ac3] returns
    for the default worklist and for every worklist made of keys of
    [overlaps]; the store it returns has the same two properties and binds
    the slots to the set objects they had. *)
Theorem ac3_returns cw self arcs :
  wf_crossword cw → store_wf cw self → node_consistent cw self →
  from_option (keyed cw) True arcs →
  ∃ b self',
    ac3 cw self arcs = Ok (b, self') ∧
    store_wf cw self' ∧ node_consistent cw self' ∧
    domains self' = domains self.
Proof.
  intros Hwf Hst Hnc Harcs. destruct arcs as [arcs|]; simpl in Harcs.
  - destruct (ac3_searchable cw Hwf self arcs) as (b & self' & Hrun & [? ?] & ?);
      [by split|done|]. eauto 10.
  - destruct (ac3_total cw Hwf self Hst Hnc) as [[b self'] Hrun].
    exists b, self'. destruct (ac3_frame cw self None b self' Hrun) as [Hd Hn].
    split_and!; [done| |by eapply narrows_node_consistent|done].
    unfold ac3 in Hrun. inv_bind Hrun. by eapply ac3_loop_store_wf.
Qed.

Lemma ac3_returns_witness :
  let cw := Cross.puzzle ["ABC"; "BAD"; "XYZ"]%string in
  ∃ b self',
    ac3 cw (prepared cw) (Some [(Cross.down, Cross.across)]) = Ok (b, self') ∧
    store_wf cw self' ∧ node_consistent cw self' ∧
    domains self' = domains (prepared cw).
Proof.
  intros cw.
  apply (ac3_returns cw (prepared cw) (Some [(Cross.down, Cross.across)]));
    by_compute.
Defined.

Section ac3_nonempty.
Variable cw : Crossword.
Hypothesis Hwf : wf_crossword cw.

Lemma ac3_loop_nonempty fuel self arcs self' :
  store_wf cw self →
  (∀ v d, v ∈ variables cw → domain self v = Ok d → d ≠ []) →
  ac3_loop cw fuel self arcs = Ok (true, self') →
  ∀ v d, v ∈ variables cw → domain self' v = Ok d → d ≠ [].
Proof.
  revert self arcs. induction fuel as [|fuel IH]; intros self arcs Hst Hne;
    simpl; [done|].
  destruct arcs as [|[x y] arcs]; [by intros [= <-]|].
  intros Hrun. inv_bind Hrun. destruct a as [changed s]. rename E into Hrev.
  destruct changed.
  - inv_bind Hrun. rename a into dx'. rename E into Hdx'.
    case_decide as Hlen; [done|].
    eapply IH; [|  |exact Hrun].
    { by eapply revise_store_wf. }
    intros v d Hv Hd. destruct (decide (v = x)) as [->|Hvx].
    + assert (d = dx') as -> by congruence. by destruct dx'.
    + destruct (overlap_of cw x y) as [[[i j]|]|e] eqn:Ho.
      * destruct (revise_overlap cw Hwf self x y i j true s Hst Ho Hrev)
          as (dx & dy & _ & _ & _ & Hkeep & _).
        rewrite Hkeep in Hd by done. eauto.
      * rewrite (revise_no_overlap cw self x y Ho) in Hrev. done.
      * unfold revise in Hrev. by rewrite Ho in Hrev.
  - apply revise_unchanged in Hrev as ->. eapply IH; [done|done|exact Hrun].
Qed.
End ac3_nonempty.

(** X7. A successful [ac3] empties no domain: on a well-formed puzzle and a
    store where every slot has a set object of its own, when no slot of
    the puzzle has an empty domain before the call and [ac3] returns
    [True], no slot of the puzzle has an empty domain after it. *)
Theorem ac3_success_nonempty cw self arcs self' :
  wf_crossword cw → store_wf cw self →
  (∀ v d, v ∈ variables cw → domain self v = Ok d → d ≠ []) →
  ac3 cw self arcs = Ok (true, self') →
  ∀ v d, v ∈ variables cw → domain self' v = Ok d → d ≠ [].
Proof.
  intros Hwf Hst Hne Hrun. unfold ac3 in Hrun. inv_bind Hrun.
  by eapply ac3_loop_nonempty.
Qed.

Lemma ac3_success_nonempty_witness :
  let cw := Cross.puzzle ["ABC"; "BAD"; "XYZ"]%string in
  Forall (λ v, ∀ d, domain (searched cw) v = Ok d → d ≠ []) (variables cw).
Proof.
  intros cw. apply Forall_forall. intros v Hv d.
  revert v d Hv.
  apply (ac3_success_nonempty cw (prepared cw) None (searched cw));
    [by_compute|by_compute| |vm_compute; reflexivity].
  intros v d Hv Hd.
  assert (Hall : Forall (λ v, 0 < remaining (prepared cw) v) (variables cw))
    by by_compute.
  rewrite Forall_forall in Hall. intros ->. specialize (Hall v Hv).
  unfold remaining in Hall. rewrite Hd in Hall. simpl in Hall. lia.
Defined.

(** X24. The default worklist of [ac3]: building it raises no exception;
    it holds exactly the ordered pairs of slots whose entry in [overlaps]
    is a pair of indices; and [ac3] without a worklist is [ac3] with this
    one. *)
Theorem ac3_default_worklist cw :
  ∃ arcs,
    all_arcs cw = Ok arcs ∧
    (∀ x y, (x, y) ∈ arcs ↔ ∃ o, overlap_of cw x y = Ok (Some o)) ∧
    ∀ self, ac3 cw self None = ac3 cw self (Some arcs).
Proof.
  destruct (all_arcs_spec cw) as (arcs & Harcs & Hin).
  exists arcs. split_and!; [done|done|].
  intros self. unfold ac3. by rewrite Harcs.
Qed.

(** ** assignment_complete *)

(** X8. [assignment_complete] returns [True] exactly when every slot of
    the puzzle is a key of the assignment, and [False] exactly when some
    slot of the puzzle is not; keys that are not slots of the puzzle and
    the words assigned play no part. *)
Theorem assignment_complete_iff cw a :
  (assignment_complete cw a = true ↔
   ∀ v, v ∈ variables cw → ∃ w, dict_get a v = Some w) ∧
  (assignment_complete cw a = false ↔
   ∃ v, v ∈ variables cw ∧ dict_get a v = None).
Proof.
  split; [apply assignment_complete_spec|].
  unfold assignment_complete.
  induction (variables cw) as [|u vars IH]; simpl.
  { split; [done|]. by intros (v & ?%elem_of_nil & _). }
  destruct (dict_mem a u) eqn:Hu.
  - rewrite IH. apply dict_mem_true in Hu as [w Hw]. split.
    + intros (v & Hv & Hn). exists v. split; [by right|done].
    + intros (v & [->|Hv]%elem_of_cons & Hn); [congruence|eauto].
  - apply dict_mem_false in Hu. split; [|done].
    intros _. exists u. split; [by left|done].
Qed.

(** ** order_domain_values *)

Lemma result_map_length {A B} (f : A → result B) l bs :
  result_map f l = Ok bs → length bs = length l.
Proof.
  revert bs. induction l as [|a l IH]; simpl; intros bs H.
  { by injection H as <-. }
  inv_bind H. inv_bind H. injection H as <-. simpl. f_equal. eauto.
Qed.

Lemma result_map_fmap {A B} (f : A → result B) (g : A → B) l :
  (∀ a, a ∈ l → f a = Ok (g a)) → result_map f l = Ok (g <$> l).
Proof.
  induction l as [|a l IH]; simpl; intros H; [done|].
  rewrite H by by left. simpl. rewrite IH; [done|].
  intros b Hb. apply H. by right.
Qed.

Lemma order_domain_values_perm cw self var a values :
  order_domain_values cw self var a = Ok values →
  ∃ d, domain self var = Ok d ∧ values ≡ₚ d.
Proof.
  unfold order_domain_values. intros H. inv_bind H. rename a0 into d.
  inv_bind H. injection H as <-. exists d. split; [done|].
  apply result_map_length in E0.
  rewrite merge_sort_Permutation, snd_zip by lia. done.
Qed.

(** X9. [order_domain_values] returns the values of the domain of [var],
    each one once: the list it returns is a rearrangement of the domain,
    and the store is not touched. *)
Theorem order_domain_values_permutation cw self var a values :
  order_domain_values cw self var a = Ok values →
  ∃ d, domain self var = Ok d ∧ values ≡ₚ d.
Proof. apply order_domain_values_perm. Qed.

Lemma order_domain_values_permutation_witness :
  let cw := Cross.puzzle ["ABC"; "BAD"; "XYZ"]%string in
  ∃ d, domain (searched cw) Cross.down = Ok d ∧
       ["ABC"; "BAD"]%string ≡ₚ d.
Proof.
  intros cw.
  apply (order_domain_values_permutation cw (searched cw) Cross.down []).
  vm_compute. reflexivity.
Defined.

Lemma zip_fmap_self {A B} (g : A → B) (l : list A) :
  zip (g <$> l) l = (λ a, (g a, a)) <$> l.
Proof. induction l as [|a l IH]; [done|]. cbn. by f_equal. Qed.

Lemma pair_le_total : Total pair_le.
Proof.
  intros [n1 s1] [n2 s2]. unfold pair_le. simpl.
  destruct (String.leb_total s1 s2); destruct (lt_eq_lt_dec n1 n2) as [[?|?]|?];
    auto.
Qed.

Section order.
Variable cw : Crossword.
Hypothesis Hwf : wf_crossword cw.

Lemma count_conflicts_spec value i j nvs n :
  i < String.length value → Forall (λ v, j < String.length v) nvs →
  count_conflicts value (Some (i, j)) nvs n
  = Ok (n + length (filter (λ nv, ¬ agree i j value nv) nvs)).
Proof.
  intros Hi Hj. revert n. induction Hj as [|v nvs Hv _ IH]; intros n; simpl.
  { f_equal. lia. }
  destruct (str_index_total value i Hi) as [c1 H1].
  destruct (str_index_total v j Hv) as [c2 H2].
  rewrite H1, H2. simpl. rewrite IH, filter_cons.
  rewrite (agree_index _ _ _ _ _ _ H1 H2).
  destruct (decide (c1 = c2)) as [->|Hne].
  - rewrite bool_decide_eq_true_2 by done.
    rewrite decide_False by (intros Hn; by apply Hn).
    rewrite decide_False by (intros Hn; by apply Hn). done.
  - rewrite bool_decide_eq_false_2 by done.
    rewrite decide_True by done. rewrite decide_True by (by intros ?).
    simpl. f_equal. lia.
Qed.

Lemma count_neighbors_spec self var a value nbs n :
  store_wf cw self → node_consistent cw self → var ∈ variables cw →
  String.length value = var_length var → nbs ⊆ neighbors cw var →
  count_neighbors cw self var a value nbs n
  = Ok (n + sum_list_with (ruled_out_at cw self var value)
              (filter (λ nb, dict_mem a nb = false) nbs)).
Proof.
  intros [Hb Hsep] Hnc Hvar Hlen. revert n.
  induction nbs as [|nb nbs IH]; intros n Hsub; simpl.
  { f_equal. lia. }
  assert (Hrest : nbs ⊆ neighbors cw var)
    by (intros ? ?; apply Hsub; by right).
  rewrite filter_cons. destruct (dict_mem a nb) eqn:Hm.
  { rewrite decide_False by done. by apply IH. }
  rewrite decide_True by done.
  assert (Hnb : nb ∈ neighbors cw var) by (apply Hsub; by left).
  destruct (neighbors_sym cw Hwf _ _ Hvar Hnb) as (i & j & Ho & _).
  destruct (wf_overlap_of cw Hwf _ _ _ _ Ho) as (_ & Hnbv & _ & Hi & Hj & _).
  destruct (bound_domain cw _ _ Hb Hnbv) as [dn Hdn].
  rewrite Ho, Hdn. simpl.
  rewrite count_conflicts_spec; [|lia|].
  - simpl. rewrite IH by done. unfold ruled_out_at at 2. rewrite Ho, Hdn.
    f_equal. lia.
  - apply Forall_forall. intros w Hw.
    by rewrite (node_consistent_length cw _ _ _ _ Hnc Hnbv Hdn Hw).
Qed.

Lemma order_domain_values_spec self var a d :
  store_wf cw self → node_consistent cw self → var ∈ variables cw →
  domain self var = Ok d →
  order_domain_values cw self var a
  = Ok (merge_sort pair_le
          ((λ value, (ruled_out cw self var a value, value)) <$> d)).*2.
Proof.
  intros Hst Hnc Hvar Hd. unfold order_domain_values. rewrite Hd. simpl.
  rewrite (result_map_fmap _ (ruled_out cw self var a)).
  - cbn [bind]. by rewrite zip_fmap_self.
  - intros value Hvalue. rewrite count_neighbors_spec; try done.
    by eapply node_consistent_length.
Qed.
End order.

Lemma Sorted_impl {A} (R1 R2 : relation A) (l : list A) :
  (∀ x y, R1 x y → R2 x y) → Sorted R1 l → Sorted R2 l.
Proof.
  intros H. induction 1 as [|a l Hs IH Hhd]; constructor; [done|].
  destruct Hhd; constructor; auto.
Qed.

Lemma Sorted_keyed_values (g : string → nat) (l : list (nat * string)) :
  Sorted pair_le l → Forall (λ p, p.1 = g p.2) l →
  Sorted (λ v1 v2, g v1 < g v2 ∨ (g v1 = g v2 ∧ String.leb v1 v2 = true))
         l.*2.
Proof.
  induction 1 as [|p l Hs IH Hhd]; intros Hall; simpl; [constructor|].
  apply Forall_cons in Hall as [Hp Hall]. constructor; [by apply IH|].
  destruct Hhd as [|q l Hpq]; simpl; constructor.
  apply Forall_cons in Hall as [Hq _]. unfold pair_le in Hpq.
  by rewrite <- Hp, <- Hq.
Qed.

(** X10. The order of [order_domain_values]: on a well-formed puzzle and a
    node-consistent store with a set object for every slot, the function
    returns, and in the list it returns each value is followed by one that
    rules out more words for the neighbours of [var] that have no word
    yet, or as many and is not smaller by code points. So the number of
    words ruled out never decreases along the list: the first value is one
    that rules out the fewest. *)
Theorem order_domain_values_sorted cw self var a :
  wf_crossword cw → store_wf cw self → node_consistent cw self →
  var ∈ variables cw →
  ∃ values,
    order_domain_values cw self var a = Ok values ∧
    Sorted (value_le cw self var a) values ∧
    StronglySorted (λ v1 v2, ruled_out cw self var a v1
                             ≤ ruled_out cw self var a v2) values.
Proof.
  intros Hwf Hst Hnc Hvar.
  destruct (bound_domain cw _ _ (proj1 Hst) Hvar) as [d Hd].
  eexists. split; [by apply order_domain_values_spec|].
  assert (Hs : Sorted (value_le cw self var a)
                 (merge_sort pair_le
                    ((λ value, (ruled_out cw self var a value, value)) <$> d)).*2).
  { apply (Sorted_keyed_values (ruled_out cw self var a)).
    - apply (@Sorted_merge_sort _ pair_le _ pair_le_total).
    - apply Forall_forall. intros p Hp. rewrite merge_sort_Permutation in Hp.
      by apply list_elem_of_fmap in Hp as (v & -> & _). }
  split; [done|].
  apply Sorted_StronglySorted.
  { intros x y z. lia. }
  eapply Sorted_impl; [|exact Hs]. unfold value_le. intros x y. lia.
Qed.

Lemma order_domain_values_sorted_witness :
  let cw := Cross.puzzle ["ABC"; "BAD"; "XYZ"]%string in
  ∃ values,
    order_domain_values cw (searched cw) Cross.down [] = Ok values ∧
    Sorted (value_le cw (searched cw) Cross.down []) values ∧
    StronglySorted (λ v1 v2, ruled_out cw (searched cw) Cross.down [] v1
                             ≤ ruled_out cw (searched cw) Cross.down [] v2)
                   values.
Proof.
  intros cw.
  apply (order_domain_values_sorted cw (searched cw) Cross.down []);
    by_compute.
Defined.

(** ** backtrack and solve *)

Section search_results.
Variable cw : Crossword.

Lemma backtrack_extends_assignment fuel self a0 a self' :
  backtrack cw fuel self a0 = Ok (Some a, self') →
  ∀ v w, dict_get a0 v = Some w → dict_get a v = Some w.
Proof.
  revert self a0 a self'.
  induction fuel as [|fuel IH]; simpl; intros self a0 a self' H; [done|].
  destruct (assignment_complete cw a0).
  { by injection H as <- <-. }
  inv_bind H. rename a1 into var. inv_bind H.
  apply select_unassigned_variable_unassigned in E as [_ Hun].
  apply dict_mem_false in Hun.
  apply try_values_source in H as (value & s & s' & _ & _ & _ & Hrec);
    [|by apply backtrack_frame].
  intros v w Hv. eapply IH; [exact Hrec|].
  rewrite dict_get_set. case_decide; [congruence|done].
Qed.

Lemma backtrack_from_domains fuel self a0 a self' :
  backtrack cw fuel self a0 = Ok (Some a, self') →
  ∀ v w, dict_get a v = Some w →
         dict_get a0 v = Some w ∨
         (v ∈ variables cw ∧ dict_get a0 v = None ∧
          ∃ d, domain self v = Ok d ∧ w ∈ d).
Proof.
  revert self a0 a self'.
  induction fuel as [|fuel IH]; simpl; intros self a0 a self' H; [done|].
  destruct (assignment_complete cw a0).
  { injection H as <- <-. auto. }
  inv_bind H. rename a1 into var. inv_bind H. rename a1 into values.
  apply select_unassigned_variable_unassigned in E as [Hvar Hun].
  apply dict_mem_false in Hun.
  apply order_domain_values_perm in E0 as (d & Hd & Hperm).
  apply try_values_source in H as (value & s & s' & Hin & Hn & _ & Hrec);
    [|by apply backtrack_frame].
  intros v w Hv.
  destruct (IH _ _ _ _ Hrec v w Hv) as [Hset|(Hvin & Hnone & dv & Hdv & Hw)].
  - rewrite dict_get_set in Hset. case_decide as Heq; [|by left].
    subst v. injection Hset as <-. right. split_and!; [done|done|].
    exists d. split; [done|]. by rewrite <- Hperm.
  - rewrite dict_get_set in Hnone. case_decide; [done|].
    right. split_and!; [done|done|].
    destruct (Hn _ _ Hdv) as (d0 & Hd0 & Hsub). exists d0. auto.
Qed.
End search_results.

(** X11. [backtrack] only adds to the assignment it is given: every slot
    that has a word in the assignment passed to [backtrack] has the same
    word in the assignment returned. *)
Theorem backtrack_extends cw fuel self a0 a self' :
  backtrack cw fuel self a0 = Ok (Some a, self') →
  ∀ v w, dict_get a0 v = Some w → dict_get a v = Some w.
Proof. apply backtrack_extends_assignment. Qed.

Lemma backtrack_extends_witness :
  let cw := Cross.puzzle ["ABC"; "BAD"; "XYZ"]%string in
  let a := [(Cross.down, "BAD"); (Cross.across, "ABC")]%string in
  Forall (λ v, ∀ w, dict_get [(Cross.down, "BAD"%string)] v = Some w →
                    dict_get a v = Some w)
         (variables cw).
Proof.
  intros cw a. apply Forall_forall. intros v _ w. revert v w.
  apply (backtrack_extends cw 3 (searched cw) [(Cross.down, "BAD"%string)] a
           (match backtrack cw 3 (searched cw) [(Cross.down, "BAD"%string)]
            with Ok (_, s) => s | Raise _ => searched cw end)).
  vm_compute. reflexivity.
Defined.

(** X12. The words that [backtrack] assigns come from the domains: a slot
    with a word in the assignment returned either had this word in the
    assignment passed to [backtrack], or is a slot of the puzzle that had
    no word, and the word was in its domain when [backtrack] was
    called. *)
Theorem backtrack_assigns_from_domains cw fuel self a0 a self' :
  backtrack cw fuel self a0 = Ok (Some a, self') →
  ∀ v w, dict_get a v = Some w →
         dict_get a0 v = Some w ∨
         (v ∈ variables cw ∧ dict_get a0 v = None ∧
          ∃ d, domain self v = Ok d ∧ w ∈ d).
Proof. apply backtrack_from_domains. Qed.

Lemma backtrack_assigns_from_domains_witness :
  let cw := Cross.puzzle ["ABC"; "BAD"; "XYZ"]%string in
  let a := [(Cross.across, "ABC"); (Cross.down, "BAD")]%string in
  Forall (λ v, ∀ w, dict_get a v = Some w →
                    dict_get (@nil (Var * string)) v = Some w ∨
                    (v ∈ variables cw ∧
                     dict_get (@nil (Var * string)) v = None ∧
                     ∃ d, domain (searched cw) v = Ok d ∧ w ∈ d))
         (variables cw).
Proof.
  intros cw a. apply Forall_forall. intros v _ w. revert v w.
  apply (backtrack_assigns_from_domains cw 3 (searched cw) [] a
           (match backtrack cw 3 (searched cw) [] with
            | Ok (_, s) => s
            | Raise _ => searched cw
            end)).
  vm_compute. reflexivity.
Defined.

Section solve_results.
Variable cw : Crossword.

Lemma solve_from_vocabulary a self' :
  solve cw (init cw) = Ok (Some a, self') →
  ∀ v w, dict_get a v = Some w → v ∈ variables cw ∧ w ∈ words cw.
Proof.
  unfold solve. intros H. inv_bind H. rename a0 into self1.
  inv_bind H. destruct a0 as [b self2].
  apply ac3_frame in E0 as [_ Hn].
  intros v w Hv.
  destruct (backtrack_from_domains cw _ _ _ _ _ H v w Hv)
    as [?|(Hvin & _ & d2 & Hd2 & Hw)]; [done|].
  split; [done|].
  destruct (Hn _ _ Hd2) as (d1 & Hd1 & Hsub).
  pose proof (enforce_loop_domain _ _ _ E v _ (init_domain cw v Hvin)) as Hd.
  rewrite decide_True in Hd by done.
  assert (d1 = domain_consistent_of v (words cw)) as -> by congruence.
  apply Hsub, elem_of_domain_consistent_of in Hw as [? _]. done.
Qed.

Lemma consistent_values_NoDup a : consistent cw a = Ok true → NoDup a.*2.
Proof.
  unfold consistent. intros H. inv_bind H. destruct a0; [|done].
  case_decide as Hlen; [done|]. apply remove_dups_length_eq. lia.
Qed.
End solve_results.

(** X13. [solve] fills the puzzle from the vocabulary: every key of the
    assignment that [solve] returns is a slot of the puzzle, and its word
    is a word of the vocabulary. *)
Theorem solve_uses_vocabulary cw a self' :
  solve cw (init cw) = Ok (Some a, self') →
  ∀ v w, dict_get a v = Some w → v ∈ variables cw ∧ w ∈ words cw.
Proof. apply solve_from_vocabulary. Qed.

Lemma solve_uses_vocabulary_witness :
  let cw := Cross.puzzle ["ABC"; "BAD"; "XYZ"]%string in
  let a := [(Cross.across, "ABC"); (Cross.down, "BAD")]%string in
  Forall (λ v, ∀ w, dict_get a v = Some w → v ∈ variables cw ∧ w ∈ words cw)
         (variables cw).
Proof.
  intros cw a. apply Forall_forall. intros v _ w. revert v w.
  apply (solve_uses_vocabulary cw a
           (match solve cw (init cw) with
            | Ok (_, s) => s
            | Raise _ => init cw
            end)).
  vm_compute. reflexivity.
Defined.

(** X14. A vocabulary with fewer words than the puzzle has slots gives no
    solution: when [solve] returns on such a puzzle, it returns [None]. *)
Theorem solve_needs_enough_words cw r self' :
  NoDup (variables cw) → length (words cw) < length (variables cw) →
  solve cw (init cw) = Ok (r, self') → r = None.
Proof.
  intros Hnd Hlt Hrun. destruct r as [a|]; [exfalso|done].
  assert (Hvalid : valid cw a).
  { unfold solve in Hrun. inv_bind Hrun. inv_bind Hrun.
    destruct a1 as [b self2]. eapply backtrack_valid; [|exact Hrun]. done. }
  destruct Hvalid as [Hc Hok].
  apply consistent_values_NoDup in Hok.
  pose proof (solve_from_vocabulary cw a self' Hrun) as Hvoc.
  assert (H1 : length (variables cw) ≤ length a.*1).
  { apply submseteq_length, NoDup_submseteq; [done|].
    intros v Hv. rewrite assignment_complete_spec in Hc.
    destruct (Hc v Hv) as [w Hw]. apply dict_get_elem_of in Hw.
    apply list_elem_of_fmap. by exists (v, w). }
  assert (Hkeys : NoDup a.*1).
  { unfold solve in Hrun. inv_bind Hrun. inv_bind Hrun.
    destruct a1 as [b self2]. eapply backtrack_keys_NoDup; [exact Hrun|].
    constructor. }
  assert (H2 : length a.*2 ≤ length (words cw)).
  { apply submseteq_length, NoDup_submseteq; [done|].
    intros w Hw. apply list_elem_of_fmap in Hw as ([v w'] & -> & Hin).
    apply (dict_get_NoDup a v w' Hkeys) in Hin. by apply (Hvoc v w'). }
  rewrite !length_fmap in *. lia.
Qed.

Lemma solve_needs_enough_words_witness :
  let cw := Cross.puzzle ["ABC"]%string in
  let r := match solve cw (init cw) with
           | Ok (r, _) => r
           | Raise _ => Some []
           end in
  r = None.
Proof.
  intros cw r.
  apply (solve_needs_enough_words cw r
           (match solve cw (init cw) with
            | Ok (_, s) => s
            | Raise _ => init cw
            end)); [by_compute|vm_compute; lia|vm_compute; reflexivity].
Defined.

(** ** consistent *)

Section sub_assignment.
Variable cw : Crossword.
Hypothesis Hwf : wf_crossword cw.

Lemma lengths_match_sub (a b : list (Var * string)) :
  NoDup b.*1 →
  (∀ v w, dict_get b v = Some w → dict_get a v = Some w) →
  lengths_match a → lengths_match b.
Proof.
  intros Hnd Hsub Hlen. apply Forall_forall. intros [v w] Hin.
  apply (dict_get_NoDup b v w Hnd), Hsub, dict_get_elem_of in Hin.
  unfold lengths_match in Hlen. rewrite Forall_forall in Hlen.
  by apply (Hlen (v, w)).
Qed.

Lemma consistent_sub (a b : list (Var * string)) :
  NoDup a.*1 → NoDup b.*1 →
  (∀ v w, dict_get b v = Some w → dict_get a v = Some w) →
  consistent cw a = Ok true → consistent cw b = Ok true.
Proof.
  intros Hnda Hndb Hsub Hok.
  pose proof (consistent_lengths cw _ Hok) as Hlen.
  destruct (consistent_spec cw Hwf a Hnda Hlen) as (ba & Hba & Hspeca).
  assert (ba = true) as -> by congruence.
  destruct (consistent_spec cw Hwf b Hndb
              (lengths_match_sub a b Hndb Hsub Hlen)) as (bb & Hbb & Hspecb).
  destruct bb; [done|exfalso].
  assert (Hbad : overlap_conflict cw a ∨ repeated_word a).
  { destruct (proj1 Hspecb eq_refl) as [Hc|Hr].
    - left. destruct Hc as (x & y & wx & wy & i & j & Hx & Hy & Ho & Hag).
      exists x, y, wx, wy, i, j. auto.
    - right. destruct Hr as (x & y & w & Hne & Hx & Hy).
      exists x, y, w. auto. }
  apply Hspeca in Hbad. done.
Qed.
End sub_assignment.

(** X15. The checker accepts every part of an assignment that it accepts:
    on a well-formed puzzle, when [consistent] returns [True] for an
    assignment, it returns [True] for every assignment that gives some of
    its slots the words they have in it. *)
Theorem consistent_sub_assignment cw (a b : list (Var * string)) :
  wf_crossword cw → NoDup a.*1 → NoDup b.*1 →
  (∀ v w, dict_get b v = Some w → dict_get a v = Some w) →
  consistent cw a = Ok true → consistent cw b = Ok true.
Proof. intros Hwf. by apply consistent_sub. Qed.

Lemma consistent_sub_assignment_witness :
  consistent (Cross.puzzle []) [(Cross.down, "BAD"%string)] = Ok true.
Proof.
  apply (consistent_sub_assignment (Cross.puzzle [])
           [(Cross.across, "ABC"); (Cross.down, "BAD")]%string
           [(Cross.down, "BAD"%string)]);
    [by_compute|by_compute|by_compute| |vm_compute; reflexivity].
  intros v w. simpl. destruct (decide (Cross.down = v)) as [<-|]; [|done].
  intros [= <-]. reflexivity.
Defined.

(** ** select_unassigned_variable *)

Lemma foldl_min_init l a : foldl Nat.min a l ≤ a.
Proof.
  revert a. induction l as [|b l IH]; simpl; intros a; [done|].
  etrans; [apply IH|]. lia.
Qed.

Lemma foldl_max_init l a : a ≤ foldl Nat.max a l.
Proof.
  revert a. induction l as [|b l IH]; simpl; intros a; [done|].
  etrans; [|apply IH]. lia.
Qed.

Lemma foldl_min_le l a x : x ∈ a :: l → foldl Nat.min a l ≤ x.
Proof.
  intros [->|Hx]%elem_of_cons; [apply foldl_min_init|].
  revert a. induction l as [|b l IH]; simpl; intros a.
  { by apply elem_of_nil in Hx. }
  apply elem_of_cons in Hx as [->|Hx]; [|by apply IH].
  etrans; [apply foldl_min_init|]. lia.
Qed.

Lemma foldl_max_ge l a x : x ∈ a :: l → x ≤ foldl Nat.max a l.
Proof.
  intros [->|Hx]%elem_of_cons; [apply foldl_max_init|].
  revert a. induction l as [|b l IH]; simpl; intros a.
  { by apply elem_of_nil in Hx. }
  apply elem_of_cons in Hx as [->|Hx]; [|by apply IH].
  etrans; [|apply foldl_max_init]. lia.
Qed.

Lemma list_min_spec l m :
  list_min l = Ok m → m ∈ l ∧ ∀ x, x ∈ l → m ≤ x.
Proof.
  destruct l as [|a l]; simpl; [done|]. intros [= <-].
  split; [apply foldl_min_elem | apply foldl_min_le].
Qed.

Lemma list_max_spec l m :
  list_max l = Ok m → m ∈ l ∧ ∀ x, x ∈ l → x ≤ m.
Proof.
  destruct l as [|a l]; simpl; [done|]. intros [= <-].
  split; [apply foldl_max_elem | apply foldl_max_ge].
Qed.

Lemma list_index_spec l v k :
  list_index l v = Ok k →
  l !! k = Some v ∧ ∀ k' x, k' < k → l !! k' = Some x → x ≠ v.
Proof.
  revert k. induction l as [|a l IH]; simpl; intros k H; [done|].
  case_decide as Ha.
  - injection H as <-. subst. split; [done|]. intros; lia.
  - inv_bind H. injection H as <-. destruct (IH _ E) as [Hl Hfirst].
    split; [done|]. intros [|k'] x Hk Hx; simpl in Hx.
    + by injection Hx as <-.
    + eapply Hfirst; [|done]. lia.
Qed.

Lemma list_nth_Ok {A} (l : list A) k a : list_nth l k = Ok a ↔ l !! k = Some a.
Proof.
  unfold list_nth. destruct (l !! k); split; intros H; by simplify_eq.
Qed.

Lemma result_map_elem_of {A B} (f : A → result B) l bs b :
  result_map f l = Ok bs → b ∈ bs ↔ ∃ a, a ∈ l ∧ f a = Ok b.
Proof.
  revert bs. induction l as [|a l IH]; simpl; intros bs H.
  { injection H as <-. split; [by intros ?%elem_of_nil|].
    by intros (? & ?%elem_of_nil & _). }
  inv_bind H. inv_bind H. injection H as <-.
  rewrite elem_of_cons, (IH _ E0). split.
  - intros [->|(x & Hx & Hb)]; [exists a; split; [by left|done]|].
    exists x. split; [by right|done].
  - intros (x & [->|Hx]%elem_of_cons & Hb); [left; congruence|eauto].
Qed.

Lemma length_filter_fmap {A B} (f : A → B) (P : B → Prop)
    `{!∀ b, Decision (P b)} (l : list A) :
  length (filter P (f <$> l)) = length (filter (λ a, P (f a)) l).
Proof.
  induction l as [|a l IH]; [done|]. rewrite fmap_cons, !filter_cons.
  destruct (decide (P (f a))); simpl; by rewrite IH.
Qed.

Lemma elem_of_positions (l : list nat) (m k : nat) :
  k ∈ (filter (λ ix : nat * nat, ix.2 = m) (imap pair l)).*1 ↔
  l !! k = Some m.
Proof.
  rewrite list_elem_of_fmap. split.
  - intros ([k' x] & -> & [Hx Hin]%list_elem_of_filter). simpl in *. subst x.
    apply list_elem_of_lookup in Hin as [n Hn].
    rewrite list_lookup_imap in Hn.
    destruct (l !! n) eqn:Hl; simplify_eq/=. done.
  - intros Hk. exists (k, m). split; [done|].
    apply list_elem_of_filter. split; [done|].
    apply list_elem_of_lookup. exists k.
    by rewrite list_lookup_imap, Hk.
Qed.

Section select.
Variable cw : Crossword.

Lemma unassigned_stats_exact self a vs :
  Forall (λ v, is_Ok (domain self v)) vs →
  unassigned_stats cw self a vs
  = Ok (filter (λ v, dict_mem a v = false) vs,
        remaining self <$> filter (λ v, dict_mem a v = false) vs,
        (λ v, length (neighbors cw v))
          <$> filter (λ v, dict_mem a v = false) vs).
Proof.
  induction 1 as [|v vs [d Hd]%is_Ok_exists _ IH]; simpl; [done|].
  rewrite filter_cons. destruct (dict_mem a v) eqn:Hm.
  { by rewrite decide_False. }
  rewrite decide_True by done. rewrite Hd, IH. simpl.
  unfold remaining at 2. by rewrite Hd.
Qed.

(** the runs of [select_unassigned_variable], by the branch taken *)
Lemma select_unassigned_variable_inv self a var :
  bound cw self →
  select_unassigned_variable cw self a = Ok var →
  ∃ m k,
    (∃ t, t ∈ open_slots cw a ∧ remaining self t = m) ∧
    (∀ v, v ∈ open_slots cw a → m ≤ remaining self v) ∧
    open_slots cw a !! k = Some var ∧
    if decide (1 < length (filter (λ v, remaining self v = m)
                                  (open_slots cw a)))
    then
      (∃ t, t ∈ open_slots cw a ∧ remaining self t = m ∧
            length (neighbors cw t) = length (neighbors cw var)) ∧
      (∀ t, t ∈ open_slots cw a → remaining self t = m →
            length (neighbors cw t) ≤ length (neighbors cw var)) ∧
      (∀ k' v, k' < k → open_slots cw a !! k' = Some v →
               length (neighbors cw v) ≠ length (neighbors cw var))
    else
      remaining self var = m ∧
      (∀ k' v, k' < k → open_slots cw a !! k' = Some v →
               remaining self v ≠ m).
Proof.
  intros Hb. unfold select_unassigned_variable.
  rewrite (unassigned_stats_exact self a (variables cw) Hb).
  fold (open_slots cw a). cbn [bind].
  set (U := open_slots cw a).
  set (MRV := remaining self <$> U).
  set (degree := (λ v, length (neighbors cw v)) <$> U).
  intros H. inv_bind H. rename a0 into m. apply list_min_spec in E as [Hm Hmin].
  exists m.
  assert (Hex : ∃ t, t ∈ U ∧ remaining self t = m).
  { apply list_elem_of_fmap in Hm as (t & -> & Ht). eauto. }
  assert (Hle : ∀ v, v ∈ U → m ≤ remaining self v).
  { intros v Hv. apply Hmin. by apply list_elem_of_fmap_2. }
  unfold list_count in H. subst MRV. rewrite length_filter_fmap in H.
  destruct (decide (1 < length (filter (λ v, remaining self v = m) U)))
    as [Htie|Hone].
  - inv_bind H. rename a0 into min_degree. rename E into Hmd.
    inv_bind H. rename a0 into mx. apply list_max_spec in E as [Hmx Hmax].
    inv_bind H. rename a0 into idx. apply list_index_spec in E as [Hidx Hfirst].
    apply list_nth_Ok in H.
    exists idx. split_and!; [done|done|done| | |].
    + apply (result_map_elem_of _ _ _ mx Hmd) in Hmx as (k & Hk & Hdk).
      apply elem_of_positions in Hk. apply list_nth_Ok in Hdk.
      subst degree. rewrite list_lookup_fmap in Hk, Hdk, Hidx.
      rewrite H in Hidx. simpl in Hidx. injection Hidx as Hidx.
      destruct (U !! k) as [t|] eqn:Ht; simplify_eq/=.
      exists t. split_and!; [by eapply list_elem_of_lookup_2|done|congruence].
    + intros t Ht Hrem. apply list_elem_of_lookup in Ht as [k Hk].
      subst degree. rewrite list_lookup_fmap, H in Hidx. simpl in Hidx.
      injection Hidx as <-. apply Hmax.
      apply (result_map_elem_of _ _ _ _ Hmd). exists k. split.
      * apply elem_of_positions. by rewrite list_lookup_fmap, Hk, <- Hrem.
      * apply list_nth_Ok. by rewrite list_lookup_fmap, Hk.
    + intros k' v Hk' Hv. subst degree.
      rewrite list_lookup_fmap, H in Hidx. simpl in Hidx.
      injection Hidx as <-. eapply Hfirst; [done|].
      by rewrite list_lookup_fmap, Hv.
  - inv_bind H. rename a0 into idx. apply list_index_spec in E as [Hidx Hfirst].
    apply list_nth_Ok in H. exists idx.
    rewrite list_lookup_fmap, H in Hidx. simpl in Hidx. injection Hidx as Hidx.
    split_and!; [done|done|done|done|].
    intros k' v Hk' Hv. eapply Hfirst; [done|].
    by rewrite list_lookup_fmap, Hv.
Qed.

Lemma open_slot_incomplete a u :
  u ∈ open_slots cw a → assignment_complete cw a = false.
Proof.
  intros [Hu Hin]%list_elem_of_filter.
  destruct (assignment_complete cw a) eqn:Hc; [|done].
  rewrite assignment_complete_spec in Hc. apply dict_mem_false in Hu.
  destruct (Hc u Hin) as [w Hw]. congruence.
Qed.
End select.

(** X16. [select_unassigned_variable] needs a slot without a word: on a
    store where every slot of the puzzle has a domain, it raises
    [ValueError] when the assignment is complete, and returns a slot of
    the puzzle that has no word when the assignment is not complete. *)
Theorem select_unassigned_variable_complete cw self a :
  bound cw self →
  (assignment_complete cw a = true →
   select_unassigned_variable cw self a = Raise ValueError) ∧
  (assignment_complete cw a = false →
   ∃ var, select_unassigned_variable cw self a = Ok var ∧
          var ∈ variables cw ∧ dict_get a var = None).
Proof.
  intros Hb. split.
  - intros Hc. unfold select_unassigned_variable.
    rewrite (unassigned_stats_exact cw self a (variables cw) Hb).
    assert (filter (λ v, dict_mem a v = false) (variables cw) = []) as ->;
      [|done].
    destruct (filter _ _) as [|v l] eqn:Hf; [done|exfalso].
    assert (Hv : v ∈ filter (λ v, dict_mem a v = false) (variables cw))
      by (rewrite Hf; by left).
    apply list_elem_of_filter in Hv as [Hv Hin].
    rewrite assignment_complete_spec in Hc. apply Hc, dict_mem_true in Hin.
    congruence.
  - intros Hc. destruct (select_unassigned_variable_total cw self a Hb Hc)
      as [var Hvar].
    exists var. split; [done|].
    apply select_unassigned_variable_unassigned in Hvar as [? ?].
    by rewrite <- dict_mem_false.
Qed.

Lemma select_unassigned_variable_complete_witness :
  let cw := Cross.puzzle ["ABC"; "BAD"; "XYZ"]%string in
  select_unassigned_variable cw (searched cw)
    [(Cross.across, "ABC"); (Cross.down, "BAD")]%string
  = Raise ValueError.
Proof.
  intros cw.
  apply (select_unassigned_variable_complete cw (searched cw)
           [(Cross.across, "ABC"); (Cross.down, "BAD")]%string);
    [by_compute|reflexivity].
Defined.

(** X17. Minimum remaining values: on a store where every slot of the
    puzzle has a domain, when one slot without a word has a domain with
    fewer words than every other slot without a word,
    [select_unassigned_variable] returns this slot. *)
Theorem select_unique_minimum cw self a u :
  bound cw self → NoDup (variables cw) →
  u ∈ open_slots cw a →
  (∀ v, v ∈ open_slots cw a → v ≠ u → remaining self u < remaining self v) →
  select_unassigned_variable cw self a = Ok u.
Proof.
  intros Hb Hnd Hu Hmin.
  destruct (select_unassigned_variable_total cw self a Hb
              (open_slot_incomplete cw a u Hu)) as [var Hvar].
  rewrite Hvar. f_equal.
  destruct (select_unassigned_variable_inv cw self a var Hb Hvar)
    as (m & k & (t & Ht & Htm) & Hle & Hk & Hbranch).
  assert (Hmu : remaining self u = m).
  { destruct (decide (t = u)) as [->|Hne]; [done|].
    pose proof (Hmin t Ht Hne). pose proof (Hle u Hu). lia. }
  assert (Honly : ∀ v, v ∈ open_slots cw a → remaining self v = m → v = u).
  { intros v Hv Hvm. destruct (decide (v = u)) as [|Hne]; [done|].
    pose proof (Hmin v Hv Hne). lia. }
  case_decide as Htie.
  - exfalso.
    assert (Hsub : filter (λ v, remaining self v = m) (open_slots cw a) ⊆+ [u]).
    { apply NoDup_submseteq.
      - apply NoDup_filter, NoDup_filter, Hnd.
      - intros v [Hvm Hv]%list_elem_of_filter.
        apply list_elem_of_singleton. auto. }
    apply submseteq_length in Hsub. simpl in Hsub. lia.
  - destruct Hbranch as [Hvm _]. apply Honly; [|done].
    by eapply list_elem_of_lookup_2.
Qed.

Lemma select_unique_minimum_witness :
  let cw := Cross.puzzle ["ABC"; "BAD"; "XYZ"]%string in
  let self := match revise cw (prepared cw) Cross.down Cross.across with
              | Ok (_, self) => self
              | Raise _ => prepared cw
              end in
  select_unassigned_variable cw self [] = Ok Cross.down.
Proof.
  intros cw self.
  apply (select_unique_minimum cw self [] Cross.down);
    [by_compute|by_compute|by_compute|].
  assert (Hall : Forall (λ v, v ≠ Cross.down →
                              remaining self Cross.down < remaining self v)
                        (open_slots cw [])) by by_compute.
  rewrite Forall_forall in Hall. exact Hall.
Defined.

(** X18. The tie break of [select_unassigned_variable]: on a store where
    every slot of the puzzle has a domain, when two or more slots without
    a word have the smallest number [m] of remaining words, the function
    returns the first slot without a word, in iteration order, whose
    number of neighbours is the largest number of neighbours of a slot
    with [m] remaining words. *)
Theorem select_tie_break cw self a m :
  bound cw self →
  (∀ v, v ∈ open_slots cw a → m ≤ remaining self v) →
  1 < length (filter (λ v, remaining self v = m) (open_slots cw a)) →
  ∃ var k,
    select_unassigned_variable cw self a = Ok var ∧
    open_slots cw a !! k = Some var ∧
    (∃ t, t ∈ open_slots cw a ∧ remaining self t = m ∧
          length (neighbors cw t) = length (neighbors cw var)) ∧
    (∀ t, t ∈ open_slots cw a → remaining self t = m →
          length (neighbors cw t) ≤ length (neighbors cw var)) ∧
    (∀ k' v, k' < k → open_slots cw a !! k' = Some v →
             length (neighbors cw v) ≠ length (neighbors cw var)).
Proof.
  intros Hb Hle Htie.
  assert (Hex : ∃ u, u ∈ open_slots cw a ∧ remaining self u = m).
  { destruct (filter (λ v, remaining self v = m) (open_slots cw a))
      as [|u l] eqn:Hf; [simpl in Htie; lia|].
    exists u. apply and_comm, (list_elem_of_filter (λ v, remaining self v = m)).
    rewrite Hf. by left. }
  destruct Hex as (u & Hu & Hum).
  destruct (select_unassigned_variable_total cw self a Hb
              (open_slot_incomplete cw a u Hu)) as [var Hvar].
  destruct (select_unassigned_variable_inv cw self a var Hb Hvar)
    as (m' & k & (t & Ht & Htm) & Hle' & Hk & Hbranch).
  assert (m' = m) as ->.
  { pose proof (Hle t Ht). pose proof (Hle' u Hu). lia. }
  rewrite decide_True in Hbranch by done.
  exists var, k. tauto.
Qed.

Lemma select_tie_break_witness :
  let cw := Corner.puzzle in
  ∃ var k,
    select_unassigned_variable cw (searched cw) [(Corner.top, "CAT"%string)]
    = Ok var ∧
    open_slots cw [(Corner.top, "CAT"%string)] !! k = Some var ∧
    (∃ t, t ∈ open_slots cw [(Corner.top, "CAT"%string)] ∧
          remaining (searched cw) t = 2 ∧
          length (neighbors cw t) = length (neighbors cw var)) ∧
    (∀ t, t ∈ open_slots cw [(Corner.top, "CAT"%string)] →
          remaining (searched cw) t = 2 →
          length (neighbors cw t) ≤ length (neighbors cw var)) ∧
    (∀ k' v, k' < k →
             open_slots cw [(Corner.top, "CAT"%string)] !! k' = Some v →
             length (neighbors cw v) ≠ length (neighbors cw var)).
Proof.
  intros cw.
  apply (select_tie_break cw (searched cw) [(Corner.top, "CAT"%string)] 2);
    [by_compute| |vm_compute; lia].
  assert (Hall : Forall (λ v, 2 ≤ remaining (searched cw) v)
                        (open_slots cw [(Corner.top, "CAT"%string)]))
    by by_compute.
  rewrite Forall_forall in Hall. exact Hall.
Defined.

(** ** letter_grid *)

Lemma string_get_Some (w : string) (k : nat) c :
  String.get k w = Some c → k < String.length w.
Proof.
  revert k. induction w as [|a w IH]; simpl; intros k H; [done|].
  destruct k as [|k]; [lia|]. apply IH in H. lia.
Qed.

(** the cell that the loop of [letter_grid] computes for the index [k] *)
Lemma cell_row v k :
  var_i v + (if decide (var_direction v = DOWN) then k else 0) = (cell v k).1.
Proof. unfold cell. destruct (var_direction v); simpl; lia. Qed.

Lemma cell_column v k :
  var_j v + (if decide (var_direction v = ACROSS) then k else 0)
  = (cell v k).2.
Proof. unfold cell. destruct (var_direction v); simpl; lia. Qed.

Lemma letter_at_cell v word i j c :
  letter_at (v, word) i j = Some c ↔
  ∃ k, cell v k = (i, j) ∧ String.get k word = Some c.
Proof.
  unfold letter_at, cell. simpl. destruct (var_direction v).
  - case_decide as H.
    + destruct H as [-> Hj]. split.
      * intros Hc. exists (j - var_j v). split; [f_equal; lia|done].
      * intros (k & [= <-] & Hc). by replace (var_j v + k - var_j v) with k by lia.
    + split; [done|]. intros (k & [= <- <-] & _). destruct H. lia.
  - case_decide as H.
    + destruct H as [-> Hi]. split.
      * intros Hc. exists (i - var_i v). split; [f_equal; lia|done].
      * intros (k & [= <-] & Hc). by replace (var_i v + k - var_i v) with k by lia.
    + split; [done|]. intros (k & [= <- <-] & _). destruct H. lia.
Qed.

Section grid.
Variables height width : nat.

Lemma shaped_lookup g i row :
  shaped height width g → g !! i = Some row →
  i < height ∧ length row = width.
Proof.
  unfold shaped. intros Hs Hi.
  assert (H : (length <$> g) !! i = Some (length row))
    by by rewrite list_lookup_fmap, Hi.
  rewrite Hs in H. by apply lookup_replicate in H as [-> ?].
Qed.

Lemma shaped_row g i :
  shaped height width g → i < height →
  ∃ row, g !! i = Some row ∧ length row = width.
Proof.
  unfold shaped. intros Hs Hi.
  assert (H : (length <$> g) !! i = Some width)
    by (rewrite Hs; by apply lookup_replicate).
  rewrite list_lookup_fmap in H. destruct (g !! i) as [row|]; [|done].
  injection H as H. eauto.
Qed.

Lemma shaped_grid_at g i j :
  shaped height width g → is_Some (grid_at g i j) ↔ i < height ∧ j < width.
Proof.
  intros Hs. unfold grid_at. split.
  - intros [x Hx]. destruct (g !! i) as [row|] eqn:Hi; [|done]. simpl in Hx.
    destruct (shaped_lookup _ _ _ Hs Hi) as [? <-].
    split; [done|]. by eapply lookup_lt_Some.
  - intros [Hi Hj]. destruct (shaped_row g i Hs Hi) as (row & -> & Hlen).
    simpl. apply lookup_lt_is_Some. lia.
Qed.

Lemma shaped_replicate :
  shaped height width (replicate height (replicate width None)).
Proof. unfold shaped. by rewrite fmap_replicate, length_replicate. Qed.

Lemma letters_set_Ok g i j c :
  shaped height width g → i < height → j < width →
  ∃ g', letters_set g i j c = Ok g' ∧ shaped height width g' ∧
        ∀ i' j', grid_at g' i' j'
                 = if decide (i' = i ∧ j' = j) then Some (Some c)
                   else grid_at g i' j'.
Proof.
  intros Hs Hi Hj. destruct (shaped_row g i Hs Hi) as (row & Hrow & Hlen).
  unfold letters_set. rewrite Hrow. rewrite decide_True by lia.
  eexists. split; [done|]. split.
  - unfold shaped in *. rewrite list_fmap_insert, length_insert.
    rewrite list_insert_id; [done|]. by rewrite list_lookup_fmap, Hrow.
  - intros i' j'. unfold grid_at.
    destruct (decide (i' = i)) as [->|Hne].
    + rewrite list_lookup_insert_eq by by eapply lookup_lt_Some.
      rewrite Hrow. simpl. destruct (decide (j' = j)) as [->|Hnj].
      * rewrite decide_True by done.
        apply list_lookup_insert_eq. lia.
      * rewrite decide_False by tauto.
        by rewrite list_lookup_insert_ne.
    + rewrite decide_False by tauto.
      by rewrite list_lookup_insert_ne.
Qed.

Lemma letters_set_Raise g i j c :
  shaped height width g → ¬ (i < height ∧ j < width) →
  letters_set g i j c = Raise IndexError.
Proof.
  intros Hs Hout. unfold letters_set.
  destruct (g !! i) as [row|] eqn:Hrow; [|done].
  destruct (shaped_lookup _ _ _ Hs Hrow) as [? Hlen].
  rewrite decide_False; [done|]. lia.
Qed.

Lemma place_word_inside g v word ks :
  shaped height width g → Forall (λ k, k < String.length word) ks →
  inside height width v ks →
  ∃ g', place_word g v word ks = Ok g' ∧ shaped height width g' ∧
        ∀ i j,
          (∃ k c, k ∈ ks ∧ cell v k = (i, j) ∧ String.get k word = Some c ∧
                  grid_at g' i j = Some (Some c)) ∨
          ((∀ k, k ∈ ks → cell v k ≠ (i, j)) ∧
           grid_at g' i j = grid_at g i j).
Proof.
  intros Hs Hks. revert g Hs.
  induction Hks as [|k ks Hk _ IH]; intros g Hs Hin; simpl.
  { exists g. split_and!; [done|done|]. intros i j. right.
    split; [by intros ? ?%elem_of_nil|done]. }
  apply Forall_cons in Hin as [[Hi Hj] Hin].
  destruct (string_get_lt word k Hk) as [c Hc].
  assert (str_index word k = Ok c) as -> by by apply str_index_Ok.
  cbn [bind]. rewrite cell_row, cell_column.
  destruct (cell v k) as [ci cj] eqn:Hcell. simpl in Hi, Hj |- *.
  destruct (letters_set_Ok g ci cj c Hs Hi Hj) as (g1 & -> & Hs1 & Hat1).
  cbn [bind].
  destruct (IH g1 Hs1 Hin) as (g' & Hrun & Hs' & Hat').
  exists g'. split_and!; [done|done|]. intros i j.
  destruct (Hat' i j) as [(k' & c' & Hk' & Hc' & Hg' & Hgrid)|[Hnone Hgrid]].
  - left. exists k', c'. split_and!; [by right|done|done|done].
  - rewrite Hat1 in Hgrid. case_decide as Heq.
    + destruct Heq as [-> ->]. left. exists k, c.
      split_and!; [by left|done|done|done].
    + right. split; [|done].
      intros k0 [->|?]%elem_of_cons; [|auto].
      rewrite Hcell. intros [= <- <-]. tauto.
Qed.

Lemma place_word_outside g v word ks :
  shaped height width g → Forall (λ k, k < String.length word) ks →
  ¬ inside height width v ks →
  place_word g v word ks = Raise IndexError.
Proof.
  intros Hs Hks. revert g Hs.
  induction Hks as [|k ks Hk _ IH]; intros g Hs Hout; simpl.
  { destruct Hout. constructor. }
  destruct (string_get_lt word k Hk) as [c Hc].
  assert (str_index word k = Ok c) as -> by by apply str_index_Ok.
  cbn [bind]. rewrite cell_row, cell_column.
  destruct (cell v k) as [ci cj] eqn:Hcell. simpl.
  destruct (decide (ci < height ∧ cj < width)) as [[Hi Hj]|Hcell_out].
  - destruct (letters_set_Ok g ci cj c Hs Hi Hj) as (g1 & -> & Hs1 & _).
    cbn [bind]. apply IH; [done|]. intros Hin. apply Hout.
    constructor; [by rewrite Hcell|done].
  - by rewrite letters_set_Raise.
Qed.

Lemma seq_lt n : Forall (λ k, k < n) (seq 0 n).
Proof. apply Forall_forall. intros k Hk%elem_of_seq. lia. Qed.

(** placing one word: the cells it covers get its letters *)
Lemma place_word_fits g v word :
  shaped height width g → fits height width (v, word) →
  ∃ g', place_word g v word (seq 0 (String.length word)) = Ok g' ∧
        shaped height width g' ∧
        ∀ i j, grid_at g' i j
               = match letter_at (v, word) i j with
                 | Some c => Some (Some c)
                 | None => grid_at g i j
                 end.
Proof.
  intros Hs Hfit.
  destruct (place_word_inside g v word _ Hs (seq_lt _) Hfit)
    as (g' & Hrun & Hs' & Hat).
  exists g'. split_and!; [done|done|]. intros i j.
  destruct (Hat i j) as [(k & c & Hk & Hcell & Hc & ->)|[Hnone ->]].
  - assert (letter_at (v, word) i j = Some c) as ->; [|done].
    apply letter_at_cell. eauto.
  - destruct (letter_at (v, word) i j) as [c|] eqn:Hl; [|done].
    apply letter_at_cell in Hl as (k & Hcell & Hc).
    destruct (Hnone k); [|done].
    apply elem_of_seq. apply string_get_Some in Hc. lia.
Qed.

Lemma place_items_fits g items :
  shaped height width g → Forall (fits height width) items →
  ∃ g', place_items g items = Ok g' ∧ shaped height width g' ∧
        ∀ i j x, grid_at g i j = Some x →
                 grid_at g' i j
                 = Some (foldl (λ acc item,
                                  match letter_at item i j with
                                  | Some c => Some c
                                  | None => acc
                                  end) x items).
Proof.
  intros Hs Hfit. revert g Hs.
  induction Hfit as [|[v word] items Hitem _ IH]; intros g Hs; simpl.
  { exists g. split_and!; [done|done|]. auto. }
  destruct (place_word_fits g v word Hs Hitem) as (g1 & -> & Hs1 & Hat1).
  cbn [bind]. destruct (IH g1 Hs1) as (g' & Hrun & Hs' & Hat').
  exists g'. split_and!; [done|done|]. intros i j x Hx.
  apply Hat'. rewrite Hat1, Hx. by destruct (letter_at (v, word) i j).
Qed.

Lemma place_items_unfit g items :
  shaped height width g → ¬ Forall (fits height width) items →
  place_items g items = Raise IndexError.
Proof.
  intros Hs. revert g Hs.
  induction items as [|[v word] items IH]; intros g Hs Hout; simpl.
  { destruct Hout. constructor. }
  destruct (decide (fits height width (v, word))) as [Hitem|Hitem].
  - destruct (place_word_fits g v word Hs Hitem) as (g1 & -> & Hs1 & _).
    cbn [bind]. apply IH; [done|]. intros Hfit. apply Hout. by constructor.
  - rewrite place_word_outside; [done|done|apply seq_lt|done].
Qed.

Lemma shaped_rows g :
  shaped height width g →
  length g = height ∧ Forall (λ row, length row = width) g.
Proof.
  intros Hs. split.
  - unfold shaped in Hs. apply (f_equal length) in Hs.
    by rewrite length_fmap, length_replicate in Hs.
  - apply Forall_forall. intros row Hrow.
    apply list_elem_of_lookup in Hrow as [i Hi].
    by destruct (shaped_lookup _ _ _ Hs Hi).
Qed.

Lemma letter_grid_cells a g :
  letter_grid height width a = Ok g →
  Forall (fits height width) a ∧ shaped height width g ∧
  ∀ i j, i < height → j < width → grid_at g i j = Some (shown a i j).
Proof.
  intros Hrun. unfold letter_grid in Hrun.
  destruct (decide (Forall (fits height width) a)) as [Hfit|Hout].
  - destruct (place_items_fits _ a shaped_replicate Hfit)
      as (g' & Hrun' & Hs & Hat).
    assert (g' = g) as -> by congruence.
    split_and!; [done|done|]. intros i j Hi Hj. apply Hat.
    unfold grid_at. rewrite lookup_replicate_2 by done. simpl.
    by rewrite lookup_replicate_2.
  - by rewrite place_items_unfit in Hrun by auto using shaped_replicate.
Qed.
End grid.

Lemma shown_from a i j acc :
  let step := λ (acc : option Ascii.ascii) (item : Var * string),
                match letter_at item i j with
                | Some c => Some c
                | None => acc
                end in
  (∃ item c, item ∈ a ∧ letter_at item i j = Some c ∧
             foldl step acc a = Some c) ∨
  ((∀ item, item ∈ a → letter_at item i j = None) ∧ foldl step acc a = acc).
Proof.
  intros step. revert acc. induction a as [|item a IH]; simpl; intros acc.
  { right. split; [by intros ? ?%elem_of_nil|done]. }
  destruct (IH (step acc item)) as [(it & c & Hit & Hc & Hres)|[Hnone Hres]].
  - left. exists it, c. split_and!; [by right|done|done].
  - rewrite Hres. unfold step at 1 2. destruct (letter_at item i j) as [c|] eqn:Hc.
    + left. exists item, c. split_and!; [by left|done|done].
    + right. split; [|done]. intros it [->|?]%elem_of_cons; auto.
Qed.

Lemma shown_cases a i j :
  (∃ item c, item ∈ a ∧ letter_at item i j = Some c ∧ shown a i j = Some c) ∨
  ((∀ item, item ∈ a → letter_at item i j = None) ∧ shown a i j = None).
Proof. apply (shown_from a i j None). Qed.

(** X19. The result of [letter_grid]: when every assigned word stays inside
    the grid, [letter_grid] returns [height] rows of [width] cells each;
    when the word of some item has a letter outside the grid, it raises
    [IndexError]. The length recorded in the slot plays no part: the cells
    are those of the letters of the word. *)
Theorem letter_grid_result height width a :
  (Forall (fits height width) a →
   ∃ g, letter_grid height width a = Ok g ∧ length g = height ∧
        Forall (λ row, length row = width) g) ∧
  (¬ Forall (fits height width) a →
   letter_grid height width a = Raise IndexError).
Proof.
  split.
  - intros Hfit.
    destruct (place_items_fits height width _ a
                (shaped_replicate height width) Hfit) as (g & Hrun & Hs & _).
    exists g. split; [done|]. apply (shaped_rows height width g Hs).
  - intros Hout.
    apply (place_items_unfit height width); [apply shaped_replicate|done].
Qed.

(** X20. The cells of [letter_grid]: in the grid returned, a cell holds
    the letter that the last item of the assignment covering it puts
    there, and no letter when no item covers it; outside the [height]
    rows and [width] columns there is no cell. *)
Theorem letter_grid_last_item height width a g :
  letter_grid height width a = Ok g →
  ∀ i j, grid_at g i j
         = if decide (i < height ∧ j < width) then Some (shown a i j)
           else None.
Proof.
  intros Hrun i j.
  destruct (letter_grid_cells height width a g Hrun) as (_ & Hs & Hat).
  case_decide as Hin; [destruct Hin; by apply Hat|].
  destruct (grid_at g i j) eqn:Hg; [|done].
  destruct Hin. apply (shaped_grid_at height width g i j Hs). eauto.
Qed.

Lemma letter_grid_last_item_witness :
  let a := [(Cross.across, "ABC"); (Cross.down, "BAD")]%string in
  let g := match letter_grid 3 3 a with Ok g => g | Raise _ => [] end in
  Forall (λ i, Forall (λ j, grid_at g i j
                            = if decide (i < 3 ∧ j < 3)
                              then Some (shown a i j) else None)
                      (seq 0 4))
         (seq 0 4).
Proof.
  intros a g. apply Forall_forall. intros i _. apply Forall_forall.
  intros j _. revert i j.
  apply (letter_grid_last_item 3 3 a g). vm_compute. reflexivity.
Defined.

(** X21. [letter_grid] shows the assignment: when the items of the
    assignment that cover one cell of the grid put the same letter there,
    the grid returned holds every letter of every assigned word at the
    cell of this letter, and holds no letter in the cells that no item
    covers. *)
Theorem letter_grid_shows_words height width a g :
  letter_grid height width a = Ok g →
  letters_agree height width a →
  (∀ v word k c,
     (v, word) ∈ a → String.get k word = Some c →
     grid_at g (cell v k).1 (cell v k).2 = Some (Some c)) ∧
  (∀ i j, i < height → j < width →
          (∀ item, item ∈ a → letter_at item i j = None) →
          grid_at g i j = Some None).
Proof.
  intros Hrun Hagree.
  destruct (letter_grid_cells height width a g Hrun) as (Hfit & Hs & Hat).
  split.
  - intros v word k c Hin Hc.
    rewrite Forall_forall in Hfit. specialize (Hfit _ Hin).
    unfold fits in Hfit. rewrite Forall_forall in Hfit.
    destruct (Hfit k) as [Hi Hj].
    { apply elem_of_seq. apply string_get_Some in Hc. simpl. lia. }
    simpl in Hi, Hj. rewrite Hat by done. do 2 f_equal.
    assert (Hl : letter_at (v, word) (cell v k).1 (cell v k).2 = Some c).
    { apply letter_at_cell. exists k. split; [by destruct (cell v k)|done]. }
    destruct (shown_cases a (cell v k).1 (cell v k).2)
      as [(item & c' & Hitem & Hc' & ->)|[Hnone _]].
    + f_equal. unfold letters_agree in Hagree.
      rewrite Forall_forall in Hagree.
      specialize (Hagree (cell v k).1). rewrite Forall_forall in Hagree.
      specialize (Hagree ltac:(apply elem_of_seq; lia) (cell v k).2).
      rewrite Forall_forall in Hagree.
      specialize (Hagree ltac:(apply elem_of_seq; lia) item).
      rewrite Forall_forall in Hagree.
      specialize (Hagree Hitem (v, word) Hin).
      by rewrite Hc', Hl in Hagree.
    + rewrite (Hnone _ Hin) in Hl. done.
  - intros i j Hi Hj Hnone. rewrite Hat by done. f_equal.
    destruct (shown_cases a i j) as [(item & c & Hitem & Hc & _)|[_ ->]];
      [|done].
    rewrite (Hnone _ Hitem) in Hc. done.
Qed.

Lemma letter_grid_shows_words_witness :
  let a := [(Cross.across, "ABC"); (Cross.down, "BAD")]%string in
  let g := match letter_grid 3 3 a with Ok g => g | Raise _ => [] end in
  Forall (λ item : Var * string,
            Forall (λ k, ∀ c, String.get k item.2 = Some c →
                              grid_at g (cell item.1 k).1 (cell item.1 k).2
                              = Some (Some c))
                   (seq 0 3))
         a.
Proof.
  intros a g.
  destruct (letter_grid_shows_words 3 3 a g) as [Hwords _];
    [vm_compute; reflexivity|by_compute|].
  apply Forall_forall. intros [v word] Hin. apply Forall_forall.
  intros k _ c Hc. simpl in Hc |- *. by apply (Hwords v word k c).
Defined.

(** ** The search on an arc-consistent store *)

Section stable.
Variable cw : Crossword.
Hypothesis Hwf : wf_crossword cw.

Lemma arc_consistent_arc_ok self :
  arc_consistent cw self → ∀ a b, arc_ok cw self a b.
Proof.
  intros Hac a b i j dx dy Ho Hdx Hdy. apply Forall_forall. intros w Hw.
  destruct (wf_overlap_of cw Hwf _ _ _ _ Ho) as (Ha & Hb & Hne & _ & _ & Hba).
  destruct (Hac a b dx w) as (i' & j' & dy' & Ho' & Hdy' & Hsup);
    [done| |done|done|congruence].
  apply elem_of_neighbors. split_and!; [done|congruence|eauto].
Qed.

Lemma keyed_neighbor_arcs var :
  keyed cw (map (λ neighbor, (neighbor, var)) (neighbors cw var)).
Proof.
  apply Forall_forall. intros arc (nb & -> & Hnb)%list_elem_of_fmap.
  apply elem_of_neighbors in Hnb as (_ & _ & o & Ho). simpl. by rewrite Ho.
Qed.

Variable self : CrosswordCreator.
Hypothesis Hst : store_wf cw self.
Hypothesis Hnc : node_consistent cw self.
Hypothesis Hok : ∀ a b, arc_ok cw self a b.

(** nothing to revise: [ac3] succeeds and leaves the store as it is *)
Lemma ac3_stable arcs :
  keyed cw arcs → ac3 cw self (Some arcs) = Ok (true, self).
Proof.
  intros Hkeys.
  change (ac3 cw self (Some arcs))
    with (ac3_loop cw (ac3_fuel cw self arcs) self arcs).
  apply ac3_loop_stable; try done. unfold ac3_fuel. lia.
Qed.

Lemma try_values_stable rec a var values r self' :
  (∀ a' r' s', rec self a' = Ok (r', s') → s' = self) →
  try_values cw rec self a var values = Ok (r, self') → self' = self.
Proof.
  intros Hrec.
  induction values as [|value values IH]; simpl; intros H.
  { by injection H as _ <-. }
  inv_bind H. destruct a0; [|auto].
  inv_bind H. rewrite ac3_stable in H by apply keyed_neighbor_arcs.
  cbn [bind negb] in H. inv_bind H. destruct a1 as [res self2].
  apply Hrec in E1 as ->.
  destruct (truthy res); [by injection H as _ <-|].
  rewrite (restore_after_snapshot self self _ _ E0) in H by done.
  cbn [bind] in H. auto.
Qed.

Lemma backtrack_stable fuel a r self' :
  backtrack cw fuel self a = Ok (r, self') → self' = self.
Proof.
  revert a r self'.
  induction fuel as [|fuel IH]; simpl; intros a r self' H; [done|].
  destruct (assignment_complete cw a); [by injection H as _ <-|].
  inv_bind H. inv_bind H. eapply try_values_stable; [|exact H]. eauto.
Qed.

(** the loop over the candidate words leaves no candidate out *)
Lemma try_values_exhaustive rec a var values self' :
  (∀ a' r' s', rec self a' = Ok (r', s') → s' = self) →
  (∀ value r' s', rec self (dict_set a var value) = Ok (Some r', s') →
                  truthy (Some r') = true) →
  try_values cw rec self a var values = Ok (None, self') →
  ∀ value, value ∈ values →
           consistent cw (dict_set a var value) = Ok true →
           ∃ s', rec self (dict_set a var value) = Ok (None, s').
Proof.
  intros Hrec Htruthy.
  induction values as [|value values IH]; simpl; intros H value0 Hin Hc.
  { by apply elem_of_nil in Hin. }
  inv_bind H. rename a0 into ok. rename E into Hcons. destruct ok.
  - inv_bind H. rename E into Hsnap.
    rewrite ac3_stable in H by apply keyed_neighbor_arcs.
    cbn [bind negb] in H. inv_bind H. rename E into Hrun.
    destruct a1 as [res self2].
    pose proof (Hrec _ _ _ Hrun) as ->.
    destruct res as [r'|].
    + rewrite (Htruthy _ _ _ Hrun) in H. done.
    + simpl in H.
      rewrite (restore_after_snapshot self self _ _ Hsnap) in H by done.
      cbn [bind] in H.
      apply elem_of_cons in Hin as [->|Hin]; [eauto|by apply IH].
  - apply elem_of_cons in Hin as [->|Hin]; [congruence|by apply IH].
Qed.

Variable sol : list (Var * string).
Hypothesis Hsol_keys : NoDup sol.*1.
Hypothesis Hsol_complete : ∀ v, v ∈ variables cw → is_Some (dict_get sol v).
Hypothesis Hsol_consistent : consistent cw sol = Ok true.
Hypothesis Hsol_domains :
  ∀ v w, v ∈ variables cw → dict_get sol v = Some w →
         ∃ d, domain self v = Ok d ∧ w ∈ d.

(** the search does not give up on an assignment that [sol] extends *)
Lemma backtrack_exhaustive fuel a self' :
  NoDup a.*1 →
  (∀ v w, dict_get a v = Some w → dict_get sol v = Some w) →
  backtrack cw fuel self a ≠ Ok (None, self').
Proof.
  revert a self'.
  induction fuel as [|fuel IH]; simpl; intros a self' Hnd Hsub H; [done|].
  destruct (assignment_complete cw a); [done|].
  inv_bind H. rename a0 into var. rename E into Hsel.
  inv_bind H. rename a0 into values. rename E into Hord.
  apply select_unassigned_variable_unassigned in Hsel as [Hvar Hun].
  apply dict_mem_false in Hun.
  apply order_domain_values_perm in Hord as (d & Hd & Hperm).
  destruct (Hsol_complete var Hvar) as [w Hw].
  destruct (Hsol_domains var w Hvar Hw) as (d' & Hd' & Hin).
  assert (d' = d) as -> by congruence.
  assert (Hnd' : NoDup (dict_set a var w).*1).
  { rewrite dict_set_fresh, fmap_app by done. simpl.
    apply NoDup_app. split_and!; [done| |apply NoDup_singleton].
    intros k Hk ->%list_elem_of_singleton. by apply dict_get_None in Hun. }
  assert (Hsub' : ∀ v x, dict_get (dict_set a var w) v = Some x →
                         dict_get sol v = Some x).
  { intros v x. rewrite dict_get_set. case_decide; [congruence|auto]. }
  destruct (try_values_exhaustive (backtrack cw fuel) a var values self')
    with (value := w) as [s' Hrec]; [| |done| | |].
  - intros a' r' s'. apply backtrack_stable.
  - intros value r' s' Hrun.
    pose proof (backtrack_extends_assignment cw _ _ _ _ _ Hrun var value) as Hk.
    rewrite dict_get_set, decide_True in Hk by done.
    specialize (Hk eq_refl). by destruct r'.
  - by rewrite Hperm.
  - by apply (consistent_sub cw Hwf sol).
  - by apply (IH _ _ Hnd' Hsub') in Hrec.
Qed.
End stable.

(** X22. On an arc-consistent store the search removes no word: on a
    well-formed puzzle, with a set object of its own for every slot, only
    words of the length of the slot in every domain and every arc
    consistent, [backtrack] leaves the store exactly as it found it,
    whatever it returns. The calls of [ac3] inside [backtrack] revise the
    neighbours of the chosen slot against its whole domain, not against
    the word chosen, and find nothing to remove. *)
Theorem backtrack_keeps_arc_consistent_store cw fuel self a r self' :
  wf_crossword cw → store_wf cw self → node_consistent cw self →
  arc_consistent cw self →
  backtrack cw fuel self a = Ok (r, self') → self' = self.
Proof.
  intros Hwf Hst Hnc Hac. apply (backtrack_stable cw Hwf self Hst Hnc).
  by apply arc_consistent_arc_ok.
Qed.

Lemma backtrack_keeps_arc_consistent_store_witness :
  let cw := Cross.puzzle ["ABC"; "BAD"; "XYZ"]%string in
  match backtrack cw 3 (searched cw) [] with
  | Ok (_, self') => self' = searched cw
  | Raise _ => False
  end.
Proof.
  intros cw.
  destruct (backtrack cw 3 (searched cw) []) as [[r self']|e] eqn:Hrun.
  - apply (backtrack_keeps_arc_consistent_store cw 3 (searched cw) [] r self');
      [by_compute|by_compute|by_compute| |exact Hrun].
    apply (ac3_arc_consistent cw ltac:(by_compute) (prepared cw));
      [by_compute|vm_compute; reflexivity].
  - vm_compute in Hrun. discriminate Hrun.
Defined.

Section complete.
Variable cw : Crossword.
Hypothesis Hwf : wf_crossword cw.

Lemma ac3_loop_solution fuel self arcs self' f :
  store_wf cw self → ac3_loop cw fuel self arcs = Ok (true, self') →
  solution cw self f → solution cw self' f.
Proof.
  intros Hst H Hsol.
  apply (ac3_loop_inv cw (λ s _, store_wf cw s ∧ solution cw s f)) in H;
    [by destruct H| | |done].
  - by intros s x y rest [? ?] _.
  - intros s x y rest s' [? ?] Hrev. split.
    + by eapply revise_store_wf.
    + by eapply (revise_solution cw Hwf).
Qed.

Lemma filling_consistent a : filling cw a → consistent cw a = Ok true.
Proof.
  intros (Hnd & _ & Hlen & Hnc & Hnr).
  destruct (consistent_spec cw Hwf a Hnd Hlen) as (b & Hb & Hspec).
  destruct b; [done|]. destruct (proj1 Hspec eq_refl); done.
Qed.

Lemma filling_solution a self :
  filling cw a → enforce_node_consistency cw (init cw) = Ok self →
  solution cw self (word_of a).
Proof.
  intros Hfill Hself. pose proof Hfill as (Hnd & Hvoc & Hlen & Hnc & Hnr).
  destruct (enforce_node_consistency_spec cw (init cw) (init_bound cw))
    as (s & Hs & _ & _ & Hspec).
  assert (s = self) as -> by congruence.
  split.
  - intros v Hv. destruct (Hvoc v Hv) as (w & Hw & Hin).
    destruct (Hspec v _ Hv (init_domain cw v Hv)) as (d & Hd & Hd_spec).
    exists d. split; [done|]. unfold word_of. rewrite Hw. simpl.
    apply Hd_spec. split; [done|].
    apply dict_get_elem_of in Hw. unfold lengths_match in Hlen.
    rewrite Forall_forall in Hlen. by apply (Hlen (v, w)).
  - intros x y i j Ho.
    destruct (wf_overlap_of cw Hwf _ _ _ _ Ho) as (Hx & Hy & _).
    destruct (Hvoc x Hx) as (wx & Hwx & _).
    destruct (Hvoc y Hy) as (wy & Hwy & _).
    unfold word_of. rewrite Hwx, Hwy. simpl.
    destruct (agree i j wx wy) eqn:Hag; [done|].
    destruct Hnc. exists x, y, wx, wy, i, j. split_and!; try done.
    rewrite Hag. exact id.
Qed.

Lemma solve_result_filling a self' :
  solve cw (init cw) = Ok (Some a, self') → filling cw a.
Proof.
  intros Hrun.
  pose proof (solve_from_vocabulary cw a self' Hrun) as Hvoc.
  unfold solve in Hrun. inv_bind Hrun. inv_bind Hrun.
  destruct a1 as [b self2].
  pose proof (backtrack_keys_NoDup cw _ _ _ _ _ Hrun (NoDup_nil_2)) as Hnd.
  assert (Hempty : consistent cw [] = Ok true) by done.
  destruct (backtrack_valid cw _ _ _ _ _ Hempty Hrun) as [Hc Hok].
  pose proof (consistent_lengths cw _ Hok) as Hlen.
  rewrite assignment_complete_spec in Hc.
  destruct (consistent_spec cw Hwf a Hnd Hlen) as (b' & Hb' & Hspec).
  assert (b' = true) as -> by congruence.
  split_and!; [done| |done| |].
  - intros v Hv. destruct (Hc v Hv) as [w Hw]. exists w.
    split; [done|]. by apply (Hvoc v w).
  - intros Hbad. discriminate (proj2 Hspec (or_introl Hbad)).
  - intros Hbad. discriminate (proj2 Hspec (or_intror Hbad)).
Qed.

Lemma solve_none_no_filling self' a :
  solve cw (init cw) = Ok (None, self') → ¬ filling cw a.
Proof.
  intros Hrun Hfill. unfold solve in Hrun.
  inv_bind Hrun. rename a0 into self1. rename E into Hself1.
  inv_bind Hrun. destruct a0 as [b self2]. rename E into Hac3.
  pose proof (filling_solution a self1 Hfill Hself1) as Hsol1.
  destruct (enforce_node_consistency_spec cw (init cw) (init_bound cw))
    as (s & Hs & Hst1 & Hnc1 & _).
  assert (s = self1) as -> by congruence.
  unfold ac3 in Hac3. inv_bind Hac3. rename a0 into arcs. rename E into Harcs.
  destruct b.
  - pose proof (ac3_loop_solution _ _ _ _ _ Hst1 Hac3 Hsol1) as [Hdom2 _].
    assert (Hst2 : store_wf cw self2) by by eapply ac3_loop_store_wf.
    assert (Hnc2 : node_consistent cw self2).
    { eapply narrows_node_consistent; [|done]. by eapply ac3_loop_narrows. }
    assert (Hok2 : ∀ x y, arc_ok cw self2 x y).
    { apply ac3_loop_arc_ok in Hac3 as [_ Hok]; [done|done|].
      split; [done|]. intros x y [[o|] Ho]%is_Ok_exists.
      - left. destruct (all_arcs_spec cw) as (arcs' & Harcs' & Hin).
        rewrite Harcs' in Harcs. injection Harcs as <-. apply Hin. eauto.
      - right. intros i j dx dy Ho'. congruence. }
    pose proof Hfill as (Hnd & Hvoc & _).
    eapply (backtrack_exhaustive cw Hwf self2 Hst2 Hnc2 Hok2 a);
      [done| | | | | |exact Hrun].
    + intros v Hv. destruct (Hvoc v Hv) as (w & -> & _). eauto.
    + by apply filling_consistent.
    + intros v w Hv Hw. destruct (Hdom2 v Hv) as (d & Hd & Hin).
      exists d. split; [done|]. unfold word_of in Hin.
      by rewrite Hw in Hin.
    + constructor.
    + done.
  - by eapply (ac3_loop_sound cw Hwf).
Qed.
End complete.

(** X23. [solve] finds a filling when there is one: on a well-formed
    puzzle [solve] returns; an assignment that it returns is a filling of
    the puzzle from the vocabulary (every slot has a word of the
    vocabulary, of the length of the slot, the words agree where two slots
    overlap and are all different); and it returns [None] only when the
    puzzle has no filling from the vocabulary. *)
Theorem solve_complete cw :
  wf_crossword cw →
  ∃ r self',
    solve cw (init cw) = Ok (r, self') ∧
    match r with
    | Some a => filling cw a
    | None => ∀ a, ¬ filling cw a
    end.
Proof.
  intros Hwf. destruct (solve_total cw Hwf) as (r & self' & Hrun).
  exists r, self'. split; [done|]. destruct r as [a|].
  - by eapply solve_result_filling.
  - intros a. by eapply solve_none_no_filling.
Qed.

Lemma solve_complete_witness :
  let cw := Cross.puzzle ["ABC"; "XYZ"]%string in
  ∃ r self',
    solve cw (init cw) = Ok (r, self') ∧
    match r with
    | Some a => filling cw a
    | None => ∀ a, ¬ filling cw a
    end.
Proof.
  intros cw. apply (solve_complete cw). by_compute.
Defined.
